(** * CardAutomated: the card-sorting control loop

    A shallow embedding of the control code of the card sorting robot
    ([modules/robot_arm.py], [modules/ocr_recognition.py],
    [modules/database.py], [modules/camera.py] and [main.py]) together with
    the properties of its motion safety layer, its recognition gate and its
    run controller.

    Conventions of the embedding:
    - Python numbers (int and float) are [pynum]: an exact rational, one of
      the two infinities, or NaN, compared the way Python compares them.
    - Python dictionaries are [gmap string _]; [d.get(k, v)] is
      [default v (d !! k)], [d[k]] raises [KeyError] on a missing key.
    - A method is a computation [M A]: it takes the machine [state], returns
      a value, raises an exception or blocks for ever, and gives the new
      state.  What the hardware, the libraries and the operator answer is
      read from scripts held in the state ([Env]); what the program does to
      them is appended to [trace].
    - The operator's interrupt (Ctrl-C) is delivered at the console prompt
      only; frame capture, image processing and sqlite are library calls
      whose outcome the scripts decide.
    - Console output and logging have no influence on control flow and are
      left out.
    - Three pieces of pure code are embedded on their own, beside the
      methods above: [ConfigLoader.get] ([utils/config_loader.py]), the
      window of [extract_roi] ([utils/image_processing.py], module
      [ImageProcessor]) and the choice of the sharpest frame in
      [capture_multiple_frames] (module [Camera]). *)

From Stdlib Require Import QArith ZArith Lia Bool.
From stdpp Require Import base option list gmap strings.

Local Open Scope string_scope.
Local Open Scope list_scope.
Local Open Scope Z_scope.

(** ** Python numbers *)

Inductive pynum : Type :=
| Fin (q : Q)
| PosInf
| NegInf
| NaN.

Definition zn (z : Z) : pynum := Fin (inject_Z z).

(** [a <= b] on Python numbers, as a decision procedure. *)
Definition num_leb (a b : pynum) : bool :=
  match a, b with
  | NaN, _ => false
  | _, NaN => false
  | NegInf, _ => true
  | _, PosInf => true
  | Fin p, Fin q => Qle_bool p q
  | PosInf, _ => false
  | Fin _, NegInf => false
  end.

(** [a < b] on Python numbers. *)
Definition num_ltb (a b : pynum) : bool :=
  match a, b with
  | NaN, _ => false
  | _, NaN => false
  | NegInf, NegInf => false
  | NegInf, _ => true
  | PosInf, _ => false
  | Fin _, PosInf => true
  | Fin p, Fin q => negb (Qle_bool q p)
  | Fin _, NegInf => false
  end.

(** The order itself: the mathematical relation the two procedures decide. *)
Inductive num_le : pynum -> pynum -> Prop :=
| le_fin p q : (p <= q)%Q -> num_le (Fin p) (Fin q)
| le_neginf_fin q : num_le NegInf (Fin q)
| le_neginf_neginf : num_le NegInf NegInf
| le_any_posinf_fin p : num_le (Fin p) PosInf
| le_neginf_posinf : num_le NegInf PosInf
| le_posinf_posinf : num_le PosInf PosInf.

(** [v] lies in the closed interval [[lo, hi]]. *)
Definition within (lo hi v : pynum) : Prop := num_le lo v /\ num_le v hi.

(** ** Exceptions, the machine state and the monad of methods *)

Inductive exn : Type :=
| KeyError (k : string)
| SerialException
| ValueError
| OverflowError
| ZeroDivisionError
| IntegrityError
| LibraryError
| EOFError
| KeyboardInterrupt.

(** [except Exception] catches everything but [KeyboardInterrupt], which
    derives from [BaseException] only. *)
Definition is_Exception (e : exn) : bool :=
  match e with
  | KeyboardInterrupt => false
  | _ => true
  end.

Inductive Position : Type := HOME | CARD_PILE | SCAN | SUCCESS | FAILED.

Definition Position_value (p : Position) : string :=
  match p with
  | HOME => "home"
  | CARD_PILE => "card_pile"
  | SCAN => "scan_position"
  | SUCCESS => "success_pile"
  | FAILED => "failed_pile"
  end.

(** The three command lines the arm is sent: [G0 X.. Y.. Z.. A.. B.. C.. F..],
    [M3 S..] and [M112]. *)
Inductive command : Type :=
| G0 (x y z rx ry rz f : pynum)
| M3 (s : pynum)
| M112.

(** What one [serial_conn.write] carries: an encoded command line or the
    newline that ends it. *)
Inductive wire : Type :=
| WCommand (c : command)
| WNewline.

(** A captured picture; its pixels play no part in the control flow. *)
Inductive image : Type := Frame (id : nat).

(** A row of the [cards] table. *)
Record card_record : Type := mkCard {
  card_number : string;
  confidence : pynum;
  image_path : option string;
  processed_image_path : option string;
  status : string
}.

(** What the operator does at the console prompt. *)
Inductive operator_action : Type := PressEnter | PressCtrlC | CloseStdin.

Inductive event : Type :=
| EvSendCommand (c : command)      (* send_command was entered *)
| EvSerialWrite (d : wire)         (* bytes went out on the serial line *)
| EvSleep (d : pynum)              (* time.sleep(d) *)
| EvRecognize                      (* OCRRecognizer.recognize was called *)
| EvCapture                        (* Camera.capture_multiple_frames *)
| EvInput                          (* input() was reached *)
| EvPrintStatistics                (* print_statistics was entered *)
| EvCameraClose                    (* Camera.close was entered *)
| EvRobotDisconnect                (* RobotArm.disconnect was entered *)
| EvDatabaseClose                  (* CardDatabase.close was entered *)
| EvCleanup.                       (* CardSortingRobot.cleanup was entered *)

(** The answers of the outside world, each list read from its head.
    - [serial_script]: whether the next write on the serial line goes
      through ([false]: it raises); an exhausted script means success.
    - [lib_script]: whether the next call into cv2, sqlite3, the serial
      port's open/close or the file system succeeds.
    - [camera_script]: what the next [capture_multiple_frames] returns.
    - [ocr_script]: what the next [recognize] returns.
    - [operator_script]: what the operator does at the next prompt; an
      exhausted script means nobody ever answers. *)
Record Env : Type := mkEnv {
  serial_script : list bool;
  lib_script : list bool;
  camera_script : list (option image);
  ocr_script : list (option string * pynum);
  operator_script : list operator_action
}.

Record state : Type := mkState {
  trace : list event;                 (* newest event first *)
  env : Env;
  (* RobotArm *)
  is_connected : bool;
  serial_open : bool;                 (* serial_conn exists and is open *)
  current_position : option Position;
  (* Camera *)
  camera_cap : bool;                  (* cap is not None *)
  camera_opened : bool;               (* is_opened *)
  (* CardDatabase *)
  db_rows : list card_record;
  (* CardSortingRobot *)
  total_processed : Z;
  success_count : Z;
  failed_count : Z
}.

(** How a computation ends: it returns, it raises, it blocks for ever on
    the console ([Hang]), or it is still running when the fuel given to a
    loop is used up ([OutOfFuel]). *)
Inductive res (A : Type) : Type :=
| Ret (a : A)
| Raise (e : exn)
| Hang
| OutOfFuel.
Arguments Ret {A} a.
Arguments Raise {A} e.
Arguments Hang {A}.
Arguments OutOfFuel {A}.

Definition M (A : Type) : Type := state -> res A * state.

Definition ret {A} (a : A) : M A := fun w => (Ret a, w).
Definition raise {A} (e : exn) : M A := fun w => (Raise e, w).
Definition bind {A B} (m : M A) (k : A -> M B) : M B :=
  fun w =>
    match m w with
    | (Ret a, w') => k a w'
    | (Raise e, w') => (Raise e, w')
    | (Hang, w') => (Hang, w')
    | (OutOfFuel, w') => (OutOfFuel, w')
    end.

Declare Scope py_scope.
Delimit Scope py_scope with py.
Notation "x <- m ;; k" := (bind m (fun x => k))
  (at level 100, m at next level, right associativity) : py_scope.
Notation "m ;;; k" := (bind m (fun _ => k))
  (at level 100, right associativity) : py_scope.
Local Open Scope py_scope.

(** [try: m  except Exception: h]. *)
Definition try_except_Exception {A} (m : M A) (h : exn -> M A) : M A :=
  fun w =>
    match m w with
    | (Raise e, w') => if is_Exception e then h e w' else (Raise e, w')
    | r => r
    end.

(** [try: m  except KeyboardInterrupt: h]. *)
Definition try_except_KeyboardInterrupt {A} (m : M A) (h : M A) : M A :=
  fun w =>
    match m w with
    | (Raise KeyboardInterrupt, w') => h w'
    | r => r
    end.

(** [try: m  finally: f]. *)
Definition try_finally {A} (m : M A) (f : M unit) : M A :=
  fun w =>
    match m w with
    | (Hang, w') => (Hang, w')
    | (OutOfFuel, w') => (OutOfFuel, w')
    | (r, w') =>
        match f w' with
        | (Ret _, w'') => (r, w'')
        | (Raise e, w'') => (Raise e, w'')
        | (Hang, w'') => (Hang, w'')
        | (OutOfFuel, w'') => (OutOfFuel, w'')
        end
    end.

(** *** State accessors *)

Definition with_trace (f : list event -> list event) (w : state) : state :=
  mkState (f (trace w)) (env w) (is_connected w) (serial_open w)
    (current_position w) (camera_cap w) (camera_opened w) (db_rows w)
    (total_processed w) (success_count w) (failed_count w).

Definition with_env (f : Env -> Env) (w : state) : state :=
  mkState (trace w) (f (env w)) (is_connected w) (serial_open w)
    (current_position w) (camera_cap w) (camera_opened w) (db_rows w)
    (total_processed w) (success_count w) (failed_count w).

Definition set_connection (connected open : bool) (w : state) : state :=
  mkState (trace w) (env w) connected open
    (current_position w) (camera_cap w) (camera_opened w) (db_rows w)
    (total_processed w) (success_count w) (failed_count w).

Definition set_current_position (p : option Position) (w : state) : state :=
  mkState (trace w) (env w) (is_connected w) (serial_open w)
    p (camera_cap w) (camera_opened w) (db_rows w)
    (total_processed w) (success_count w) (failed_count w).

Definition set_camera (cap opened : bool) (w : state) : state :=
  mkState (trace w) (env w) (is_connected w) (serial_open w)
    (current_position w) cap opened (db_rows w)
    (total_processed w) (success_count w) (failed_count w).

Definition set_db_rows (rows : list card_record) (w : state) : state :=
  mkState (trace w) (env w) (is_connected w) (serial_open w)
    (current_position w) (camera_cap w) (camera_opened w) rows
    (total_processed w) (success_count w) (failed_count w).

Definition set_counters (total ok ko : Z) (w : state) : state :=
  mkState (trace w) (env w) (is_connected w) (serial_open w)
    (current_position w) (camera_cap w) (camera_opened w) (db_rows w)
    total ok ko.

Definition get {A} (f : state -> A) : M A := fun w => (Ret (f w), w).
Definition modify (f : state -> state) : M unit := fun w => (Ret tt, f w).
Definition emit (e : event) : M unit := modify (with_trace (cons e)).

(** *** Reading the scripts *)

Definition pop_serial : M bool :=
  fun w =>
    match serial_script (env w) with
    | [] => (Ret true, w)
    | b :: rest =>
        (Ret b, with_env (fun e => mkEnv rest (lib_script e) (camera_script e)
                                     (ocr_script e) (operator_script e)) w)
    end.

Definition pop_lib : M bool :=
  fun w =>
    match lib_script (env w) with
    | [] => (Ret true, w)
    | b :: rest =>
        (Ret b, with_env (fun e => mkEnv (serial_script e) rest (camera_script e)
                                     (ocr_script e) (operator_script e)) w)
    end.

Definition pop_camera : M (option image) :=
  fun w =>
    match camera_script (env w) with
    | [] => (Ret None, w)
    | f :: rest =>
        (Ret f, with_env (fun e => mkEnv (serial_script e) (lib_script e) rest
                                     (ocr_script e) (operator_script e)) w)
    end.

Definition pop_ocr : M (option string * pynum) :=
  fun w =>
    match ocr_script (env w) with
    | [] => (Ret (None, zn 0), w)
    | r :: rest =>
        (Ret r, with_env (fun e => mkEnv (serial_script e) (lib_script e)
                                     (camera_script e) rest (operator_script e)) w)
    end.

(** A library call that reports failure by raising. *)
Definition lib_call : M unit :=
  ok <- pop_lib ;; if ok : bool then ret tt else raise LibraryError.

(** [time.sleep(d)]: a negative or NaN duration is a [ValueError], an
    infinite one an [OverflowError]. *)
Definition sleep (d : pynum) : M unit :=
  match d with
  | NaN => raise ValueError
  | NegInf => raise ValueError
  | PosInf => raise OverflowError
  | Fin q => if num_ltb d (zn 0) then raise ValueError else emit (EvSleep d)
  end.

(** [input(...)]: blocks until the operator acts. *)
Definition input : M unit :=
  emit EvInput ;;;
  fun w =>
    match operator_script (env w) with
    | [] => (Hang, w)
    | a :: rest =>
        let w' := with_env (fun e => mkEnv (serial_script e) (lib_script e)
                                       (camera_script e) (ocr_script e) rest) w in
        match a with
        | PressEnter => (Ret tt, w')
        | PressCtrlC => (Raise KeyboardInterrupt, w')
        | CloseStdin => (Raise EOFError, w')
        end
    end.

(** [d[k]] *)
Definition getitem (d : gmap string pynum) (k : string) : M pynum :=
  match d !! k with
  | Some v => ret v
  | None => raise (KeyError k)
  end.

(** ** modules/robot_arm.py *)

Record RobotArm : Type := mkRobotArm {
  positions : gmap string (gmap string pynum);
  motion_config : gmap string pynum;
  workspace_limits : option (gmap string pynum); (* safety_config['workspace_limits'] *)
  simulation_mode : bool
}.

Definition speed (r : RobotArm) : pynum :=
  default (zn 50) (motion_config r !! "speed").
Definition gripper_open_value (r : RobotArm) : pynum :=
  default (zn 100) (motion_config r !! "gripper_open_value").
Definition gripper_close_value (r : RobotArm) : pynum :=
  default (zn 0) (motion_config r !! "gripper_close_value").
Definition grip_delay (r : RobotArm) : pynum :=
  default (Fin (1 # 2)) (motion_config r !! "grip_delay").
Definition release_delay (r : RobotArm) : pynum :=
  default (Fin (3 # 10)) (motion_config r !! "release_delay").

(** [serial.Serial(...)] is taken with parameters it accepts: it opens the
    port or raises [SerialException], which [connect] turns into [False].
    (For a baud rate or a timeout that pyserial refuses it raises
    [ValueError] instead, which [connect] has no handler for; such a
    configuration is outside the model.) *)
Definition connect (r : RobotArm) : M bool :=
  if simulation_mode r then
    modify (fun w => set_connection true (serial_open w) w) ;;; ret true
  else
    ok <- pop_lib ;;
    if ok : bool then
      modify (set_connection true true) ;;;
      sleep (zn 2) ;;;
      ret true
    else ret false.

Definition disconnect (r : RobotArm) : M unit :=
  emit EvRobotDisconnect ;;;
  if simulation_mode r then
    modify (fun w => set_connection false (serial_open w) w)
  else
    open <- get serial_open ;;
    if open : bool then
      lib_call ;;;
      modify (set_connection false false)
    else ret tt.

Definition serial_write (d : wire) : M unit :=
  open <- get serial_open ;;
  if open : bool then
    ok <- pop_serial ;;
    if ok : bool then emit (EvSerialWrite d) else raise SerialException
  else raise SerialException.

Definition send_command (r : RobotArm) (c : command) : M bool :=
  emit (EvSendCommand c) ;;;
  if simulation_mode r then ret true
  else
    connected <- get is_connected ;;
    if negb connected then ret false
    else
      try_except_Exception
        (serial_write (WCommand c) ;;;
         serial_write WNewline ;;;
         sleep (Fin (1 # 10)) ;;;
         ret true)
        (fun _ => ret false).

Definition _check_workspace_limits (r : RobotArm) (x y z : pynum) : bool :=
  let limits := default ∅ (workspace_limits r) in
  let x_min := default (zn (-300)) (limits !! "x_min") in
  let x_max := default (zn 300) (limits !! "x_max") in
  let y_min := default (zn (-200)) (limits !! "y_min") in
  let y_max := default (zn 200) (limits !! "y_max") in
  let z_min := default (zn 0) (limits !! "z_min") in
  let z_max := default (zn 300) (limits !! "z_max") in
  if negb (num_leb x_min x && num_leb x x_max) then false
  else if negb (num_leb y_min y && num_leb y y_max) then false
  else if negb (num_leb z_min z && num_leb z z_max) then false
  else true.

Definition move_to_coordinates (r : RobotArm)
    (x y z rx ry rz : pynum) (wait : bool) : M bool :=
  if negb (_check_workspace_limits r x y z) then ret false
  else
    let command := G0 x y z rx ry rz (speed r) in
    success <- send_command r command ;;
    (if success && wait then sleep (zn 2) else ret tt) ;;;
    ret success.

Definition move_to_position (r : RobotArm) (position : Position)
    (wait : bool) : M bool :=
  match positions r !! Position_value position with
  | None => ret false
  | Some pos_config =>
      if bool_decide (pos_config = ∅) then ret false
      else
        x <- getitem pos_config "x" ;;
        y <- getitem pos_config "y" ;;
        z <- getitem pos_config "z" ;;
        move_to_coordinates r x y z
          (default (zn 0) (pos_config !! "rx"))
          (default (zn 0) (pos_config !! "ry"))
          (default (zn 0) (pos_config !! "rz"))
          wait
  end.

Definition open_gripper (r : RobotArm) : M bool :=
  let command := M3 (gripper_open_value r) in
  success <- send_command r command ;;
  (if success : bool then sleep (release_delay r) else ret tt) ;;;
  ret success.

Definition close_gripper (r : RobotArm) : M bool :=
  let command := M3 (gripper_close_value r) in
  success <- send_command r command ;;
  (if success : bool then sleep (grip_delay r) else ret tt) ;;;
  ret success.

Definition pick_card (r : RobotArm) : M bool :=
  moved <- move_to_position r CARD_PILE true ;;
  if negb moved then ret false
  else
    opened <- open_gripper r ;;
    if negb opened then ret false
    else
      sleep (Fin (1 # 2)) ;;;
      closed <- close_gripper r ;;
      if negb closed then ret false
      else
        sleep (Fin (1 # 2)) ;;;
        ret true.

Definition place_card (r : RobotArm) (success : bool) : M bool :=
  let position := if success then SUCCESS else FAILED in
  moved <- move_to_position r position true ;;
  if negb moved then ret false
  else
    sleep (Fin (1 # 2)) ;;;
    opened <- open_gripper r ;;
    if negb opened then ret false
    else
      sleep (Fin (1 # 2)) ;;;
      ret true.

Definition move_to_scan_position (r : RobotArm) : M bool :=
  move_to_position r SCAN true.

Definition home (r : RobotArm) : M bool :=
  success <- move_to_position r HOME true ;;
  (if success : bool then modify (set_current_position (Some HOME)) else ret tt) ;;;
  ret success.

Definition emergency_stop (r : RobotArm) : M unit :=
  if simulation_mode r then ret tt
  else send_command r M112 ;;; ret tt.

(** ** modules/ocr_recognition.py *)

(** [card_number_pattern] is the configured regular expression, held as the
    predicate that [re.match(pattern, text)] decides on a text. *)
Record OCRRecognizer : Type := mkOCR {
  confidence_threshold : pynum;
  card_number_pattern : string -> bool;
  max_retry : Z
}.

(** One run of the OCR engine: both back ends catch their own exceptions
    and answer [(None, 0.0)] instead. *)
Definition recognize : M (option string * pynum) :=
  emit EvRecognize ;;; pop_ocr.

Definition validate_card_number (o : OCRRecognizer) (text : option string) : bool :=
  match text with
  | None => false
  | Some "" => false
  | Some s => card_number_pattern o s
  end.

(** The body of [for attempt in range(attempts)], over the attempts left. *)
Fixpoint recognize_attempts (o : OCRRecognizer) (attempts : Z)
    (range : list Z) : M (option string * pynum * bool) :=
  match range with
  | [] => ret (None, zn 0, false)
  | attempt :: rest =>
      r <- recognize ;;
      let '(text, confidence) := r in
      if num_ltb confidence (confidence_threshold o) then
        if attempt <? attempts - 1 then recognize_attempts o attempts rest
        else ret (text, confidence, false)
      else if negb (validate_card_number o text) then
        if attempt <? attempts - 1 then recognize_attempts o attempts rest
        else ret (text, confidence, false)
      else ret (text, confidence, true)
  end.

Definition recognize_card_number (o : OCRRecognizer) (retry : bool)
    : M (option string * pynum * bool) :=
  let attempts := if retry then max_retry o else 1 in
  recognize_attempts o attempts (seqZ 0 attempts).

(** The default pattern [^[A-Z0-9\-]{5,15}$]; [$] also matches just before
    a final newline. *)
Definition card_char (a : Ascii.ascii) : bool :=
  let n := Ascii.nat_of_ascii a in
  ((65 <=? n) && (n <=? 90) || (48 <=? n) && (n <=? 57) || (n =? 45))%nat.

Fixpoint card_chars (s : string) : option nat :=
  match s with
  | EmptyString => Some O
  | String a EmptyString =>
      if card_char a then Some 1%nat
      else if (Ascii.nat_of_ascii a =? 10)%nat then Some O else None
  | String a rest =>
      if card_char a then S <$> card_chars rest else None
  end.

Definition default_card_number_pattern (s : string) : bool :=
  match card_chars s with
  | Some n => ((5 <=? n) && (n <=? 15))%nat
  | None => false
  end.

(** ** modules/camera.py, utils/image_processing.py *)

Definition camera_open : M bool :=
  opened <- get camera_opened ;;
  if opened : bool then ret true
  else
    modify (fun w => set_camera true (camera_opened w) w) ;;;
    ok <- pop_lib ;;
    if negb ok then ret false
    else modify (set_camera true true) ;;; ret true.

Definition camera_close : M unit :=
  emit EvCameraClose ;;;
  cap <- get camera_cap ;;
  if cap : bool then
    lib_call ;;;
    modify (fun w => set_camera (camera_cap w) false w)
  else ret tt.

(** The best of several frames, or [None] when no frame could be read. *)
Definition capture_multiple_frames : M (option image) :=
  emit EvCapture ;;; pop_camera.

(** [Camera.save_image]: writes the file and returns its path (the time
    stamp in the file name is left out). *)
Definition save_image (img : image) (prefix : string) : M string :=
  lib_call ;;; ret (prefix +:+ ".jpg").

Definition extract_roi (img : image) : M image :=
  lib_call ;;; ret img.

Definition preprocess (img : image) : M image :=
  lib_call ;;; ret img.

(** ** modules/database.py *)

(** [INSERT INTO cards ...]: the column [card_number] is declared
    [TEXT NOT NULL], so a missing card number is an [IntegrityError]. *)
Definition insert_card (number : option string) (conf : pynum)
    (path processed_path : option string) (st : string) : M unit :=
  match number with
  | None => raise IntegrityError
  | Some n =>
      lib_call ;;;
      rows <- get db_rows ;;
      modify (set_db_rows (rows ++ [mkCard n conf path processed_path st]))
  end.

Definition get_statistics : M unit := lib_call.

Definition database_close : M unit :=
  emit EvDatabaseClose ;;; lib_call.

(** ** main.py *)

Record CardSortingRobot : Type := mkCardSortingRobot {
  robot : RobotArm;
  ocr : OCRRecognizer;
  max_cards : Z;
  scan_interval : pynum;
  auto_resume : bool;
  stop_on_error : bool;
  stats_interval : Z;
  save_original : bool;
  save_processed : bool
}.

Definition print_statistics : M unit :=
  emit EvPrintStatistics ;;;
  total <- get total_processed ;;
  if total =? 0 then raise ZeroDivisionError
  else get_statistics.

Definition initialize_hardware (self : CardSortingRobot) : M bool :=
  opened <- camera_open ;;
  if negb opened then ret false
  else
    connected <- connect (robot self) ;;
    if negb connected then ret false
    else
      homed <- home (robot self) ;;
      if negb homed then ret false
      else ret true.

(** Where [process_single_card] leaves: one constructor for each [return]
    of the source, and [CycleRaised] for the [except Exception] handler. *)
Inductive cycle_exit : Type :=
| CycleDone
| PickFailed
| ScanFailed
| CaptureFailed
| PlaceFailed
| HomeFailed
| CycleRaised (e : exn).

Definition cycle_success (c : cycle_exit) : bool :=
  match c with
  | CycleDone => true
  | _ => false
  end.

(** The [try] block of [process_single_card]. *)
Definition process_single_card_try (self : CardSortingRobot) : M cycle_exit :=
    (picked <- pick_card (robot self) ;;
     if negb picked then ret PickFailed
     else
       at_scan <- move_to_scan_position (robot self) ;;
       if negb at_scan then ret ScanFailed
       else
         sleep (scan_interval self) ;;;
         captured <- capture_multiple_frames ;;
         match captured with
         | None => ret CaptureFailed
         | Some image =>
             original_path <-
               (if save_original self
                then p <- save_image image "original" ;; ret (Some p)
                else ret None) ;;
             roi_image <- extract_roi image ;;
             processed_image <- preprocess roi_image ;;
             processed_path <-
               (if save_processed self
                then p <- save_image processed_image "processed" ;; ret (Some p)
                else ret None) ;;
             r <- recognize_card_number (ocr self) true ;;
             let '(number, conf, recognition_success) := r in
             st <-
               (if recognition_success : bool then
                  modify (fun w => set_counters (total_processed w)
                                     (success_count w + 1) (failed_count w) w) ;;;
                  ret "success"
                else
                  modify (fun w => set_counters (total_processed w)
                                     (success_count w) (failed_count w + 1) w) ;;;
                  ret "failed") ;;
             insert_card number conf original_path processed_path st ;;;
             placed <- place_card (robot self) recognition_success ;;
             if negb placed then ret PlaceFailed
             else
               homed <- home (robot self) ;;
               if negb homed then ret HomeFailed
               else
                 modify (fun w => set_counters (total_processed w + 1)
                                    (success_count w) (failed_count w) w) ;;;
                 total <- get total_processed ;;
                 (if stats_interval self =? 0 then raise ZeroDivisionError
                  else if total mod stats_interval self =? 0
                       then print_statistics else ret tt) ;;;
                 ret CycleDone
         end).

Definition process_single_card_exit (self : CardSortingRobot) : M cycle_exit :=
  try_except_Exception
    (process_single_card_try self)
    (fun e => ret (CycleRaised e)).

Definition process_single_card (self : CardSortingRobot) : M bool :=
  c <- process_single_card_exit self ;; ret (cycle_success c).

Definition cleanup (self : CardSortingRobot) : M unit :=
  emit EvCleanup ;;;
  total <- get total_processed ;;
  (if 0 <? total then print_statistics else ret tt) ;;;
  camera_close ;;;
  disconnect (robot self) ;;;
  database_close.

(** What one pass through the body of [while True] decides. *)
Inductive iteration_exit : Type := LoopBreak | LoopContinue.

Definition run_iteration (self : CardSortingRobot) : M iteration_exit :=
  total <- get total_processed ;;
  if (0 <? max_cards self) && (max_cards self <=? total) then ret LoopBreak
  else
    success <- process_single_card self ;;
    if negb success then
      if stop_on_error self then ret LoopBreak
      else if auto_resume self then
        sleep (zn 2) ;;;
        ret LoopContinue
      else
        input ;;;
        ret LoopContinue
    else ret LoopContinue.

(** [while True: ...], run for at most [fuel] passes. *)
Fixpoint run_loop (self : CardSortingRobot) (fuel : nat) : M unit :=
  match fuel with
  | O => fun w => (OutOfFuel, w)
  | S n =>
      it <- run_iteration self ;;
      match it with
      | LoopBreak => ret tt
      | LoopContinue => run_loop self n
      end
  end.

Definition run (self : CardSortingRobot) (fuel : nat) : M unit :=
  ok <- initialize_hardware self ;;
  if negb ok then ret tt
  else
    try_finally
      (try_except_KeyboardInterrupt (run_loop self fuel) (ret tt))
      (cleanup self).

(** The bound a key of [workspace_limits] configures: [limits.get(key, fallback)]. *)
Definition limit (r : RobotArm) (key : string) (fallback : pynum) : pynum :=
  default fallback (default ∅ (workspace_limits r) !! key).

(** The pose is inside the configured envelope on all three axes. *)
Definition in_workspace (r : RobotArm) (x y z : pynum) : Prop :=
  within (limit r "x_min" (zn (-300))) (limit r "x_max" (zn 300)) x /\
  within (limit r "y_min" (zn (-200))) (limit r "y_max" (zn 200)) y /\
  within (limit r "z_min" (zn 0)) (limit r "z_max" (zn 300)) z.

(** *** Sample configurations *)

Definition pose (x y z rx ry rz : Z) : gmap string pynum :=
  <["x" := zn x]> (<["y" := zn y]> (<["z" := zn z]>
    (<["rx" := zn rx]> (<["ry" := zn ry]> (<["rz" := zn rz]> ∅))))).

(** The positions of the module's own self test. *)
Definition sample_positions : gmap string (gmap string pynum) :=
  <["home" := pose 0 150 200 0 0 0]>
  (<["card_pile" := pose 200 0 50 0 90 0]>
  (<["scan_position" := pose 0 (-150) 80 0 0 0]>
  (<["success_pile" := pose (-200) 0 50 0 90 0]>
  (<["failed_pile" := pose (-200) 100 50 0 90 0]> ∅)))).

Definition sample_limits : gmap string pynum :=
  <["x_min" := zn (-300)]> (<["x_max" := zn 300]>
  (<["y_min" := zn (-200)]> (<["y_max" := zn 200]>
  (<["z_min" := zn 0]> (<["z_max" := zn 300]> ∅))))).

Definition sample_arm : RobotArm :=
  mkRobotArm sample_positions ∅ (Some sample_limits) false.

Definition quiet_env : Env := mkEnv [] [] [] [] [].

(** A connected arm, an opened camera, an empty database. *)
Definition ready (e : Env) : state :=
  mkState [] e true true None true true [] 0 0 0.

Definition sample_ocr : OCRRecognizer :=
  mkOCR (Fin (6 # 10)) default_card_number_pattern 3.

(** The defaults of [main.py]: no card limit, resume after an error. *)
Definition sample_robot : CardSortingRobot :=
  mkCardSortingRobot sample_arm sample_ocr 0 (Fin (1 # 2)) true false 10 true true.

(** ** Vocabulary of the properties *)

(** An attempt passes the gate when its confidence is not below the
    threshold and its text has the card number format. *)
Definition attempt_passes (o : OCRRecognizer) (r : option string * pynum) : Prop :=
  num_ltb (snd r) (confidence_threshold o) = false /\
  validate_card_number o (fst r) = true.

Definition attempt_fails (o : OCRRecognizer) (r : option string * pynum) : Prop :=
  num_ltb (snd r) (confidence_threshold o) = true \/
  validate_card_number o (fst r) = false.

(** The run counters and the stored rows. *)
Definition books (w : state) : Z * Z * Z * list card_record :=
  (total_processed w, success_count w, failed_count w, db_rows w).

(** How often an event satisfying [p] occurs in a trace. *)
Definition occurrences (p : event -> bool) (t : list event) : nat :=
  length (filter (fun e => p e = true) t).

Definition is_cleanup (e : event) : bool :=
  match e with EvCleanup => true | _ => false end.

Definition is_transport (e : event) : bool :=
  match e with
  | EvSendCommand _ => true
  | EvSerialWrite _ => true
  | _ => false
  end.

(** A computation leaves the observation [f] of the state as it found it,
    however it ends. *)
Definition keeps {A X} (f : state -> X) (m : M A) : Prop :=
  forall w, f (snd (m w)) = f w.

(** An observation that looks at nothing the arm, the camera, the scripts
    or the trace (cleanup entries apart) can change. *)
Definition framed {X} (f : state -> X) : Prop :=
  (forall g w, f (with_env g w) = f w) /\
  (forall a b w, f (set_connection a b w) = f w) /\
  (forall p w, f (set_current_position p w) = f w) /\
  (forall a b w, f (set_camera a b w) = f w) /\
  (forall e w, is_cleanup e = false -> f (with_trace (cons e) w) = f w).

(** How often [cleanup] has been entered so far. *)
Definition cleanups (w : state) : nat := occurrences is_cleanup (trace w).

(** The loop of [run] is still below its card limit. *)
Definition below_max_cards (self : CardSortingRobot) (w : state) : Prop :=
  (0 <? max_cards self) && (max_cards self <=? total_processed w) = false.

(** Three readings that the gate turns down: a text too short for the
    pattern, no text at all, a well formed text read with low confidence. *)
Definition rejected_readings : list (option string * pynum) :=
  [(Some "ABC", Fin (9 # 10)); (None, zn 0); (Some "XYZ-12345", Fin (3 # 10))].

(** Two readings that are turned down, then one that passes. *)
Definition third_time_lucky : list (option string * pynum) :=
  [(Some "ABC", Fin (9 # 10)); (None, zn 0); (Some "ABC-123", Fin (75 # 100));
   (Some "LATER-1", Fin (99 # 100))].

Definition ocr_env (script : list (option string * pynum)) : Env :=
  mkEnv [] [] [] script [].

(** The arm before [connect], the camera before [open], nothing processed. *)
Definition fresh (e : Env) : state :=
  mkState [] e false false None false false [] 0 0 0.

(** One card whose frame is captured and whose number is read well. *)
Definition good_card_env (serial : list bool) : Env :=
  mkEnv serial [] [Some (Frame 0)] [(Some "ABC-123", Fin (75 # 100))] [].

(** The serial line carries the eight writes of picking a card and moving
    it to the scanner, and fails on the ninth: the move to the bin. *)
Definition place_fails_env : Env :=
  good_card_env [true; true; true; true; true; true; true; true; false].

(** One card on which the engine finds no text at all, three times. *)
Definition no_text_env : Env :=
  mkEnv [] [] [Some (Frame 0)] [(None, zn 0); (None, zn 0); (None, zn 0)] [].

(** One card whose text is read but is too short for the pattern. *)
Definition short_text_env : Env :=
  mkEnv [] [] [Some (Frame 0)]
    [(Some "ABC", Fin (9 # 10)); (Some "ABC", Fin (9 # 10));
     (Some "ABC", Fin (9 # 10))] [].

(** A command that moves the arm over one of the two bins of
    [sample_positions] (both lie at x = -200). *)
Definition moves_to_bin (e : event) : bool :=
  match e with
  | EvSendCommand (G0 (Fin x) _ _ _ _ _ _) => Qeq_bool x (inject_Z (-200))
  | _ => false
  end.


(** The sample configuration without a pose for the card pile. *)
Definition no_pile_arm : RobotArm :=
  mkRobotArm (delete "card_pile" sample_positions) ∅ (Some sample_limits) false.

Definition no_pile_robot : CardSortingRobot :=
  mkCardSortingRobot no_pile_arm sample_ocr 0 (Fin (1 # 2)) true false 10 true true.

(** The sample configuration without a pose for home. *)
Definition no_home_robot : CardSortingRobot :=
  mkCardSortingRobot
    (mkRobotArm (delete "home" sample_positions) ∅ (Some sample_limits) false)
    sample_ocr 0 (Fin (1 # 2)) true false 10 true true.

(** The sample configuration told to stop after one card. *)
Definition one_card_robot : CardSortingRobot :=
  mkCardSortingRobot sample_arm sample_ocr 1 (Fin (1 # 2)) true false 10 true true.

(** The sample configuration with [stop_on_error] set. *)
Definition strict_robot : CardSortingRobot :=
  mkCardSortingRobot sample_arm sample_ocr 0 (Fin (1 # 2)) true true 10 true true.

(** The steps of [cleanup], in the order of the source; the statistics are
    printed only when a card was processed. *)
Definition cleanup_steps (w : state) : list event :=
  EvCleanup ::
  (if 0 <? total_processed w then [EvPrintStatistics] else []) ++
  [EvCameraClose; EvRobotDisconnect; EvDatabaseClose].

(** What [cleanup] does at each entry of [cleanup_steps]: the announcement
    it starts with, then the four calls. *)
Definition cleanup_step (self : CardSortingRobot) (s : event) : M unit :=
  match s with
  | EvCleanup => emit EvCleanup
  | EvPrintStatistics => print_statistics
  | EvCameraClose => camera_close
  | EvRobotDisconnect => disconnect (robot self)
  | EvDatabaseClose => database_close
  | _ => ret tt
  end.

(** Steps taken in turn, each one only when the one before has returned. *)
Fixpoint steps_in_turn (self : CardSortingRobot) (steps : list event) : M unit :=
  match steps with
  | [] => ret tt
  | s :: rest => cleanup_step self s ;;; steps_in_turn self rest
  end.

(** The loop of [run] with its [except KeyboardInterrupt] handler. *)
Definition guarded_loop (self : CardSortingRobot) (fuel : nat) : M unit :=
  try_except_KeyboardInterrupt (run_loop self fuel) (ret tt).

(** The camera is released, then the serial port fails to close. *)
Definition port_stuck_env : Env := mkEnv [] [true; false] [] [] [].

(** The camera cannot be opened. *)
Definition no_camera_env : Env := mkEnv [] [false] [] [] [].

(** ** Vocabulary of the further properties *)

(** A result that a caller sees as a value, or as an exception that
    [except Exception] catches: not a block, not an interrupt. *)
Definition settled {A} (r : res A) : Prop :=
  match r with
  | Ret _ => True
  | Raise e => is_Exception e = true
  | Hang => False
  | OutOfFuel => False
  end.

Definition settles {A} (m : M A) : Prop := forall w, settled (fst (m w)).

(** The computation never raises and never blocks. *)
Definition returns {A} (m : M A) : Prop := forall w, exists a, fst (m w) = Ret a.

(** The computation only adds to the trace, and only events that [p] allows. *)
Definition emits {A} (p : event -> bool) (m : M A) : Prop :=
  forall w, exists evs,
    trace (snd (m w)) = evs ++ trace w /\ Forall (fun e => p e = true) evs.

(** A move command is within the limits of the arm [r]; other commands and
    events are no concern of the workspace guard. *)
Definition command_within (r : RobotArm) (c : command) : bool :=
  match c with
  | G0 x y z _ _ _ _ => _check_workspace_limits r x y z
  | _ => true
  end.

(** What the arm [r] may add to the trace: commands within its limits, and
    writes on the serial line only when it is not simulated. *)
Definition safe_event (r : RobotArm) (e : event) : bool :=
  match e with
  | EvSendCommand c => command_within r c
  | EvSerialWrite d =>
      negb (simulation_mode r) &&
      match d with
      | WCommand c => command_within r c
      | WNewline => true
      end
  | _ => true
  end.

(** The commands handed to [send_command] so far, oldest first. *)
Definition sent (w : state) : list command :=
  rev (omap (fun e => match e with EvSendCommand c => Some c | _ => None end)
         (trace w)).

Definition not_send (e : event) : bool :=
  match e with
  | EvSendCommand _ => false
  | _ => true
  end.

(** The move command that a label stands for: its configured pose (a missing
    rotation is 0) at the configured speed. *)
Definition pose_command (r : RobotArm) (p : Position) : option command :=
  pos ← positions r !! Position_value p;
  x ← pos !! "x";
  y ← pos !! "y";
  z ← pos !! "z";
  Some (G0 x y z
          (default (zn 0) (pos !! "rx"))
          (default (zn 0) (pos !! "ry"))
          (default (zn 0) (pos !! "rz"))
          (speed r)).

Definition execute_card_sorting_cycle (r : RobotArm)
    (recognition_success : bool) : M bool :=
  picked <- pick_card r ;;
  if negb picked then ret false
  else
    at_scan <- move_to_scan_position r ;;
    if negb at_scan then ret false
    else
      placed <- place_card r recognition_success ;;
      if negb placed then ret false
      else
        homed <- home r ;;
        if negb homed then ret false
        else ret true.

(** ** Texts *)

Definition newline : Ascii.ascii := Ascii.ascii_of_nat 10.

(** A card code: 5 to 15 characters, each an upper-case letter, a digit or
    a hyphen. *)
Definition card_code (body : string) : Prop :=
  Forall (fun a => card_char a = true) (String.list_ascii_of_string body) /\
  (5 <= String.length body <= 15)%nat.

(** The white space of [str.strip] and of [\s], for the characters below
    128: tab to carriage return, the four separators 28 to 31, the space. *)
Definition is_space (a : Ascii.ascii) : bool :=
  let n := Ascii.nat_of_ascii a in
  ((9 <=? n) && (n <=? 13) || (28 <=? n) && (n <=? 31) || (n =? 32))%nat.

Definition is_lower (a : Ascii.ascii) : bool :=
  let n := Ascii.nat_of_ascii a in ((97 <=? n) && (n <=? 122))%nat.

(** [str.upper] on one character below 128. *)
Definition to_upper (a : Ascii.ascii) : Ascii.ascii :=
  if is_lower a then Ascii.ascii_of_nat (Ascii.nat_of_ascii a - 32) else a.

Fixpoint lstrip (l : list Ascii.ascii) : list Ascii.ascii :=
  match l with
  | [] => []
  | a :: rest => if is_space a then lstrip rest else l
  end.

Definition rstrip (l : list Ascii.ascii) : list Ascii.ascii :=
  rev (lstrip (rev l)).

(** [text.strip()] *)
Definition strip (l : list Ascii.ascii) : list Ascii.ascii := rstrip (lstrip l).

(** [re.sub(r'\s+', '', text)]: every run of white space is deleted. *)
Definition remove_spaces (l : list Ascii.ascii) : list Ascii.ascii :=
  List.filter (fun a => negb (is_space a)) l.

(** [OCRRecognizer._clean_text], on a text of characters below 128 (where
    white space and upper case are what [is_space] and [to_upper] say). *)
Definition _clean_text (text : string) : string :=
  let text := strip (String.list_ascii_of_string text) in
  let text := remove_spaces text in
  let text := List.map to_upper text in
  String.string_of_list_ascii text.

Definition ascii_text (text : string) : Prop :=
  Forall (fun a => (Ascii.nat_of_ascii a < 128)%nat)
    (String.list_ascii_of_string text).

(** What one cycle may do to the books, however it ends: rows are only
    appended, at most one; the two recognition counters never go down and
    between them rise by at most one, and by one whenever a row is
    appended; [total_processed] rises by at most one, and only if the row
    was appended. *)
Definition ledger (w w' : state) : Prop :=
  exists new,
    db_rows w' = db_rows w ++ new /\
    success_count w <= success_count w' /\
    failed_count w <= failed_count w' /\
    Z.of_nat (length new) <=
      (success_count w' - success_count w) + (failed_count w' - failed_count w) /\
    (success_count w' - success_count w) + (failed_count w' - failed_count w) <= 1 /\
    total_processed w <= total_processed w' /\
    total_processed w' <= total_processed w + Z.of_nat (length new).

(** The state of the two devices: the arm's connection and the camera. *)
Definition links (w : state) : bool * bool * bool * bool :=
  (is_connected w, serial_open w, camera_cap w, camera_opened w).

(** The sample configuration with a home pose that lacks its x. *)
Definition no_x_robot : CardSortingRobot :=
  mkCardSortingRobot
    (mkRobotArm (<["home" := delete "x" (pose 0 150 200 0 0 0)]> sample_positions)
       ∅ (Some sample_limits) false)
    sample_ocr 0 (Fin (1 # 2)) true false 10 true true.

(** The sample configuration that waits for the operator after a failure. *)
Definition manual_robot : CardSortingRobot :=
  mkCardSortingRobot sample_arm sample_ocr 0 (Fin (1 # 2)) false false 10 true true.

(** The camera delivers no frame; the operator answers as given. *)
Definition no_frame_env (answers : list operator_action) : Env :=
  mkEnv [] [] [] [] answers.

(** ** utils/config_loader.py *)

(** A value loaded from the YAML file. *)
#[warnings="-register-all"]
Inductive yaml : Type :=
| YNone
| YBool (b : bool)
| YNum (n : pynum)
| YStr (s : string)
| YList (l : list yaml)
| YDict (d : gmap string yaml).

(** The separator of a configuration path. *)
Definition dot : Ascii.ascii := Ascii.ascii_of_nat 46.

(** [key.split('.')]: the pieces between the dots, empty pieces included. *)
Fixpoint split_dot (key : string) : list string :=
  match key with
  | EmptyString => [EmptyString]
  | String a rest =>
      if Ascii.eqb a dot then EmptyString :: split_dot rest
      else
        match split_dot rest with
        | piece :: pieces => String a piece :: pieces
        | [] => [String a EmptyString]
        end
  end.

(** The loop of [ConfigLoader.get] over the keys that are left. *)
Fixpoint config_walk (value : yaml) (keys : list string) (fallback : yaml) : yaml :=
  match keys with
  | [] => value
  | k :: rest =>
      match value with
      | YDict d =>
          match d !! k with
          | None => fallback
          | Some YNone => fallback
          | Some v => config_walk v rest fallback
          end
      | _ => fallback
      end
  end.

(** [ConfigLoader.get(key, default)] on the loaded configuration. *)
Definition config_get (config : yaml) (key : string) (fallback : yaml) : yaml :=
  config_walk config (split_dot key) fallback.

(** [key in config] *)
Definition config_contains (config : yaml) (key : string) : bool :=
  match config_get config key YNone with
  | YNone => false
  | _ => true
  end.

(** A key without a dot. *)
Definition plain_key (key : string) : Prop :=
  Forall (fun a => a <> dot) (String.list_ascii_of_string key).

(** ** utils/image_processing.py *)

(** An index of a slice on an axis of length [n], as Python normalises it:
    a negative index counts from the end, and both ends are clipped. *)
Definition slice_index (n i : Z) : Z :=
  if i <? 0 then Z.max 0 (i + n) else Z.min i n.

(** [l[start:stop]] *)
Definition py_slice {A : Type} (l : list A) (start stop : Z) : list A :=
  let n := Z.of_nat (length l) in
  let a := slice_index n start in
  let b := slice_index n stop in
  take (Z.to_nat (b - a)) (drop (Z.to_nat a) l).

Module ImageProcessor.

(** An image: [shape[1]] and the rows of pixels ([shape[0]] is their number). *)
Record ndarray (A : Type) : Type := mkImage {
  img_width : Z;
  img_rows : list (list A)
}.
Arguments mkImage {A} _ _.
Arguments img_width {A} _.
Arguments img_rows {A} _.

Definition img_height {A : Type} (img : ndarray A) : Z :=
  Z.of_nat (length (img_rows img)).

Definition pixel {A : Type} (img : ndarray A) (i j : Z) : option A :=
  row ← img_rows img !! Z.to_nat i; row !! Z.to_nat j.

(** Every row has [shape[1]] pixels. *)
Definition rectangular {A : Type} (img : ndarray A) : Prop :=
  0 <= img_width img /\
  Forall (fun row => Z.of_nat (length row) = img_width img) (img_rows img).

(** [ImageProcessor.extract_roi], from the integers that
    [int(roi['x'] * w)], [int(roi['y'] * h)], [int(roi['width'] * w)] and
    [int(roi['height'] * h)] give. *)
Definition extract_roi {A : Type} (img : ndarray A) (x0 y0 rw0 rh0 : Z) : ndarray A :=
  let h := img_height img in
  let w := img_width img in
  let x := Z.max 0 (Z.min x0 (w - 1)) in
  let y := Z.max 0 (Z.min y0 (h - 1)) in
  let roi_w := Z.min rw0 (w - x) in
  let roi_h := Z.min rh0 (h - y) in
  mkImage
    (Z.max 0 (slice_index w (x + roi_w) - slice_index w x))
    (map (fun row => py_slice row x (x + roi_w))
         (py_slice (img_rows img) y (y + roi_h))).

End ImageProcessor.

(** ** modules/camera.py: the choice among the frames *)

Module Camera.

(** How [capture_multiple_frames] ends. *)
Inductive outcome (A : Type) : Type :=
| Returned (frame : option A)
| RaisedValueError
| RaisedIndexError.
Arguments Returned {A} frame.
Arguments RaisedValueError {A}.
Arguments RaisedIndexError {A}.

(** The loop: what each round appends to [frames] and [scores], from what
    [capture_frame] gave in that round ([None], or a frame, with the
    variance of its Laplacian). *)
Fixpoint collect {A : Type} (shots : list (option (A * Q))) : list A * list Q :=
  match shots with
  | [] => ([], [])
  | None :: rest => collect rest
  | Some (frame, score) :: rest =>
      let (frames, scores) := collect rest in (frame :: frames, score :: scores)
  end.

(** [max] continued from the greatest so far: a later score takes its place
    only when it is greater. *)
Fixpoint py_max (best : Q) (scores : list Q) : Q :=
  match scores with
  | [] => best
  | s :: rest => if Qle_bool s best then py_max best rest else py_max s rest
  end.

(** [scores.index(m)]; [None] when no score equals [m]. *)
Fixpoint py_index (m : Q) (scores : list Q) : option nat :=
  match scores with
  | [] => None
  | s :: rest => if Qeq_bool s m then Some O else S <$> py_index m rest
  end.

(** [Camera.capture_multiple_frames], from what the rounds of its loop read. *)
Definition capture_multiple_frames {A : Type} (shots : list (option (A * Q)))
  : outcome A :=
  let (frames, scores) := collect shots in
  match frames with
  | [] => Returned None
  | _ :: _ =>
      match scores with
      | [] => RaisedValueError
      | s :: rest =>
          match py_index (py_max s rest) scores with
          | None => RaisedValueError
          | Some best_index =>
              match frames !! best_index with
              | None => RaisedIndexError
              | Some frame => Returned (Some frame)
              end
          end
      end
  end.

End Camera.

(** ** main.py: the command line *)

(** The options of the command line that [main] acts on. *)
Record Args : Type := mkArgs {
  num_cards : option Z;  (* -n *)
  simulation : bool      (* -s *)
}.

(** [robot.max_cards = n] *)
Definition set_max_cards (n : Z) (self : CardSortingRobot) : CardSortingRobot :=
  mkCardSortingRobot (robot self) (ocr self) n (scan_interval self)
    (auto_resume self) (stop_on_error self) (stats_interval self)
    (save_original self) (save_processed self).

(** [robot.robot.simulation_mode = True] *)
Definition set_simulation_mode (self : CardSortingRobot) : CardSortingRobot :=
  mkCardSortingRobot
    (mkRobotArm (positions (robot self)) (motion_config (robot self))
       (workspace_limits (robot self)) true)
    (ocr self) (max_cards self) (scan_interval self)
    (auto_resume self) (stop_on_error self) (stats_interval self)
    (save_original self) (save_processed self).

Definition apply_args (args : Args) (self : CardSortingRobot) : CardSortingRobot :=
  let self :=
    match num_cards args with
    | Some n => set_max_cards n self
    | None => self
    end in
  if simulation args then set_simulation_mode self else self.

(** [main], from the parsed command line and from what the constructor of
    [CardSortingRobot] did (it raised, or it built the robot).  The value is
    the exit status of the process: [sys.exit(1)] in the handler, 0 when
    [main] returns.  The state is the one in which the [try] statement of
    [main] is left: the destructors of the camera, the database and the
    arm, which the interpreter runs when the robot is released after that,
    are not part of it. *)
Definition main (args : Args) (built : exn + CardSortingRobot) (fuel : nat) : M Z :=
  try_except_Exception
    (match built with
     | inl e => raise e
     | inr self => run (apply_args args self) fuel ;;; ret 0
     end)
    (fun _ => ret 1).

(** The serial line refuses to open: the camera opens, [serial.Serial] raises. *)
Definition no_port_env : Env := mkEnv [] [true; false] [] [] [].

Definition is_write (e : event) : bool :=
  match e with
  | EvSerialWrite _ => true
  | _ => false
  end.

(** * Properties *)

(** ** The order on Python numbers *)

Lemma num_leb_le (a b : pynum) : num_leb a b = true <-> num_le a b.
Proof.
  split.
  - destruct a, b; simpl; intros H; try discriminate; try constructor.
    now apply Qle_bool_iff.
  - intros H. destruct H; simpl; try reflexivity.
    now apply Qle_bool_iff.
Qed.

Lemma within_leb (lo hi v : pynum) :
  num_leb lo v && num_leb v hi = true <-> within lo hi v.
Proof.
  unfold within. rewrite andb_true_iff, !num_leb_le. reflexivity.
Qed.

(** ** The workspace guard *)

Lemma check_workspace_limits_spec (r : RobotArm) (x y z : pynum) :
  _check_workspace_limits r x y z = true <-> in_workspace r x y z.
Proof.
  unfold _check_workspace_limits, in_workspace, limit.
  rewrite <- !within_leb.
  destruct (num_leb _ x && num_leb x _);
    destruct (num_leb _ y && num_leb y _);
    destruct (num_leb _ z && num_leb z _); simpl; intuition congruence.
Qed.

(** *** Running the primitive computations by hand *)

Ltac open_state w :=
  let t := fresh "t" in
  let ss := fresh "ss" in
  let ls := fresh "ls" in
  let cs := fresh "cs" in
  let os := fresh "os" in
  let ps := fresh "ps" in
  let conn := fresh "conn" in
  let port := fresh "port" in
  destruct w as [t [ss ls cs os ps] conn port ? ? ? ? ? ? ?].

Ltac run_prims :=
  cbv [bind ret raise get modify emit try_except_Exception
       try_except_KeyboardInterrupt try_finally
       pop_serial pop_lib pop_camera pop_ocr lib_call sleep input getitem
       serial_write with_trace with_env set_connection set_current_position
       set_camera set_db_rows set_counters is_Exception
       trace env is_connected serial_open current_position camera_cap
       camera_opened db_rows total_processed success_count failed_count
       serial_script lib_script camera_script ocr_script operator_script
       fst snd negb andb].

(** Entering [send_command] always leaves its mark on the trace. *)
Lemma send_command_traced (r : RobotArm) (c : command) (w : state) :
  exists later, trace (snd (send_command r c w)) = later ++ EvSendCommand c :: trace w.
Proof.
  open_state w. unfold send_command.
  destruct (simulation_mode r); [exists []; reflexivity|].
  run_prims.
  destruct conn; [|exists []; reflexivity].
  destruct port; [|exists []; reflexivity].
  destruct ss as [|[] [|[] rest]];
    first [ by exists [] | by eexists [_] | by eexists [_; _]
          | by eexists [_; _; _] ].
Qed.

(** What [send_command] answers does not depend on the command sent. *)
Lemma send_command_answer (r : RobotArm) (c c' : command) (w : state) :
  fst (send_command r c w) = fst (send_command r c' w).
Proof.
  open_state w. unfold send_command.
  destruct (simulation_mode r); [reflexivity|].
  run_prims.
  destruct conn; [|reflexivity].
  destruct port; [|reflexivity].
  destruct ss as [|[] [|[] rest]]; reflexivity.
Qed.

Lemma move_to_coordinates_answer (r : RobotArm)
    (x y z rx ry rz rx' ry' rz' : pynum) (wait : bool) (w : state) :
  fst (move_to_coordinates r x y z rx ry rz wait w) =
  fst (move_to_coordinates r x y z rx' ry' rz' wait w).
Proof.
  unfold move_to_coordinates.
  destruct (_check_workspace_limits r x y z); [|reflexivity].
  cbn [negb].
  open_state w. unfold send_command.
  destruct (simulation_mode r), wait; run_prims;
    try reflexivity;
    destruct conn; try reflexivity;
    destruct port; try reflexivity;
    destruct ss as [|[] [|[] rest]]; reflexivity.
Qed.

(** C1. A pose with a translational coordinate outside the configured
    workspace limits makes [move_to_coordinates] return [False] and leaves
    the whole machine as it was: [send_command] is not entered and nothing
    is written on the serial line (either would show in the trace). *)
Theorem move_to_coordinates_out_of_bounds (r : RobotArm)
    (x y z rx ry rz : pynum) (wait : bool) (w : state) :
  ~ within (limit r "x_min" (zn (-300))) (limit r "x_max" (zn 300)) x \/
  ~ within (limit r "y_min" (zn (-200))) (limit r "y_max" (zn 200)) y \/
  ~ within (limit r "z_min" (zn 0)) (limit r "z_max" (zn 300)) z ->
  move_to_coordinates r x y z rx ry rz wait w = (Ret false, w) /\
  occurrences is_transport (trace (snd (move_to_coordinates r x y z rx ry rz wait w)))
    = occurrences is_transport (trace w).
Proof.
  intros Hout.
  assert (Hcheck : _check_workspace_limits r x y z = false).
  { destruct (_check_workspace_limits r x y z) eqn:E; [|reflexivity].
    apply check_workspace_limits_spec in E. destruct E as (Hx & Hy & Hz).
    tauto. }
  unfold move_to_coordinates. rewrite Hcheck. split; reflexivity.
Qed.

Lemma move_to_coordinates_out_of_bounds_witness :
  ~ within (limit sample_arm "x_min" (zn (-300))) (limit sample_arm "x_max" (zn 300))
      (zn 301) /\
  move_to_coordinates sample_arm (zn 301) (zn 0) (zn 50) (zn 0) (zn 0) (zn 0) true
    (ready quiet_env) = (Ret false, ready quiet_env).
Proof.
  assert (H : ~ within (limit sample_arm "x_min" (zn (-300)))
                (limit sample_arm "x_max" (zn 300)) (zn 301)).
  { intros Hin. apply within_leb in Hin. vm_compute in Hin. discriminate. }
  split; [exact H|].
  apply (move_to_coordinates_out_of_bounds sample_arm (zn 301) (zn 0) (zn 50)
           (zn 0) (zn 0) (zn 0) true (ready quiet_env)).
  left. exact H.
Defined.

(** C2. [_check_workspace_limits] answers [True] exactly when x, y and z
    each lie in their configured closed interval (a missing bound falls back
    to its default); the rotations rx, ry, rz are no argument of the check
    and do not change what a move answers; with limits x in [-300,300],
    y in [-200,200], z in [0,300] the pose (301,0,50) is rejected and
    (300,0,50) is accepted. *)
Theorem check_workspace_limits_iff :
  (forall r x y z,
     _check_workspace_limits r x y z = true <->
     (within (limit r "x_min" (zn (-300))) (limit r "x_max" (zn 300)) x /\
      within (limit r "y_min" (zn (-200))) (limit r "y_max" (zn 200)) y /\
      within (limit r "z_min" (zn 0)) (limit r "z_max" (zn 300)) z)) /\
  (forall r x y z rx ry rz rx' ry' rz' wait w,
     fst (move_to_coordinates r x y z rx ry rz wait w) =
     fst (move_to_coordinates r x y z rx' ry' rz' wait w)) /\
  _check_workspace_limits sample_arm (zn 301) (zn 0) (zn 50) = false /\
  _check_workspace_limits sample_arm (zn 300) (zn 0) (zn 50) = true.
Proof.
  split; [|split; [|split]].
  - intros. apply check_workspace_limits_spec.
  - intros. apply move_to_coordinates_answer.
  - vm_compute. reflexivity.
  - vm_compute. reflexivity.
Qed.

(** ** The recognition gate *)

Lemma repeat_shift {A} (x : A) (n : nat) (l : list A) :
  repeat x n ++ x :: l = x :: repeat x n ++ l.
Proof. induction n as [|n IH]; simpl; [reflexivity|]. now rewrite IH. Qed.

(** One call of the engine takes the head of the script. *)
Lemma recognize_head (w : state) (r : option string * pynum)
    (rest : list (option string * pynum)) :
  ocr_script (env w) = r :: rest ->
  exists w1, recognize w = (Ret r, w1) /\
             ocr_script (env w1) = rest /\
             trace w1 = EvRecognize :: trace w.
Proof.
  open_state w. cbn [env ocr_script]. intros ->.
  eexists. split; [reflexivity|]. split; reflexivity.
Qed.

(** The engine always answers, and each run shows once in the trace. *)
Lemma recognize_total (w : state) :
  exists r w1, recognize w = (Ret r, w1) /\ trace w1 = EvRecognize :: trace w.
Proof.
  open_state w. unfold recognize. run_prims.
  destruct os as [|r os]; eexists; eexists; split; reflexivity.
Qed.

(** A failing attempt that is not the last one goes on to the next. *)
Lemma recognize_attempts_retry (o : OCRRecognizer) (attempts attempt : Z)
    (range : list Z) (w w1 : state) (r : option string * pynum) :
  recognize w = (Ret r, w1) ->
  attempt_fails o r ->
  attempt < attempts - 1 ->
  recognize_attempts o attempts (attempt :: range) w =
  recognize_attempts o attempts range w1.
Proof.
  intros Hrec Hfail Hlt. cbn [recognize_attempts]. unfold bind at 1.
  rewrite Hrec. destruct r as [text conf].
  assert (Hnext : (attempt <? attempts - 1) = true) by (apply Z.ltb_lt; lia).
  rewrite Hnext. destruct Hfail as [Hlow | Hbad]; cbn [fst snd] in *.
  - now rewrite Hlow.
  - rewrite Hbad. cbn [negb]. now destruct (num_ltb conf (confidence_threshold o)).
Qed.

(** A run of failing attempts, none of them the last, is skipped over. *)
Lemma recognize_attempts_skip (o : OCRRecognizer) (attempts : Z)
    (pre : list (option string * pynum)) :
  forall (i : Z) (range : list Z) (w : state) (rest : list (option string * pynum)),
    ocr_script (env w) = pre ++ rest ->
    Forall (attempt_fails o) pre ->
    i + Z.of_nat (length pre) <= attempts - 1 ->
    exists w1,
      recognize_attempts o attempts (seqZ i (Z.of_nat (length pre)) ++ range) w =
      recognize_attempts o attempts range w1 /\
      ocr_script (env w1) = rest /\
      trace w1 = repeat EvRecognize (length pre) ++ trace w.
Proof.
  induction pre as [|r pre IH]; intros i range w rest Hscript Hfails Hle.
  - exists w. simpl. auto.
  - inversion Hfails as [|? ? Hr Hpre]; subst.
    destruct (recognize_head w r (pre ++ rest) Hscript) as (w1 & Hrec & Hs1 & Ht1).
    cbn [length] in *.
    rewrite seqZ_cons by lia.
    replace (Z.pred (Z.of_nat (S (length pre)))) with (Z.of_nat (length pre)) by lia.
    rewrite <- app_comm_cons.
    rewrite (recognize_attempts_retry o attempts i _ w w1 r Hrec Hr) by lia.
    destruct (IH (Z.succ i) range w1 rest Hs1 Hpre) as (w2 & Hrun & Hs2 & Ht2);
      [lia|].
    exists w2. split; [exact Hrun|]. split; [exact Hs2|].
    rewrite Ht2, Ht1. cbn [repeat]. now rewrite repeat_shift.
Qed.

(** C4. With retry enabled and [max_retry >= 1], when every one of the
    [max_retry] attempts fails the confidence or the format check, the
    gate returns the text and the confidence of the last attempt with
    [False]; it has run the engine [max_retry] times. *)
Theorem exhausted_attempts_return_last (o : OCRRecognizer) (w : state)
    (pre : list (option string * pynum)) (text : option string) (conf : pynum)
    (rest : list (option string * pynum)) :
  1 <= max_retry o ->
  Z.of_nat (length pre) + 1 = max_retry o ->
  ocr_script (env w) = pre ++ (text, conf) :: rest ->
  Forall (attempt_fails o) pre ->
  attempt_fails o (text, conf) ->
  exists w',
    recognize_card_number o true w = (Ret (text, conf, false), w') /\
    ocr_script (env w') = rest /\
    trace w' = repeat EvRecognize (Z.to_nat (max_retry o)) ++ trace w.
Proof.
  intros Hpos Hlen Hscript Hpre Hlast.
  unfold recognize_card_number.
  replace (seqZ 0 (max_retry o))
    with (seqZ 0 (Z.of_nat (length pre)) ++ seqZ (0 + Z.of_nat (length pre)) 1)
    by (rewrite <- seqZ_app by lia; f_equal; lia).
  destruct (recognize_attempts_skip o (max_retry o) pre 0
              (seqZ (0 + Z.of_nat (length pre)) 1) w _ Hscript Hpre)
    as (w1 & Hrun & Hs1 & Ht1); [lia|].
  rewrite Hrun.
  destruct (recognize_head w1 _ _ Hs1) as (w2 & Hrec & Hs2 & Ht2).
  exists w2. split; [|split; [exact Hs2|]].
  - change (seqZ (0 + Z.of_nat (length pre)) 1) with [0 + Z.of_nat (length pre)].
    cbn [recognize_attempts]. unfold bind at 1. rewrite Hrec.
    assert (Hend : (0 + Z.of_nat (length pre) <? max_retry o - 1) = false)
      by (apply Z.ltb_ge; lia).
    rewrite Hend.
    destruct Hlast as [Hlow | Hbad]; cbn [fst snd] in *.
    + now rewrite Hlow.
    + rewrite Hbad. cbn [negb].
      now destruct (num_ltb conf (confidence_threshold o)).
  - rewrite Ht2, Ht1, <- Hlen.
    replace (Z.to_nat (Z.of_nat (length pre) + 1)) with (S (length pre)) by lia.
    reflexivity.
Qed.

Lemma exhausted_attempts_return_last_witness :
  exists w',
    recognize_card_number sample_ocr true (ready (ocr_env rejected_readings)) =
      (Ret (Some "XYZ-12345", Fin (3 # 10), false), w') /\
    ocr_script (env w') = [] /\
    trace w' = repeat EvRecognize 3 ++ [].
Proof.
  apply (exhausted_attempts_return_last sample_ocr
           (ready (ocr_env rejected_readings))
           [(Some "ABC", Fin (9 # 10)); (None, zn 0)]
           (Some "XYZ-12345") (Fin (3 # 10)) []).
  - vm_compute. discriminate.
  - reflexivity.
  - reflexivity.
  - constructor; [right; reflexivity|].
    constructor; [left; reflexivity|]. constructor.
  - left. reflexivity.
Defined.

(** C5. With retry enabled, when the first k-1 attempts fail and the k-th
    passes both checks, k <= [max_retry], the gate returns the k-th text
    and confidence with [True] after exactly k runs of the engine, leaving
    the later readings unread.  With retry disabled, whatever [max_retry]
    is and whatever the engine reads, the gate runs the engine exactly
    once and returns that reading, accepted exactly when it passes both
    checks. *)
Theorem first_passing_attempt_is_returned (o : OCRRecognizer) :
  (forall (w : state) (pre : list (option string * pynum))
          (text : option string) (conf : pynum)
          (rest : list (option string * pynum)),
     Z.of_nat (length pre) + 1 <= max_retry o ->
     ocr_script (env w) = pre ++ (text, conf) :: rest ->
     Forall (attempt_fails o) pre ->
     attempt_passes o (text, conf) ->
     exists w',
       recognize_card_number o true w = (Ret (text, conf, true), w') /\
       ocr_script (env w') = rest /\
       trace w' = repeat EvRecognize (S (length pre)) ++ trace w) /\
  (forall v : state, exists text conf v',
     recognize v = (Ret (text, conf), v') /\
     recognize_card_number o false v =
       (Ret (text, conf,
             negb (num_ltb conf (confidence_threshold o)) &&
             validate_card_number o text), v') /\
     trace v' = EvRecognize :: trace v).
Proof.
  split.
  - intros w pre text conf rest Hk Hscript Hpre [Hconf Hformat].
    cbn [fst snd] in *.
    unfold recognize_card_number.
    replace (seqZ 0 (max_retry o))
      with (seqZ 0 (Z.of_nat (length pre)) ++
            seqZ (0 + Z.of_nat (length pre)) (max_retry o - Z.of_nat (length pre)))
      by (rewrite <- seqZ_app by lia; f_equal; lia).
    destruct (recognize_attempts_skip o (max_retry o) pre 0
                (seqZ (0 + Z.of_nat (length pre))
                   (max_retry o - Z.of_nat (length pre))) w _ Hscript Hpre)
      as (w1 & Hrun & Hs1 & Ht1); [lia|].
    rewrite Hrun.
    destruct (recognize_head w1 _ _ Hs1) as (w2 & Hrec & Hs2 & Ht2).
    exists w2. split; [|split; [exact Hs2|]].
    + rewrite seqZ_cons by lia.
      cbn [recognize_attempts]. unfold bind at 1. rewrite Hrec.
      now rewrite Hconf, Hformat.
    + rewrite Ht2, Ht1. reflexivity.
  - intros v. unfold recognize_card_number.
    change (seqZ 0 1) with [0]. cbn [recognize_attempts].
    destruct (recognize_total v) as ([read c] & v1 & Hrec & Htrace).
    exists read, c, v1. split; [exact Hrec|]. split; [|exact Htrace].
    unfold bind. rewrite Hrec. change (0 <? 1 - 1) with false. cbv iota.
    destruct (num_ltb c (confidence_threshold o)); cbn [negb andb];
      [reflexivity|].
    destruct (validate_card_number o read); reflexivity.
Qed.

Lemma first_passing_attempt_is_returned_witness :
  exists w',
    recognize_card_number sample_ocr true (ready (ocr_env third_time_lucky)) =
      (Ret (Some "ABC-123", Fin (75 # 100), true), w') /\
    ocr_script (env w') = [(Some "LATER-1", Fin (99 # 100))] /\
    trace w' = repeat EvRecognize 3 ++ [].
Proof.
  apply (proj1 (first_passing_attempt_is_returned sample_ocr)
           (ready (ocr_env third_time_lucky))
           [(Some "ABC", Fin (9 # 10)); (None, zn 0)]
           (Some "ABC-123") (Fin (75 # 100)) [(Some "LATER-1", Fin (99 # 100))]).
  - vm_compute. discriminate.
  - reflexivity.
  - constructor; [right; reflexivity|].
    constructor; [left; reflexivity|]. constructor.
  - split; reflexivity.
Defined.

(** C10. With [max_retry = 0] and retry enabled the gate makes no attempt
    at all: the engine is not run, the machine is left as it was, and the
    answer is the empty fallback [(None, 0.0, False)]. *)
Theorem zero_retries_no_attempt (o : OCRRecognizer) (w : state) :
  max_retry o = 0 ->
  recognize_card_number o true w = (Ret (None, zn 0, false), w).
Proof.
  intros H0. unfold recognize_card_number. rewrite H0. reflexivity.
Qed.

Lemma zero_retries_no_attempt_witness :
  recognize_card_number (mkOCR (Fin (6 # 10)) default_card_number_pattern 0) true
    (ready (ocr_env third_time_lucky)) =
  (Ret (None, zn 0, false), ready (ocr_env third_time_lucky)).
Proof.
  apply (zero_retries_no_attempt
           (mkOCR (Fin (6 # 10)) default_card_number_pattern 0)
           (ready (ocr_env third_time_lucky))).
  reflexivity.
Defined.

(** ** What the collaborators leave untouched *)

Lemma keeps_ret {A X} (f : state -> X) (a : A) : keeps f (ret a).
Proof. intros w. reflexivity. Qed.

Lemma keeps_raise {A X} (f : state -> X) (e : exn) : keeps f (@raise A e).
Proof. intros w. reflexivity. Qed.

Lemma keeps_get {A X} (f : state -> X) (g : state -> A) : keeps f (get g).
Proof. intros w. reflexivity. Qed.

Lemma keeps_bind {A B X} (f : state -> X) (m : M A) (k : A -> M B) :
  keeps f m -> (forall a, keeps f (k a)) -> keeps f (bind m k).
Proof.
  intros Hm Hk w. unfold bind. specialize (Hm w).
  destruct (m w) as [[a|e| |] w1]; cbn [snd] in *; try exact Hm.
  rewrite (Hk a w1). exact Hm.
Qed.

Lemma keeps_try_except_Exception {A X} (f : state -> X) (m : M A) (h : exn -> M A) :
  keeps f m -> (forall e, keeps f (h e)) -> keeps f (try_except_Exception m h).
Proof.
  intros Hm Hh w. unfold try_except_Exception. specialize (Hm w).
  destruct (m w) as [[a|e| |] w1]; cbn [snd] in *; try exact Hm.
  destruct (is_Exception e); cbn [snd]; [|exact Hm].
  rewrite (Hh e w1). exact Hm.
Qed.

Lemma keeps_try_except_KeyboardInterrupt {A X} (f : state -> X) (m h : M A) :
  keeps f m -> keeps f h -> keeps f (try_except_KeyboardInterrupt m h).
Proof.
  intros Hm Hh w. unfold try_except_KeyboardInterrupt. specialize (Hm w).
  destruct (m w) as [[a|e| |] w1]; cbn [snd] in *; try exact Hm.
  destruct e; cbn [snd]; try exact Hm.
  rewrite (Hh w1). exact Hm.
Qed.

Lemma keeps_modify {X} (f : state -> X) (g : state -> state) :
  (forall w, f (g w) = f w) -> keeps f (modify g).
Proof. intros Hg w. apply Hg. Qed.

Create HintDb keeps.

#[export] Hint Resolve keeps_ret keeps_raise keeps_get : keeps.

(** Takes a computation apart along its binds, branches and handlers. *)
Ltac keeps_step :=
  match goal with
  | |- forall _, _ => intros ?; cbv beta
  | |- keeps _ (ret _) => apply keeps_ret
  | |- keeps _ (raise _) => apply keeps_raise
  | |- keeps _ (get _) => apply keeps_get
  | |- keeps _ (bind _ _) => apply keeps_bind; [|intros ?]
  | |- keeps _ (try_except_Exception _ _) =>
      apply keeps_try_except_Exception; [|intros ?]
  | |- keeps _ (try_except_KeyboardInterrupt _ _) =>
      apply keeps_try_except_KeyboardInterrupt
  | |- keeps _ (if ?b then _ else _) => destruct b
  | |- keeps _ (match ?x with _ => _ end) => destruct x
  | |- keeps _ (let x := _ in _) => cbv zeta
  | |- keeps _ _ => solve [eauto with keeps]
  end.

Ltac keeps_all := repeat keeps_step.

Section Framed.
Context {X : Type} (f : state -> X) (Hf : framed f).

Lemma keeps_emit (e : event) : is_cleanup e = false -> keeps f (emit e).
Proof. intros He w. destruct Hf as (_ & _ & _ & _ & H). now apply H. Qed.

Lemma keeps_with_env (g : Env -> Env) : keeps f (modify (with_env g)).
Proof. intros w. destruct Hf as (H & _). apply H. Qed.

Lemma keeps_pop_serial : keeps f pop_serial.
Proof.
  intros w. unfold pop_serial. destruct Hf as (H & _).
  destruct (serial_script (env w)); cbn [snd]; [reflexivity|apply H].
Qed.

Lemma keeps_pop_lib : keeps f pop_lib.
Proof.
  intros w. unfold pop_lib. destruct Hf as (H & _).
  destruct (lib_script (env w)); cbn [snd]; [reflexivity|apply H].
Qed.

Lemma keeps_pop_camera : keeps f pop_camera.
Proof.
  intros w. unfold pop_camera. destruct Hf as (H & _).
  destruct (camera_script (env w)); cbn [snd]; [reflexivity|apply H].
Qed.

Lemma keeps_pop_ocr : keeps f pop_ocr.
Proof.
  intros w. unfold pop_ocr. destruct Hf as (H & _).
  destruct (ocr_script (env w)); cbn [snd]; [reflexivity|apply H].
Qed.

Local Hint Resolve keeps_pop_serial keeps_pop_lib keeps_pop_camera
  keeps_pop_ocr : keeps.

Lemma keeps_lib_call : keeps f lib_call.
Proof. unfold lib_call. keeps_all. Qed.

Lemma keeps_sleep (d : pynum) : keeps f (sleep d).
Proof.
  unfold sleep. destruct d; try apply keeps_raise.
  destruct (num_ltb _ _); [apply keeps_raise|now apply keeps_emit].
Qed.

Lemma keeps_input : keeps f input.
Proof.
  unfold input. apply keeps_bind; [now apply keeps_emit|]. intros _ w.
  destruct Hf as (H & _).
  destruct (operator_script (env w)) as [|[] rest]; cbn [snd];
    [reflexivity|apply H..].
Qed.

Lemma keeps_getitem (d : gmap string pynum) (k : string) : keeps f (getitem d k).
Proof. unfold getitem. keeps_all. Qed.

Local Hint Resolve keeps_lib_call keeps_sleep keeps_input keeps_getitem : keeps.

Lemma keeps_set_connection (g : state -> bool) (h : state -> bool) :
  keeps f (modify (fun w => set_connection (g w) (h w) w)).
Proof. intros w. destruct Hf as (_ & H & _). apply H. Qed.

Lemma keeps_connect (r : RobotArm) : keeps f (connect r).
Proof.
  unfold connect. destruct (simulation_mode r).
  - apply keeps_bind; [|intros; apply keeps_ret].
    apply (keeps_set_connection (fun _ => true) serial_open).
  - keeps_all. apply (keeps_set_connection (fun _ => true) (fun _ => true)).
Qed.

Lemma keeps_disconnect (r : RobotArm) : keeps f (disconnect r).
Proof.
  unfold disconnect. apply keeps_bind; [now apply keeps_emit|]. intros _.
  destruct (simulation_mode r).
  - apply (keeps_set_connection (fun _ => false) serial_open).
  - keeps_all. apply (keeps_set_connection (fun _ => false) (fun _ => false)).
Qed.

Lemma keeps_serial_write (d : wire) : keeps f (serial_write d).
Proof. unfold serial_write. keeps_all. now apply keeps_emit. Qed.

Local Hint Resolve keeps_serial_write : keeps.

Lemma keeps_send_command (r : RobotArm) (c : command) : keeps f (send_command r c).
Proof.
  unfold send_command. apply keeps_bind; [now apply keeps_emit|]. intros _.
  keeps_all.
Qed.

Local Hint Resolve keeps_send_command : keeps.

Lemma keeps_move_to_coordinates (r : RobotArm) (x y z rx ry rz : pynum)
    (wait : bool) :
  keeps f (move_to_coordinates r x y z rx ry rz wait).
Proof. unfold move_to_coordinates. keeps_all. Qed.

Local Hint Resolve keeps_move_to_coordinates : keeps.

Lemma keeps_move_to_position (r : RobotArm) (p : Position) (wait : bool) :
  keeps f (move_to_position r p wait).
Proof. unfold move_to_position. keeps_all. Qed.

Lemma keeps_open_gripper (r : RobotArm) : keeps f (open_gripper r).
Proof. unfold open_gripper. keeps_all. Qed.

Lemma keeps_close_gripper (r : RobotArm) : keeps f (close_gripper r).
Proof. unfold close_gripper. keeps_all. Qed.

Local Hint Resolve keeps_move_to_position keeps_open_gripper
  keeps_close_gripper : keeps.

Lemma keeps_pick_card (r : RobotArm) : keeps f (pick_card r).
Proof. unfold pick_card. keeps_all. Qed.

Lemma keeps_place_card (r : RobotArm) (success : bool) :
  keeps f (place_card r success).
Proof. unfold place_card. keeps_all. Qed.

Lemma keeps_move_to_scan_position (r : RobotArm) :
  keeps f (move_to_scan_position r).
Proof. unfold move_to_scan_position. keeps_all. Qed.

Lemma keeps_home (r : RobotArm) : keeps f (home r).
Proof.
  unfold home. keeps_all. apply keeps_modify.
  destruct Hf as (_ & _ & H & _). apply H.
Qed.

Lemma keeps_recognize : keeps f recognize.
Proof. unfold recognize. apply keeps_bind; [now apply keeps_emit|]. keeps_all. Qed.

Local Hint Resolve keeps_recognize : keeps.

Lemma keeps_recognize_attempts (o : OCRRecognizer) (attempts : Z) (range : list Z) :
  keeps f (recognize_attempts o attempts range).
Proof.
  induction range as [|attempt rest IH]; cbn [recognize_attempts].
  - apply keeps_ret.
  - apply keeps_bind; [apply keeps_recognize|]. intros [text conf].
    keeps_all; exact IH.
Qed.

Lemma keeps_recognize_card_number (o : OCRRecognizer) (retry : bool) :
  keeps f (recognize_card_number o retry).
Proof. apply keeps_recognize_attempts. Qed.

Lemma keeps_camera_open : keeps f camera_open.
Proof.
  unfold camera_open. keeps_all; apply keeps_modify; intros w;
    destruct Hf as (_ & _ & _ & H & _); apply H.
Qed.

Lemma keeps_camera_close : keeps f camera_close.
Proof.
  unfold camera_close. apply keeps_bind; [now apply keeps_emit|]. intros _.
  keeps_all. apply keeps_modify; intros w.
  destruct Hf as (_ & _ & _ & H & _). apply H.
Qed.

Lemma keeps_capture_multiple_frames : keeps f capture_multiple_frames.
Proof.
  unfold capture_multiple_frames.
  apply keeps_bind; [now apply keeps_emit|]. keeps_all.
Qed.

Lemma keeps_save_image (img : image) (prefix : string) :
  keeps f (save_image img prefix).
Proof. unfold save_image. keeps_all. Qed.

Lemma keeps_extract_roi (img : image) : keeps f (extract_roi img).
Proof. unfold extract_roi. keeps_all. Qed.

Lemma keeps_preprocess (img : image) : keeps f (preprocess img).
Proof. unfold preprocess. keeps_all. Qed.

Lemma keeps_print_statistics : keeps f print_statistics.
Proof.
  unfold print_statistics, get_statistics.
  apply keeps_bind; [now apply keeps_emit|]. keeps_all.
Qed.

Lemma keeps_database_close : keeps f database_close.
Proof.
  unfold database_close. apply keeps_bind; [now apply keeps_emit|]. keeps_all.
Qed.

Lemma keeps_initialize_hardware (self : CardSortingRobot) :
  keeps f (initialize_hardware self).
Proof.
  unfold initialize_hardware.
  apply keeps_bind; [apply keeps_camera_open|]. intros opened.
  destruct (negb opened); [apply keeps_ret|].
  apply keeps_bind; [apply keeps_connect|]. intros connected.
  destruct (negb connected); [apply keeps_ret|].
  apply keeps_bind; [apply keeps_home|]. keeps_all.
Qed.
End Framed.

#[export] Hint Resolve keeps_lib_call keeps_sleep keeps_input keeps_getitem
  keeps_connect keeps_disconnect keeps_send_command keeps_move_to_coordinates
  keeps_move_to_position keeps_open_gripper keeps_close_gripper keeps_pick_card
  keeps_place_card keeps_move_to_scan_position keeps_home keeps_recognize
  keeps_recognize_card_number keeps_camera_open keeps_camera_close
  keeps_capture_multiple_frames keeps_save_image keeps_extract_roi
  keeps_preprocess keeps_print_statistics keeps_database_close
  keeps_initialize_hardware : keeps.

Lemma framed_books : framed books.
Proof. repeat split; intros; reflexivity. Qed.

Lemma framed_cleanups : framed cleanups.
Proof.
  repeat split; intros; try reflexivity.
  unfold cleanups, occurrences, with_trace. cbn [trace filter].
  destruct (decide (is_cleanup e = true)) as [Heq|Hne]; [congruence|].
  unfold filter. cbn. now rewrite decide_False by exact Hne.
Qed.

#[export] Hint Resolve framed_books framed_cleanups : keeps.

(** ** One cycle *)

(** Runs the first computation of the bind in [H], which keeps the books. *)
Tactic Notation "step" hyp(H) "as" ident(a) :=
  match type of H with
  | bind ?m ?k ?w = _ =>
      let E := fresh "E" in
      let K := fresh "K" in
      assert (K : keeps books m) by keeps_all;
      specialize (K w);
      unfold bind at 1 in H;
      destruct (m w) as [[a|?| |] ?] eqn:E;
      cbn [snd] in K; cbv beta iota in H;
      [|injection H as <- <-; exact I ..]
  end.

Ltac open_books :=
  unfold books in *;
  cbn [total_processed success_count failed_count db_rows
       set_counters set_db_rows] in *;
  repeat match goal with
         | K : (_, _, _, _) = (_, _, _, _) |- _ => injection K as ? ? ? ?
         end.


(** Step 6 of the cycle: exactly one of the two counters goes up. *)
Lemma count_recognition (ok : bool) (w : state) :
  (if ok
   then modify (fun w => set_counters (total_processed w)
                           (success_count w + 1) (failed_count w) w) ;;;
        ret "success"
   else modify (fun w => set_counters (total_processed w)
                           (success_count w) (failed_count w + 1) w) ;;;
        ret "failed") w =
  (Ret (if ok then "success" else "failed"),
   if ok
   then set_counters (total_processed w) (success_count w + 1) (failed_count w) w
   else set_counters (total_processed w) (success_count w) (failed_count w + 1) w).
Proof. destruct ok; reflexivity. Qed.

(** Step 7 of the cycle: a card number that is present is appended as a row,
    unless sqlite fails. *)
Lemma insert_card_some (n : string) (conf : pynum) (p q : option string)
    (st : string) (w : state) :
  insert_card (Some n) conf p q st w =
  match lib_call w with
  | (Ret _, w1) => (Ret tt, set_db_rows (db_rows w1 ++ [mkCard n conf p q st]) w1)
  | (Raise e, w1) => (Raise e, w1)
  | (Hang, w1) => (Hang, w1)
  | (OutOfFuel, w1) => (OutOfFuel, w1)
  end.
Proof.
  unfold insert_card. unfold bind at 1.
  destruct (lib_call w) as [[[]|e| |] w1]; reflexivity.
Qed.


Lemma process_single_card_of_exit (self : CardSortingRobot) (w w' : state)
    (c : cycle_exit) :
  process_single_card_exit self w = (Ret c, w') ->
  process_single_card self w = (Ret (cycle_success c), w').
Proof. intros H. unfold process_single_card, bind. now rewrite H. Qed.




(** C3, on the code.  The engine finds no text on the card, so the gate
    answers [(None, 0.0, False)]: a reject.  The cycle counts it, then
    [insert_card] hits the [NOT NULL] column and raises; the handler turns
    that into [False].  No row is stored and no command moves the arm to a
    bin.  When the reject comes with a text (here one too short for the
    pattern) the same cycle returns [True], stores a row with status
    [failed] and moves the card to a bin. *)
Theorem reject_without_text_fails_the_cycle :
  let w := ready no_text_env in
  let w' := snd (process_single_card sample_robot w) in
  let v := ready short_text_env in
  let v' := snd (process_single_card sample_robot v) in
  fst (recognize_card_number sample_ocr true w) = Ret (None, zn 0, false) /\
  process_single_card_exit sample_robot w = (Ret (CycleRaised IntegrityError), w') /\
  process_single_card sample_robot w = (Ret false, w') /\
  failed_count w' = 1 /\ db_rows w' = [] /\
  occurrences moves_to_bin (trace w') = 0%nat /\
  process_single_card sample_robot v = (Ret true, v') /\
  failed_count v' = 1 /\
  db_rows v' = [mkCard "ABC" (Fin (9 # 10)) (Some "original.jpg")
                  (Some "processed.jpg") "failed"] /\
  occurrences moves_to_bin (trace v') = 1%nat.
Proof.
  vm_compute. repeat split; reflexivity.
Qed.

(** ** The run loop *)

Lemma run_iteration_failed (self : CardSortingRobot) (w w1 : state) :
  below_max_cards self w ->
  process_single_card self w = (Ret false, w1) ->
  run_iteration self w =
  (if stop_on_error self then ret LoopBreak
   else if auto_resume self then sleep (zn 2) ;;; ret LoopContinue
   else input ;;; ret LoopContinue) w1.
Proof.
  intros Hbelow Hfail. unfold run_iteration, below_max_cards in *.
  unfold bind at 1. unfold get at 1. rewrite Hbelow.
  unfold bind at 1. rewrite Hfail. reflexivity.
Qed.

Lemma run_loop_failed (self : CardSortingRobot) (w w1 : state) (n : nat) :
  below_max_cards self w ->
  process_single_card self w = (Ret false, w1) ->
  run_loop self (S n) w =
  (it <- (if stop_on_error self then ret LoopBreak
          else if auto_resume self then sleep (zn 2) ;;; ret LoopContinue
          else input ;;; ret LoopContinue) ;;
   match it with
   | LoopBreak => ret tt
   | LoopContinue => run_loop self n
   end) w1.
Proof.
  intros Hbelow Hfail. cbn [run_loop]. unfold bind at 1.
  rewrite (run_iteration_failed self w w1 Hbelow Hfail). reflexivity.
Qed.

(** C6. After a failed cycle (the card limit not being reached) the loop
    looks at [stop_on_error] first: when set, the loop ends there and then,
    whatever [auto_resume] says, with nothing more done.  Otherwise, with
    [auto_resume] set, it sleeps two seconds and goes on with the next
    pass.  Otherwise it reaches [input()]: it blocks for as long as nobody
    answers, and goes on with the next pass once Enter is pressed. *)
Theorem failed_cycle_policy (self : CardSortingRobot) (w w1 : state) (n : nat) :
  below_max_cards self w ->
  process_single_card self w = (Ret false, w1) ->
  (stop_on_error self = true ->
     run_loop self (S n) w = (Ret tt, w1)) /\
  (stop_on_error self = false -> auto_resume self = true ->
     run_loop self (S n) w =
     run_loop self n (with_trace (cons (EvSleep (zn 2))) w1)) /\
  (stop_on_error self = false -> auto_resume self = false ->
     (operator_script (env w1) = [] ->
        exists w2, run_loop self (S n) w = (Hang, w2) /\
                   trace w2 = EvInput :: trace w1) /\
     (forall rest, operator_script (env w1) = PressEnter :: rest ->
        exists w2, run_loop self (S n) w = run_loop self n w2 /\
                   trace w2 = EvInput :: trace w1 /\
                   operator_script (env w2) = rest /\
                   books w2 = books w1)).
Proof.
  intros Hbelow Hfail.
  rewrite (run_loop_failed self w w1 n Hbelow Hfail).
  split; [|split].
  - intros ->. reflexivity.
  - intros -> ->. reflexivity.
  - intros -> ->. split.
    + intros Hnobody. open_state w1. cbn [env operator_script] in Hnobody.
      subst. eexists. split; reflexivity.
    + intros rest Henter. open_state w1. cbn [env operator_script] in Henter.
      subst. eexists. split; [reflexivity|]. repeat split.
Qed.

Lemma failed_cycle_policy_witness :
  let w := ready place_fails_env in
  let w1 := snd (process_single_card strict_robot w) in
  below_max_cards strict_robot w /\
  process_single_card strict_robot w = (Ret false, w1) /\
  run_loop strict_robot 1 w = (Ret tt, w1).
Proof.
  intros w w1.
  assert (Hbelow : below_max_cards strict_robot w) by reflexivity.
  assert (Hfail : process_single_card strict_robot w = (Ret false, w1))
    by (vm_compute; reflexivity).
  split; [exact Hbelow|]. split; [exact Hfail|].
  apply (failed_cycle_policy strict_robot w w1 0 Hbelow Hfail).
  reflexivity.
Defined.

(** ** Named positions without a pose *)












(** Without a pose for the card pile the run is still looping after three
    passes: no command was sent after the homing, no cleanup was entered. *)
Example missing_pile_keeps_looping :
  fst (run no_pile_robot 3 (fresh quiet_env)) = OutOfFuel /\
  occurrences is_transport (trace (snd (run no_pile_robot 3 (fresh quiet_env))))
    = occurrences is_transport
        (trace (snd (initialize_hardware no_pile_robot (fresh quiet_env)))) /\
  cleanups (snd (run no_pile_robot 3 (fresh quiet_env))) = 0%nat.
Proof. vm_compute. repeat split; reflexivity. Qed.

(** Without a pose for home the run is over before the first pass, whatever
    the fuel. *)
Example missing_home_never_loops :
  fst (initialize_hardware no_home_robot (fresh quiet_env)) = Ret false /\
  run no_home_robot 3 (fresh quiet_env) =
    (Ret tt, snd (initialize_hardware no_home_robot (fresh quiet_env))).
Proof. vm_compute. split; reflexivity. Qed.

(** ** Shutdown *)

Lemma keeps_cleanups_modify (g : state -> state) :
  (forall w, trace (g w) = trace w) -> keeps cleanups (modify g).
Proof. intros Hg w. unfold cleanups. cbn. now rewrite Hg. Qed.

Lemma keeps_cleanups_insert_card (number : option string) (conf : pynum)
    (p q : option string) (st : string) :
  keeps cleanups (insert_card number conf p q st).
Proof.
  unfold insert_card. keeps_all. now apply keeps_cleanups_modify.
Qed.

#[export] Hint Resolve keeps_cleanups_insert_card : keeps.

Lemma keeps_cleanups_process_single_card (self : CardSortingRobot) :
  keeps cleanups (process_single_card self).
Proof.
  unfold process_single_card, process_single_card_exit, process_single_card_try.
  keeps_all; now apply keeps_cleanups_modify.
Qed.

#[export] Hint Resolve keeps_cleanups_process_single_card : keeps.

Lemma keeps_cleanups_run_iteration (self : CardSortingRobot) :
  keeps cleanups (run_iteration self).
Proof. unfold run_iteration. keeps_all. Qed.

Lemma keeps_cleanups_run_loop (self : CardSortingRobot) (fuel : nat) :
  keeps cleanups (run_loop self fuel).
Proof.
  induction fuel as [|n IH]; cbn [run_loop].
  - intros w. reflexivity.
  - apply keeps_bind; [apply keeps_cleanups_run_iteration|].
    intros []; [apply keeps_ret|exact IH].
Qed.

(** Each call of [cleanup] is entered once, however it ends. *)
Lemma cleanup_counts (self : CardSortingRobot) (w : state) :
  cleanups (snd (cleanup self w)) = S (cleanups w).
Proof.
  unfold cleanup. unfold bind at 1. unfold emit at 1, modify at 1.
  match goal with
  | |- cleanups (snd (?m ?v)) = _ =>
      assert (K : keeps cleanups m) by keeps_all; rewrite (K v)
  end.
  reflexivity.
Qed.

(** Each step of the shutdown shows exactly once in the trace, whether it
    returns or raises. *)
Lemma print_statistics_trace (w : state) :
  trace (snd (print_statistics w)) = EvPrintStatistics :: trace w.
Proof.
  open_state w. unfold print_statistics, get_statistics. run_prims.
  destruct (total_processed0 =? 0); [reflexivity|].
  destruct ls as [|[] ls]; reflexivity.
Qed.

Lemma camera_close_trace (w : state) :
  trace (snd (camera_close w)) = EvCameraClose :: trace w.
Proof.
  open_state w. unfold camera_close. run_prims.
  destruct camera_cap0; [|reflexivity].
  destruct ls as [|[] ls]; reflexivity.
Qed.

Lemma disconnect_trace (r : RobotArm) (w : state) :
  trace (snd (disconnect r w)) = EvRobotDisconnect :: trace w.
Proof.
  open_state w. unfold disconnect.
  destruct (simulation_mode r); run_prims; [reflexivity|].
  destruct port; [|reflexivity].
  destruct ls as [|[] ls]; reflexivity.
Qed.

Lemma database_close_trace (w : state) :
  trace (snd (database_close w)) = EvDatabaseClose :: trace w.
Proof.
  open_state w. unfold database_close. run_prims.
  destruct ls as [|[] ls]; reflexivity.
Qed.

(** Runs the first computation of the bind in [E]; a step that does not
    return ends the computation there. *)
Ltac advance E T lem v :=
  match type of E with
  | bind ?m ?k ?w = _ =>
      pose proof (lem w) as T;
      unfold bind at 1 in E;
      destruct (m w) as [[[]|?| |] v]; cbn [snd] in T; cbv beta iota in E
  end.

Lemma cleanup_in_order (self : CardSortingRobot) (w : state) :
  exists done rest,
    cleanup_steps w = done ++ rest /\
    trace (snd (cleanup self w)) = rev done ++ trace w /\
    (fst (cleanup self w) = Ret tt -> rest = []).
Proof.
  destruct (cleanup self w) as [r w'] eqn:E. cbn [fst snd].
  unfold cleanup, cleanup_steps in *.
  unfold bind at 1 in E. unfold emit at 1, modify at 1 in E.
  unfold bind at 1 in E. unfold get at 1 in E.
  set (w1 := with_trace (cons EvCleanup) w) in E.
  change (total_processed w1) with (total_processed w) in E.
  assert (T1 : trace w1 = EvCleanup :: trace w) by reflexivity.
  clearbody w1.
  destruct (0 <? total_processed w).
  - advance E T2 print_statistics_trace w2;
      try (injection E as <- <-;
           exists [EvCleanup; EvPrintStatistics],
             [EvCameraClose; EvRobotDisconnect; EvDatabaseClose];
           rewrite T2, T1; repeat split; discriminate).
    advance E T3 camera_close_trace w3;
      try (injection E as <- <-;
           exists [EvCleanup; EvPrintStatistics; EvCameraClose],
             [EvRobotDisconnect; EvDatabaseClose];
           rewrite T3, T2, T1; repeat split; discriminate).
    advance E T4 (disconnect_trace (robot self)) w4;
      try (injection E as <- <-;
           exists [EvCleanup; EvPrintStatistics; EvCameraClose; EvRobotDisconnect],
             [EvDatabaseClose];
           rewrite T4, T3, T2, T1; repeat split; discriminate).
    pose proof (database_close_trace w4) as T5. rewrite E in T5. cbn [snd] in T5.
    exists [EvCleanup; EvPrintStatistics; EvCameraClose; EvRobotDisconnect;
            EvDatabaseClose], [].
    rewrite T5, T4, T3, T2, T1. repeat split.
  - unfold bind at 1 in E. unfold ret at 1 in E.
    advance E T3 camera_close_trace w3;
      try (injection E as <- <-;
           exists [EvCleanup; EvCameraClose],
             [EvRobotDisconnect; EvDatabaseClose];
           rewrite T3, T1; repeat split; discriminate).
    advance E T4 (disconnect_trace (robot self)) w4;
      try (injection E as <- <-;
           exists [EvCleanup; EvCameraClose; EvRobotDisconnect],
             [EvDatabaseClose];
           rewrite T4, T3, T1; repeat split; discriminate).
    pose proof (database_close_trace w4) as T5. rewrite E in T5. cbn [snd] in T5.
    exists [EvCleanup; EvCameraClose; EvRobotDisconnect; EvDatabaseClose], [].
    rewrite T5, T4, T3, T1. repeat split.
Qed.

(** Once the hardware is initialised, a run that has ended has entered
    [cleanup] exactly once, and no run enters it twice. *)
Lemma run_cleanup_once (self : CardSortingRobot) (fuel : nat)
    (w w0 w' : state) (r : res unit) :
  initialize_hardware self w = (Ret true, w0) ->
  run self fuel w = (r, w') ->
  (r <> OutOfFuel -> r <> Hang -> cleanups w' = S (cleanups w)) /\
  (cleanups w' <= S (cleanups w))%nat.
Proof.
  intros Hinit Hrun.
  pose proof (keeps_initialize_hardware cleanups framed_cleanups self w) as K0.
  rewrite Hinit in K0. cbn [snd] in K0.
  unfold run in Hrun. unfold bind at 1 in Hrun. rewrite Hinit in Hrun.
  cbn [negb] in Hrun. unfold try_finally in Hrun.
  assert (K1 : keeps cleanups
                 (try_except_KeyboardInterrupt (run_loop self fuel) (ret tt))).
  { apply keeps_try_except_KeyboardInterrupt;
      [apply keeps_cleanups_run_loop|apply keeps_ret]. }
  specialize (K1 w0).
  destruct (try_except_KeyboardInterrupt (run_loop self fuel) (ret tt) w0)
    as [r1 w1].
  cbn [snd] in K1.
  pose proof (cleanup_counts self w1) as K2.
  destruct r1 as [[]|e| |].
  - destruct (cleanup self w1) as [[[]|e2| |] w2]; cbn [snd] in K2;
      injection Hrun as <- <-; split; try lia; intros _ _; lia.
  - destruct (cleanup self w1) as [[[]|e2| |] w2]; cbn [snd] in K2;
      injection Hrun as <- <-; split; try lia; intros _ _; lia.
  - injection Hrun as <- <-. split; [|lia].
    intros _ Hr. now contradiction Hr.
  - injection Hrun as <- <-. split; [|lia].
    intros Hr. now contradiction Hr.
Qed.

(** [cleanup] is its steps taken in turn. *)
Lemma cleanup_is_steps (self : CardSortingRobot) (w : state) :
  cleanup self w = steps_in_turn self (cleanup_steps w) w.
Proof.
  unfold cleanup, cleanup_steps.
  destruct (0 <? total_processed w) eqn:E;
    cbn [app steps_in_turn cleanup_step];
    unfold bind, emit, modify, get, ret;
    cbn [total_processed with_trace]; rewrite E;
    set (w1 := with_trace (cons EvCleanup) w).
  - destruct (print_statistics w1) as [[[]|?| |] w2]; try reflexivity.
    destruct (camera_close w2) as [[[]|?| |] w3]; try reflexivity.
    destruct (disconnect (robot self) w3) as [[[]|?| |] w4]; try reflexivity.
    destruct (database_close w4) as [[[]|?| |] w5]; reflexivity.
  - destruct (camera_close w1) as [[[]|?| |] w3]; try reflexivity.
    destruct (disconnect (robot self) w3) as [[[]|?| |] w4]; try reflexivity.
    destruct (database_close w4) as [[[]|?| |] w5]; reflexivity.
Qed.

Lemma cleanup_step_trace (self : CardSortingRobot) (w0 w : state) (s : event) :
  s ∈ cleanup_steps w0 ->
  trace (snd (cleanup_step self s w)) = s :: trace w.
Proof.
  unfold cleanup_steps. intros Hin.
  assert (Hs : s = EvCleanup \/ s = EvPrintStatistics \/ s = EvCameraClose \/
               s = EvRobotDisconnect \/ s = EvDatabaseClose).
  { destruct (0 <? total_processed w0); cbn [app] in Hin;
      repeat (apply elem_of_cons in Hin as [->|Hin]; [tauto|]);
      now apply elem_of_nil in Hin. }
  destruct Hs as [->|[->|[->|[->| ->]]]]; cbn [cleanup_step].
  - reflexivity.
  - apply print_statistics_trace.
  - apply camera_close_trace.
  - apply disconnect_trace.
  - apply database_close_trace.
Qed.

(** The steps that returned are in the trace, the last one first. *)
Lemma steps_in_turn_trace (self : CardSortingRobot) (w0 : state)
    (steps : list event) :
  forall w w1,
    (forall s, s ∈ steps -> s ∈ cleanup_steps w0) ->
    steps_in_turn self steps w = (Ret tt, w1) ->
    trace w1 = rev steps ++ trace w.
Proof.
  induction steps as [|s steps IH]; intros w w1 Hin Hrun.
  - cbn in Hrun. now injection Hrun as <-.
  - cbn [steps_in_turn] in Hrun. unfold bind at 1 in Hrun.
    pose proof (cleanup_step_trace self w0 w s (Hin s (list_elem_of_here _ _))) as T.
    destruct (cleanup_step self s w) as [[[]|?| |] v]; try discriminate Hrun.
    cbn [snd] in T.
    rewrite (IH v w1 (fun s' H => Hin s' (list_elem_of_further _ _ _ H)) Hrun).
    rewrite T. cbn [rev]. now rewrite <- app_assoc.
Qed.

(** A step that does not return is where the steps taken in turn end. *)
Lemma steps_in_turn_stop (self : CardSortingRobot) (done : list event) :
  forall (s : event) (rest : list event) (w w1 w2 : state) (r : res unit),
    steps_in_turn self done w = (Ret tt, w1) ->
    cleanup_step self s w1 = (r, w2) ->
    r <> Ret tt ->
    steps_in_turn self (done ++ s :: rest) w = (r, w2).
Proof.
  induction done as [|d done IH]; intros s rest w w1 w2 r Hdone Hstep Hr.
  - cbn in Hdone. injection Hdone as <-.
    cbn [app steps_in_turn]. unfold bind. rewrite Hstep.
    destruct r as [[]|e| |]; [contradiction|reflexivity|reflexivity|reflexivity].
  - cbn [app steps_in_turn] in *. unfold bind at 1 in Hdone. unfold bind at 1.
    destruct (cleanup_step self d w) as [[[]|?| |] v]; try discriminate Hdone.
    exact (IH s rest v w1 w2 r Hdone Hstep Hr).
Qed.

(** Once the hardware is initialised, [run] is the loop followed by
    [cleanup], entered in the state in which the loop ended. *)
Lemma run_loop_then_cleanup (self : CardSortingRobot) (fuel : nat)
    (w w0 : state) :
  initialize_hardware self w = (Ret true, w0) ->
  exists r1 w1,
    guarded_loop self fuel w0 = (r1, w1) /\
    cleanups w1 = cleanups w /\
    run self fuel w =
    match r1 with
    | Ret _ => cleanup self w1
    | Raise e =>
        match cleanup self w1 with
        | (Ret _, w2) => (Raise e, w2)
        | other => other
        end
    | _ => (r1, w1)
    end.
Proof.
  intros Hinit.
  pose proof (keeps_initialize_hardware cleanups framed_cleanups self w) as K0.
  rewrite Hinit in K0. cbn [snd] in K0.
  assert (K1 : keeps cleanups (guarded_loop self fuel)).
  { apply keeps_try_except_KeyboardInterrupt;
      [apply keeps_cleanups_run_loop|apply keeps_ret]. }
  specialize (K1 w0).
  unfold run. unfold bind at 1. rewrite Hinit. cbn [negb].
  unfold try_finally. fold (guarded_loop self fuel).
  destruct (guarded_loop self fuel w0) as [r1 w1]. cbn [snd] in K1.
  exists r1, w1. split; [reflexivity|]. split; [congruence|].
  destruct r1 as [[]|e| |]; try reflexivity;
    destruct (cleanup self w1) as [[[]|e2| |] w2]; reflexivity.
Qed.

(** C9, as the code has it.  Once hardware initialisation has succeeded,
    [run] is the loop followed by [cleanup]: nothing before the end of the
    loop enters [cleanup]; when the loop has ended (by the card limit, by
    [stop_on_error], by the operator's interrupt or by an exception leaving
    it) [cleanup] is executed in the state the loop left, and [run] ends
    the way [cleanup] ends, or with the exception of the loop when
    [cleanup] returns; so a run that has ended has entered [cleanup]
    exactly once, and no run enters it twice.  [cleanup] is its steps --
    statistics (only when a card was processed), camera, arm, database --
    taken in turn: a step that raises ends [cleanup] with that exception,
    in the state that step left, and none of the later steps is taken;
    the steps taken are an initial part of the list, and they are all
    taken when [cleanup] returns. *)
Theorem cleanup_once_and_in_order :
  (forall self fuel w w0 r w',
     initialize_hardware self w = (Ret true, w0) ->
     run self fuel w = (r, w') ->
     (r <> OutOfFuel -> r <> Hang -> cleanups w' = S (cleanups w)) /\
     (cleanups w' <= S (cleanups w))%nat) /\
  (forall self fuel w w0,
     initialize_hardware self w = (Ret true, w0) ->
     exists r1 w1,
       guarded_loop self fuel w0 = (r1, w1) /\
       cleanups w1 = cleanups w /\
       run self fuel w =
       match r1 with
       | Ret _ => cleanup self w1
       | Raise e =>
           match cleanup self w1 with
           | (Ret _, w2) => (Raise e, w2)
           | other => other
           end
       | _ => (r1, w1)
       end) /\
  (forall self w,
     exists done rest,
       cleanup_steps w = done ++ rest /\
       trace (snd (cleanup self w)) = rev done ++ trace w /\
       (fst (cleanup self w) = Ret tt -> rest = [])) /\
  (forall self w done s rest w1 r w2,
     cleanup_steps w = done ++ s :: rest ->
     steps_in_turn self done w = (Ret tt, w1) ->
     cleanup_step self s w1 = (r, w2) ->
     r <> Ret tt ->
     cleanup self w = (r, w2) /\
     trace w2 = s :: rev done ++ trace w) /\
  (forall self w, cleanup self w = steps_in_turn self (cleanup_steps w) w).
Proof.
  split; [|split; [|split; [|split]]].
  - intros self fuel w w0 r w'. apply run_cleanup_once.
  - intros self fuel w w0. apply run_loop_then_cleanup.
  - apply cleanup_in_order.
  - intros self w done s rest w1 r w2 Hsteps Hdone Hstep Hr.
    split.
    + rewrite cleanup_is_steps, Hsteps.
      exact (steps_in_turn_stop self done s rest w w1 w2 r Hdone Hstep Hr).
    + assert (Hs : s ∈ cleanup_steps w)
        by (rewrite Hsteps; apply elem_of_app; right; apply list_elem_of_here).
      pose proof (cleanup_step_trace self w w1 s Hs) as T.
      rewrite Hstep in T. cbn [snd] in T. rewrite T.
      f_equal. apply (steps_in_turn_trace self w done w w1); [|exact Hdone].
      intros s' Hs'. rewrite Hsteps. apply elem_of_app. now left.
  - apply cleanup_is_steps.
Qed.

Lemma cleanup_once_and_in_order_witness :
  let w := fresh (good_card_env []) in
  let v := ready port_stuck_env in
  (fst (run one_card_robot 2 w) = Ret tt /\
   cleanups (snd (run one_card_robot 2 w)) = 1%nat /\
   rev (firstn 5 (trace (snd (run one_card_robot 2 w)))) =
     [EvCleanup; EvPrintStatistics; EvCameraClose; EvRobotDisconnect;
      EvDatabaseClose]) /\
  (fst (cleanup sample_robot v) = Raise LibraryError /\
   trace (snd (cleanup sample_robot v)) =
     [EvRobotDisconnect; EvCameraClose; EvCleanup]).
Proof.
  intros w v.
  destruct cleanup_once_and_in_order as (Honce & _ & _ & Hstop & _).
  split.
  - assert (Hinit : initialize_hardware one_card_robot w =
                    (Ret true, snd (initialize_hardware one_card_robot w)))
      by (vm_compute; reflexivity).
    assert (Hrun : run one_card_robot 2 w =
                   (Ret tt, snd (run one_card_robot 2 w)))
      by (vm_compute; reflexivity).
    destruct (Honce one_card_robot 2%nat w _ _ _ Hinit Hrun) as [Hexact _].
    split; [vm_compute; reflexivity|]. split.
    + rewrite Hexact; [reflexivity|discriminate|discriminate].
    + vm_compute. reflexivity.
  - destruct (Hstop sample_robot v [EvCleanup; EvCameraClose] EvRobotDisconnect
                [EvDatabaseClose]
                (snd (steps_in_turn sample_robot [EvCleanup; EvCameraClose] v))
                (Raise LibraryError)
                (snd (cleanup_step sample_robot EvRobotDisconnect
                        (snd (steps_in_turn sample_robot
                                [EvCleanup; EvCameraClose] v)))))
      as [Hends Htrace].
    + vm_compute. reflexivity.
    + vm_compute. reflexivity.
    + vm_compute. reflexivity.
    + discriminate.
    + rewrite Hends. split; [reflexivity|]. cbn [snd]. rewrite Htrace.
      vm_compute. reflexivity.
Defined.

(** The places where C9 as stated breaks.  When the serial port fails to
    close, [cleanup] stops there and the database is never closed.  When the
    camera cannot be opened, [run] returns without any cleanup. *)
Lemma shutdown_claim_refuted :
  ~ (forall self w, In EvDatabaseClose (trace (snd (cleanup self w)))) /\
  ~ (forall self fuel w r w',
       run self fuel w = (r, w') -> r <> OutOfFuel -> r <> Hang ->
       cleanups w' = S (cleanups w)).
Proof.
  split.
  - intros Hclaim.
    specialize (Hclaim sample_robot (ready port_stuck_env)).
    vm_compute in Hclaim. intuition discriminate.
  - intros Hclaim.
    specialize (Hclaim sample_robot 1%nat (fresh no_camera_env) (Ret tt)
                  (snd (run sample_robot 1 (fresh no_camera_env)))).
    assert (Hrun : run sample_robot 1 (fresh no_camera_env) =
                   (Ret tt, snd (run sample_robot 1 (fresh no_camera_env))))
      by (vm_compute; reflexivity).
    specialize (Hclaim Hrun).
    assert (Hzero : cleanups (snd (run sample_robot 1 (fresh no_camera_env))) = 0%nat)
      by (vm_compute; reflexivity).
    rewrite Hzero in Hclaim.
    discriminate Hclaim; discriminate.
Qed.

(** * Further properties *)

(** ** Results that settle *)

Lemma settles_ret {A} (a : A) : settles (ret a).
Proof. intros w. exact I. Qed.

Lemma settles_raise {A} (e : exn) : is_Exception e = true -> settles (@raise A e).
Proof. intros He w. exact He. Qed.

Lemma settles_get {A} (g : state -> A) : settles (get g).
Proof. intros w. exact I. Qed.

Lemma settles_modify (g : state -> state) : settles (modify g).
Proof. intros w. exact I. Qed.

Lemma settles_emit (e : event) : settles (emit e).
Proof. intros w. exact I. Qed.

Lemma settles_bind {A B} (m : M A) (k : A -> M B) :
  settles m -> (forall a, settles (k a)) -> settles (bind m k).
Proof.
  intros Hm Hk w. unfold bind. specialize (Hm w).
  destruct (m w) as [[a|e| |] w1]; cbn [fst] in *; try exact Hm.
  apply Hk.
Qed.

(** A handler that returns makes the whole [try ... except Exception]
    return. *)
Lemma returns_try_except_Exception {A} (m : M A) (h : exn -> M A) :
  settles m -> (forall e, returns (h e)) -> returns (try_except_Exception m h).
Proof.
  intros Hm Hh w. unfold try_except_Exception. specialize (Hm w).
  destruct (m w) as [[a|e| |] w1]; cbn [fst] in *; try contradiction.
  - eauto.
  - rewrite Hm. apply Hh.
Qed.

Lemma returns_settles {A} (m : M A) : returns m -> settles m.
Proof. intros Hm w. destruct (Hm w) as [a Ha]. now rewrite Ha. Qed.

Lemma returns_ret {A} (a : A) : returns (ret a).
Proof. intros w. now exists a. Qed.

Lemma returns_bind {A B} (m : M A) (k : A -> M B) :
  returns m -> (forall a, returns (k a)) -> returns (bind m k).
Proof.
  intros Hm Hk w. unfold bind. destruct (Hm w) as [a Ha].
  destruct (m w) as [r w1]. cbn [fst] in Ha. subst r. apply Hk.
Qed.

Create HintDb settles.

#[export] Hint Resolve settles_ret settles_get settles_modify settles_emit
  returns_ret returns_settles : settles.

Ltac settles_step :=
  match goal with
  | |- forall _, _ => intros ?; cbv beta
  | |- settles (ret _) => apply settles_ret
  | |- settles (raise _) => apply settles_raise; reflexivity
  | |- settles (bind _ _) => apply settles_bind
  | |- returns (ret _) => apply returns_ret
  | |- returns (bind _ _) => apply returns_bind
  | |- settles (try_except_Exception _ _) =>
      apply returns_settles; apply returns_try_except_Exception
  | |- returns (try_except_Exception _ _) => apply returns_try_except_Exception
  | |- settles (if ?b then _ else _) => destruct b
  | |- returns (if ?b then _ else _) => destruct b
  | |- settles (match ?x with _ => _ end) => destruct x
  | |- returns (match ?x with _ => _ end) => destruct x
  | |- settles (let x := _ in _) => cbv zeta
  | |- returns (let x := _ in _) => cbv zeta
  | |- settles _ => solve [eauto with settles]
  | |- returns _ => solve [eauto with settles]
  end.

Ltac settles_all := repeat settles_step.

Lemma returns_pop_serial : returns pop_serial.
Proof. intros w. unfold pop_serial. destruct (serial_script (env w)); eauto. Qed.

Lemma returns_pop_lib : returns pop_lib.
Proof. intros w. unfold pop_lib. destruct (lib_script (env w)); eauto. Qed.

Lemma returns_pop_camera : returns pop_camera.
Proof. intros w. unfold pop_camera. destruct (camera_script (env w)); eauto. Qed.

Lemma returns_pop_ocr : returns pop_ocr.
Proof. intros w. unfold pop_ocr. destruct (ocr_script (env w)); eauto. Qed.

Lemma returns_get {A} (g : state -> A) : returns (get g).
Proof. intros w. eexists. reflexivity. Qed.

Lemma returns_modify (g : state -> state) : returns (modify g).
Proof. intros w. eexists. reflexivity. Qed.

Lemma returns_emit (e : event) : returns (emit e).
Proof. intros w. eexists. reflexivity. Qed.

#[export] Hint Resolve returns_pop_serial returns_pop_lib returns_pop_camera
  returns_pop_ocr returns_get returns_modify returns_emit : settles.

Lemma settles_lib_call : settles lib_call.
Proof. unfold lib_call. settles_all. Qed.

Lemma settles_sleep (d : pynum) : settles (sleep d).
Proof. unfold sleep. settles_all. Qed.

Lemma settles_getitem (d : gmap string pynum) (k : string) : settles (getitem d k).
Proof. unfold getitem. settles_all. Qed.

(** The fixed pauses of the program are legal durations. *)
Lemma returns_sleep_fixed (q : Q) :
  Qle_bool 0 q = true -> returns (sleep (Fin q)).
Proof.
  intros Hq w. unfold sleep, num_ltb, zn. change (inject_Z 0) with 0%Q.
  rewrite Hq. cbn [negb]. eexists. reflexivity.
Qed.

#[export] Hint Resolve settles_lib_call settles_sleep settles_getitem : settles.

Lemma settles_serial_write (d : wire) : settles (serial_write d).
Proof. unfold serial_write. settles_all. Qed.

#[export] Hint Resolve settles_serial_write : settles.

Lemma returns_send_command (r : RobotArm) (c : command) : returns (send_command r c).
Proof. unfold send_command. settles_all. Qed.

Lemma returns_connect (r : RobotArm) : returns (connect r).
Proof.
  unfold connect. settles_all.
  apply returns_sleep_fixed. reflexivity.
Qed.

Lemma settles_disconnect (r : RobotArm) : settles (disconnect r).
Proof. unfold disconnect. settles_all. Qed.

Lemma returns_emergency_stop (r : RobotArm) : returns (emergency_stop r).
Proof.
  unfold emergency_stop. settles_all. apply returns_send_command.
Qed.

#[export] Hint Resolve returns_send_command returns_connect settles_disconnect
  : settles.

Lemma settles_move_to_coordinates (r : RobotArm) (x y z rx ry rz : pynum)
    (wait : bool) :
  settles (move_to_coordinates r x y z rx ry rz wait).
Proof. unfold move_to_coordinates. settles_all. Qed.

#[export] Hint Resolve settles_move_to_coordinates : settles.

Lemma settles_move_to_position (r : RobotArm) (p : Position) (wait : bool) :
  settles (move_to_position r p wait).
Proof. unfold move_to_position. settles_all. Qed.

Lemma settles_open_gripper (r : RobotArm) : settles (open_gripper r).
Proof. unfold open_gripper. settles_all. Qed.

Lemma settles_close_gripper (r : RobotArm) : settles (close_gripper r).
Proof. unfold close_gripper. settles_all. Qed.

#[export] Hint Resolve settles_move_to_position settles_open_gripper
  settles_close_gripper : settles.

Lemma settles_pick_card (r : RobotArm) : settles (pick_card r).
Proof. unfold pick_card. settles_all. Qed.

Lemma settles_place_card (r : RobotArm) (ok : bool) : settles (place_card r ok).
Proof. unfold place_card. settles_all. Qed.

Lemma settles_move_to_scan_position (r : RobotArm) :
  settles (move_to_scan_position r).
Proof. unfold move_to_scan_position. settles_all. Qed.

Lemma settles_home (r : RobotArm) : settles (home r).
Proof. unfold home. settles_all. Qed.

Lemma returns_recognize : returns recognize.
Proof. unfold recognize. settles_all. Qed.

#[export] Hint Resolve returns_recognize : settles.

Lemma returns_recognize_attempts (o : OCRRecognizer) (attempts : Z)
    (range : list Z) :
  returns (recognize_attempts o attempts range).
Proof.
  induction range as [|attempt rest IH]; cbn [recognize_attempts].
  - apply returns_ret.
  - apply returns_bind; [apply returns_recognize|]. intros [text conf].
    settles_all; exact IH.
Qed.

Lemma returns_recognize_card_number (o : OCRRecognizer) (retry : bool) :
  returns (recognize_card_number o retry).
Proof. apply returns_recognize_attempts. Qed.

Lemma returns_camera_open : returns camera_open.
Proof. unfold camera_open. settles_all. Qed.

Lemma settles_camera_close : settles camera_close.
Proof. unfold camera_close. settles_all. Qed.

Lemma returns_capture_multiple_frames : returns capture_multiple_frames.
Proof. unfold capture_multiple_frames. settles_all. Qed.

Lemma settles_save_image (img : image) (prefix : string) :
  settles (save_image img prefix).
Proof. unfold save_image. settles_all. Qed.

Lemma settles_extract_roi (img : image) : settles (extract_roi img).
Proof. unfold extract_roi. settles_all. Qed.

Lemma settles_preprocess (img : image) : settles (preprocess img).
Proof. unfold preprocess. settles_all. Qed.

Lemma settles_insert_card (number : option string) (conf : pynum)
    (p q : option string) (st : string) :
  settles (insert_card number conf p q st).
Proof. unfold insert_card. settles_all. Qed.

Lemma settles_print_statistics : settles print_statistics.
Proof. unfold print_statistics, get_statistics. settles_all. Qed.

Lemma settles_database_close : settles database_close.
Proof. unfold database_close. settles_all. Qed.

#[export] Hint Resolve settles_pick_card settles_place_card
  settles_move_to_scan_position settles_home returns_recognize_card_number
  returns_camera_open settles_camera_close returns_capture_multiple_frames
  settles_save_image settles_extract_roi settles_preprocess settles_insert_card
  settles_print_statistics settles_database_close : settles.

Lemma settles_process_single_card_try (self : CardSortingRobot) :
  settles (process_single_card_try self).
Proof. unfold process_single_card_try. settles_all. Qed.

Lemma returns_process_single_card_exit (self : CardSortingRobot) :
  returns (process_single_card_exit self).
Proof.
  unfold process_single_card_exit. apply returns_try_except_Exception.
  - apply settles_process_single_card_try.
  - intros e. apply returns_ret.
Qed.

Lemma settles_initialize_hardware (self : CardSortingRobot) :
  settles (initialize_hardware self).
Proof. unfold initialize_hardware. settles_all. Qed.

Lemma settles_cleanup (self : CardSortingRobot) : settles (cleanup self).
Proof. unfold cleanup. settles_all. Qed.

(** ** What a computation adds to the trace *)

Lemma emits_ret {A} (p : event -> bool) (a : A) : emits p (ret a).
Proof. intros w. exists []. split; [reflexivity|constructor]. Qed.

Lemma emits_raise {A} (p : event -> bool) (e : exn) : emits p (@raise A e).
Proof. intros w. exists []. split; [reflexivity|constructor]. Qed.

Lemma emits_get {A} (p : event -> bool) (g : state -> A) : emits p (get g).
Proof. intros w. exists []. split; [reflexivity|constructor]. Qed.

Lemma emits_modify (p : event -> bool) (g : state -> state) :
  (forall w, trace (g w) = trace w) -> emits p (modify g).
Proof.
  intros Hg w. exists []. split; [cbn; apply Hg|constructor].
Qed.

Lemma emits_emit (p : event -> bool) (e : event) : p e = true -> emits p (emit e).
Proof.
  intros He w. exists [e]. split; [reflexivity|]. constructor; [exact He|constructor].
Qed.

Lemma emits_bind {A B} (p : event -> bool) (m : M A) (k : A -> M B) :
  emits p m -> (forall a, emits p (k a)) -> emits p (bind m k).
Proof.
  intros Hm Hk w. unfold bind. destruct (Hm w) as (evs1 & Ht1 & Hp1).
  destruct (m w) as [[a|e| |] w1]; cbn [snd] in *; try (exists evs1; now split).
  destruct (Hk a w1) as (evs2 & Ht2 & Hp2).
  exists (evs2 ++ evs1). split.
  - rewrite Ht2, Ht1. apply app_assoc.
  - apply Forall_app. now split.
Qed.

Lemma emits_try_except_Exception {A} (p : event -> bool) (m : M A)
    (h : exn -> M A) :
  emits p m -> (forall e, emits p (h e)) -> emits p (try_except_Exception m h).
Proof.
  intros Hm Hh w. unfold try_except_Exception.
  destruct (Hm w) as (evs1 & Ht1 & Hp1).
  destruct (m w) as [[a|e| |] w1]; cbn [snd] in *; try (exists evs1; now split).
  destruct (is_Exception e); [|exists evs1; now split].
  destruct (Hh e w1) as (evs2 & Ht2 & Hp2).
  exists (evs2 ++ evs1). split.
  - rewrite Ht2, Ht1. apply app_assoc.
  - apply Forall_app. now split.
Qed.

Lemma emits_try_except_KeyboardInterrupt {A} (p : event -> bool) (m h : M A) :
  emits p m -> emits p h -> emits p (try_except_KeyboardInterrupt m h).
Proof.
  intros Hm Hh w. unfold try_except_KeyboardInterrupt.
  destruct (Hm w) as (evs1 & Ht1 & Hp1).
  destruct (m w) as [[a|e| |] w1]; cbn [snd] in *; try (exists evs1; now split).
  destruct e; try (exists evs1; now split).
  destruct (Hh w1) as (evs2 & Ht2 & Hp2).
  exists (evs2 ++ evs1). split.
  - rewrite Ht2, Ht1. apply app_assoc.
  - apply Forall_app. now split.
Qed.

Lemma emits_try_finally {A} (p : event -> bool) (m : M A) (f : M unit) :
  emits p m -> emits p f -> emits p (try_finally m f).
Proof.
  intros Hm Hf w. unfold try_finally.
  destruct (Hm w) as (evs1 & Ht1 & Hp1).
  destruct (m w) as [[a|e| |] w1]; cbn [snd] in *; try (exists evs1; now split);
    destruct (Hf w1) as (evs2 & Ht2 & Hp2);
    destruct (f w1) as [[[]|e2| |] w2]; cbn [snd] in *;
    (exists (evs2 ++ evs1); split;
     [rewrite Ht2, Ht1; apply app_assoc|apply Forall_app; now split]).
Qed.

Lemma emits_pop_serial (p : event -> bool) : emits p pop_serial.
Proof.
  intros w. exists []. split; [|constructor].
  unfold pop_serial. destruct (serial_script (env w)); reflexivity.
Qed.

Lemma emits_pop_lib (p : event -> bool) : emits p pop_lib.
Proof.
  intros w. exists []. split; [|constructor].
  unfold pop_lib. destruct (lib_script (env w)); reflexivity.
Qed.

Lemma emits_pop_camera (p : event -> bool) : emits p pop_camera.
Proof.
  intros w. exists []. split; [|constructor].
  unfold pop_camera. destruct (camera_script (env w)); reflexivity.
Qed.

Lemma emits_pop_ocr (p : event -> bool) : emits p pop_ocr.
Proof.
  intros w. exists []. split; [|constructor].
  unfold pop_ocr. destruct (ocr_script (env w)); reflexivity.
Qed.

Create HintDb emits.

#[export] Hint Resolve emits_ret emits_raise emits_get emits_pop_serial
  emits_pop_lib emits_pop_camera emits_pop_ocr : emits.

Ltac emits_step :=
  match goal with
  | |- forall _, _ => intros ?; cbv beta
  | |- emits _ (ret _) => apply emits_ret
  | |- emits _ (raise _) => apply emits_raise
  | |- emits _ (get _) => apply emits_get
  | |- emits _ (emit _) => apply emits_emit; first [reflexivity | assumption]
  | |- emits _ (modify _) => apply emits_modify; intros ?; reflexivity
  | |- emits _ (bind _ _) => apply emits_bind
  | |- emits _ (try_except_Exception _ _) => apply emits_try_except_Exception
  | |- emits _ (try_except_KeyboardInterrupt _ _) =>
      apply emits_try_except_KeyboardInterrupt
  | |- emits _ (try_finally _ _) => apply emits_try_finally
  | |- emits _ (if ?b then _ else _) => destruct b
  | |- emits _ (match ?x with _ => _ end) => destruct x
  | |- emits _ (let x := _ in _) => cbv zeta
  | |- emits _ _ => solve [eauto with emits]
  end.

Ltac emits_all := repeat emits_step.

Section WithinLimits.
Context (r : RobotArm).

Lemma safe_lib_call : emits (safe_event r) lib_call.
Proof. unfold lib_call. emits_all. Qed.

Lemma safe_sleep (d : pynum) : emits (safe_event r) (sleep d).
Proof. unfold sleep. emits_all. Qed.

Lemma safe_input : emits (safe_event r) input.
Proof.
  unfold input. apply emits_bind; [emits_all|]. intros _ w.
  exists []. split; [|constructor].
  destruct (operator_script (env w)) as [|[] rest]; reflexivity.
Qed.

Lemma safe_getitem (d : gmap string pynum) (k : string) :
  emits (safe_event r) (getitem d k).
Proof. unfold getitem. emits_all. Qed.

Local Hint Resolve safe_lib_call safe_sleep safe_input safe_getitem : emits.

Lemma safe_connect : emits (safe_event r) (connect r).
Proof. unfold connect. emits_all. Qed.

Lemma safe_disconnect : emits (safe_event r) (disconnect r).
Proof. unfold disconnect. emits_all. Qed.

Lemma safe_serial_write (c : command) :
  simulation_mode r = false -> command_within r c = true ->
  emits (safe_event r) (serial_write (WCommand c)).
Proof.
  intros Hsim Hc.
  assert (safe_event r (EvSerialWrite (WCommand c)) = true)
    by (cbn; now rewrite Hsim, Hc).
  unfold serial_write. emits_all.
Qed.

Lemma safe_serial_newline :
  simulation_mode r = false -> emits (safe_event r) (serial_write WNewline).
Proof.
  intros Hsim.
  assert (safe_event r (EvSerialWrite WNewline) = true)
    by (cbn; now rewrite Hsim).
  unfold serial_write. emits_all.
Qed.

Lemma safe_send_command (c : command) :
  command_within r c = true -> emits (safe_event r) (send_command r c).
Proof.
  intros Hc. unfold send_command.
  destruct (simulation_mode r) eqn:Hsim; [emits_all|].
  pose proof (safe_serial_write c Hsim Hc).
  pose proof (safe_serial_newline Hsim).
  emits_all.
Qed.

Lemma safe_move_to_coordinates (x y z rx ry rz : pynum) (wait : bool) :
  emits (safe_event r) (move_to_coordinates r x y z rx ry rz wait).
Proof.
  unfold move_to_coordinates.
  destruct (_check_workspace_limits r x y z) eqn:Hcheck; cbn [negb];
    [|apply emits_ret].
  cbv zeta. apply emits_bind; [now apply safe_send_command|]. emits_all.
Qed.

Local Hint Resolve safe_move_to_coordinates : emits.

Lemma safe_move_to_position (p : Position) (wait : bool) :
  emits (safe_event r) (move_to_position r p wait).
Proof. unfold move_to_position. emits_all. Qed.

Lemma safe_open_gripper : emits (safe_event r) (open_gripper r).
Proof.
  unfold open_gripper. cbv zeta.
  apply emits_bind; [now apply safe_send_command|]. emits_all.
Qed.

Lemma safe_close_gripper : emits (safe_event r) (close_gripper r).
Proof.
  unfold close_gripper. cbv zeta.
  apply emits_bind; [now apply safe_send_command|]. emits_all.
Qed.

Local Hint Resolve safe_move_to_position safe_open_gripper safe_close_gripper
  : emits.

Lemma safe_pick_card : emits (safe_event r) (pick_card r).
Proof. unfold pick_card. emits_all. Qed.

Lemma safe_place_card (ok : bool) : emits (safe_event r) (place_card r ok).
Proof. unfold place_card. emits_all. Qed.

Lemma safe_move_to_scan_position : emits (safe_event r) (move_to_scan_position r).
Proof. unfold move_to_scan_position. emits_all. Qed.

Lemma safe_home : emits (safe_event r) (home r).
Proof. unfold home. emits_all. Qed.

Lemma safe_emergency_stop : emits (safe_event r) (emergency_stop r).
Proof.
  unfold emergency_stop. destruct (simulation_mode r); [apply emits_ret|].
  apply emits_bind; [now apply safe_send_command|]. emits_all.
Qed.

Lemma safe_recognize : emits (safe_event r) recognize.
Proof. unfold recognize. emits_all. Qed.

Local Hint Resolve safe_recognize : emits.

Lemma safe_recognize_attempts (o : OCRRecognizer) (attempts : Z) (range : list Z) :
  emits (safe_event r) (recognize_attempts o attempts range).
Proof.
  induction range as [|attempt rest IH]; cbn [recognize_attempts].
  - apply emits_ret.
  - apply emits_bind; [apply safe_recognize|]. intros [text conf].
    emits_all; exact IH.
Qed.

Lemma safe_recognize_card_number (o : OCRRecognizer) (retry : bool) :
  emits (safe_event r) (recognize_card_number o retry).
Proof. apply safe_recognize_attempts. Qed.

Lemma safe_camera_open : emits (safe_event r) camera_open.
Proof. unfold camera_open. emits_all. Qed.

Lemma safe_camera_close : emits (safe_event r) camera_close.
Proof. unfold camera_close. emits_all. Qed.

Lemma safe_capture_multiple_frames : emits (safe_event r) capture_multiple_frames.
Proof. unfold capture_multiple_frames. emits_all. Qed.

Lemma safe_save_image (img : image) (prefix : string) :
  emits (safe_event r) (save_image img prefix).
Proof. unfold save_image. emits_all. Qed.

Lemma safe_extract_roi (img : image) : emits (safe_event r) (extract_roi img).
Proof. unfold extract_roi. emits_all. Qed.

Lemma safe_preprocess (img : image) : emits (safe_event r) (preprocess img).
Proof. unfold preprocess. emits_all. Qed.

Lemma safe_insert_card (number : option string) (conf : pynum)
    (p q : option string) (st : string) :
  emits (safe_event r) (insert_card number conf p q st).
Proof. unfold insert_card. emits_all. Qed.

Lemma safe_print_statistics : emits (safe_event r) print_statistics.
Proof. unfold print_statistics, get_statistics. emits_all. Qed.

Lemma safe_database_close : emits (safe_event r) database_close.
Proof. unfold database_close. emits_all. Qed.
End WithinLimits.

#[export] Hint Resolve safe_lib_call safe_sleep safe_input safe_getitem
  safe_connect safe_disconnect safe_move_to_coordinates safe_move_to_position
  safe_open_gripper safe_close_gripper safe_pick_card safe_place_card
  safe_move_to_scan_position safe_home safe_emergency_stop safe_recognize
  safe_recognize_card_number safe_camera_open safe_camera_close
  safe_capture_multiple_frames safe_save_image safe_extract_roi safe_preprocess
  safe_insert_card safe_print_statistics safe_database_close : emits.

Lemma safe_process_single_card (self : CardSortingRobot) :
  emits (safe_event (robot self)) (process_single_card self).
Proof.
  unfold process_single_card, process_single_card_exit, process_single_card_try.
  emits_all.
Qed.

Lemma safe_initialize_hardware (self : CardSortingRobot) :
  emits (safe_event (robot self)) (initialize_hardware self).
Proof. unfold initialize_hardware. emits_all. Qed.

Lemma safe_cleanup (self : CardSortingRobot) :
  emits (safe_event (robot self)) (cleanup self).
Proof. unfold cleanup. emits_all. Qed.

#[export] Hint Resolve safe_process_single_card safe_initialize_hardware
  safe_cleanup : emits.

Lemma safe_run_iteration (self : CardSortingRobot) :
  emits (safe_event (robot self)) (run_iteration self).
Proof. unfold run_iteration. emits_all. Qed.

Lemma safe_run_loop (self : CardSortingRobot) (fuel : nat) :
  emits (safe_event (robot self)) (run_loop self fuel).
Proof.
  induction fuel as [|n IH]; cbn [run_loop].
  - intros w. exists []. split; [reflexivity|constructor].
  - apply emits_bind; [apply safe_run_iteration|].
    intros []; [apply emits_ret|exact IH].
Qed.

Lemma safe_run (self : CardSortingRobot) (fuel : nat) :
  emits (safe_event (robot self)) (run self fuel).
Proof.
  pose proof (safe_run_loop self fuel).
  unfold run. emits_all.
Qed.

(** ** The arm *)

(** X1. Whatever the run does -- initialisation, any number of cycles, the
    policy after failures, the shutdown -- every move command that enters
    [send_command] or goes out on the serial line has x, y and z within the
    configured workspace limits; the same holds for one cycle and for each
    motion of the arm taken alone. *)
Theorem only_moves_within_limits_are_sent :
  forall self,
    let r := robot self in
    let inside (evs : list event) :=
      forall x y z rx ry rz f,
        In (EvSendCommand (G0 x y z rx ry rz f)) evs \/
        In (EvSerialWrite (WCommand (G0 x y z rx ry rz f))) evs ->
        within (limit r "x_min" (zn (-300))) (limit r "x_max" (zn 300)) x /\
        within (limit r "y_min" (zn (-200))) (limit r "y_max" (zn 200)) y /\
        within (limit r "z_min" (zn 0)) (limit r "z_max" (zn 300)) z in
    (forall fuel w, exists evs,
       trace (snd (run self fuel w)) = evs ++ trace w /\ inside evs) /\
    (forall w, exists evs,
       trace (snd (process_single_card self w)) = evs ++ trace w /\ inside evs) /\
    (forall p wait w, exists evs,
       trace (snd (move_to_position r p wait w)) = evs ++ trace w /\ inside evs) /\
    (forall x y z rx ry rz wait w, exists evs,
       trace (snd (move_to_coordinates r x y z rx ry rz wait w)) = evs ++ trace w /\
       inside evs).
Proof.
  intros self r inside.
  assert (Hinside : forall evs,
             Forall (fun e => safe_event r e = true) evs -> inside evs).
  { intros evs Hall x y z rx ry rz f Hin.
    rewrite Forall_forall in Hall.
    apply check_workspace_limits_spec.
    destruct Hin as [Hin | Hin]; apply list_elem_of_In in Hin;
      apply Hall in Hin; [exact Hin|].
    cbn in Hin. apply andb_prop in Hin. exact (proj2 Hin). }
  repeat split; intros.
  - destruct (safe_run self fuel w) as (evs & Ht & Hall). eauto.
  - destruct (safe_process_single_card self w) as (evs & Ht & Hall). eauto.
  - destruct (safe_move_to_position r p wait w) as (evs & Ht & Hall). eauto.
  - destruct (safe_move_to_coordinates r x y z rx ry rz wait w)
      as (evs & Ht & Hall). eauto.
Qed.

(** X2. [process_single_card] always returns a boolean: whatever is raised
    inside the cycle (a missing coordinate, a failing library call, a
    rejected insert, a zero statistics interval) is caught and turned into
    [False], with the machine left as it was when the exception was raised. *)
Theorem process_single_card_always_returns (self : CardSortingRobot) (w : state) :
  (exists b w', process_single_card self w = (Ret b, w')) /\
  (forall e w', process_single_card_try self w = (Raise e, w') ->
                process_single_card self w = (Ret false, w')).
Proof.
  split.
  - destruct (returns_process_single_card_exit self w) as [c Hc].
    destruct (process_single_card_exit self w) as [rc w'] eqn:E.
    cbn [fst] in Hc. subst rc. exists (cycle_success c), w'.
    now apply process_single_card_of_exit.
  - intros e w' Hraise.
    pose proof (settles_process_single_card_try self w) as Hs.
    rewrite Hraise in Hs. cbn [fst settled] in Hs.
    unfold process_single_card, process_single_card_exit, try_except_Exception,
      bind.
    rewrite Hraise, Hs. reflexivity.
Qed.

(** X3. [send_command] never raises.  In simulation mode it answers [True]
    and touches nothing; when the arm is not connected it answers [False]
    and writes nothing.  Otherwise [True] means that the command line and
    its newline both went out, followed by the 0.1 s pause; [False] means
    that nothing went out, or the command line without its newline. *)
Theorem send_command_outcomes (r : RobotArm) (c : command) (w : state) :
  let entered := with_trace (cons (EvSendCommand c)) w in
  (exists b w', send_command r c w = (Ret b, w')) /\
  (simulation_mode r = true -> send_command r c w = (Ret true, entered)) /\
  (simulation_mode r = false -> is_connected w = false ->
     send_command r c w = (Ret false, entered)) /\
  (forall w', simulation_mode r = false ->
     send_command r c w = (Ret true, w') ->
     trace w' = EvSleep (Fin (1 # 10)) :: EvSerialWrite WNewline ::
                EvSerialWrite (WCommand c) :: EvSendCommand c :: trace w) /\
  (forall w', send_command r c w = (Ret false, w') ->
     trace w' = EvSendCommand c :: trace w \/
     trace w' = EvSerialWrite (WCommand c) :: EvSendCommand c :: trace w).
Proof.
  intros entered. split; [|split; [|split; [|split]]].
  - destruct (returns_send_command r c w) as [b Hb].
    destruct (send_command r c w) as [rb w']. cbn [fst] in Hb. subst rb. eauto.
  - intros Hsim. unfold send_command. now rewrite Hsim.
  - intros Hsim Hconn. subst entered. open_state w. unfold send_command.
    rewrite Hsim. cbn [is_connected] in Hconn. subst conn. reflexivity.
  - intros w' Hsim. open_state w. unfold send_command. rewrite Hsim. run_prims.
    destruct conn; [|discriminate]. destruct port; [|discriminate].
    destruct ss as [|[] [|[] rest]]; intros H; try discriminate;
      injection H as <-; reflexivity.
  - intros w'. open_state w. unfold send_command.
    destruct (simulation_mode r); [discriminate|]. run_prims.
    destruct conn; [|intros H; injection H as <-; left; reflexivity].
    destruct port; [|intros H; injection H as <-; left; reflexivity].
    destruct ss as [|[] [|[] rest]]; intros H; try discriminate;
      injection H as <-; first [left; reflexivity | right; reflexivity].
Qed.

(** X4. [emergency_stop] never raises and never blocks.  In simulation
    mode it does nothing at all; otherwise it hands [M112] to
    [send_command] whatever the state of the connection, and when the arm
    is not connected nothing is written. *)
Theorem emergency_stop_outcomes (r : RobotArm) (w : state) :
  (exists w', emergency_stop r w = (Ret tt, w')) /\
  (simulation_mode r = true -> emergency_stop r w = (Ret tt, w)) /\
  (simulation_mode r = false ->
     exists later,
       trace (snd (emergency_stop r w)) = later ++ EvSendCommand M112 :: trace w) /\
  (simulation_mode r = false -> is_connected w = false ->
     emergency_stop r w = (Ret tt, with_trace (cons (EvSendCommand M112)) w)).
Proof.
  split; [|split; [|split]].
  - destruct (returns_emergency_stop r w) as [[] Hu].
    destruct (emergency_stop r w) as [ru w']. cbn [fst] in Hu. subst ru. eauto.
  - intros Hsim. unfold emergency_stop. now rewrite Hsim.
  - intros Hsim. unfold emergency_stop. rewrite Hsim. unfold bind.
    destruct (send_command_traced r M112 w) as [later Hlater].
    exists later.
    destruct (returns_send_command r M112 w) as [b Hb].
    destruct (send_command r M112 w) as [rb w1]. cbn [fst snd] in *. subst rb.
    exact Hlater.
  - intros Hsim Hconn. unfold emergency_stop. rewrite Hsim. unfold bind.
    open_state w. unfold send_command. rewrite Hsim.
    cbn [is_connected] in Hconn. subst conn. reflexivity.
Qed.

(** ** The commands of a motion *)

Lemma sent_send (c : command) (w : state) :
  sent (with_trace (cons (EvSendCommand c)) w) = sent w ++ [c].
Proof. reflexivity. Qed.

Lemma emits_keeps_sent {A} (m : M A) : emits not_send m -> keeps sent m.
Proof.
  intros Hm w. destruct (Hm w) as (evs & Ht & Hall).
  unfold sent. rewrite Ht. f_equal.
  clear Ht. induction evs as [|e evs IH]; [reflexivity|].
  inversion Hall as [|? ? He Hrest]; subst.
  destruct e; try discriminate He; cbn [omap list_omap app]; now apply IH.
Qed.

Lemma quiet_sleep (d : pynum) : emits not_send (sleep d).
Proof. unfold sleep. emits_all. Qed.

Lemma quiet_getitem (d : gmap string pynum) (k : string) :
  emits not_send (getitem d k).
Proof. unfold getitem. emits_all. Qed.

Lemma quiet_serial_write (d : wire) : emits not_send (serial_write d).
Proof. unfold serial_write. emits_all. Qed.

#[export] Hint Resolve quiet_sleep quiet_getitem quiet_serial_write : emits.

(** Whatever it answers, [send_command] has been handed exactly [c]. *)
Lemma send_command_sent (r : RobotArm) (c : command) (w : state) :
  sent (snd (send_command r c w)) = sent w ++ [c].
Proof.
  unfold send_command. unfold bind at 1. unfold emit at 1, modify at 1.
  rewrite <- sent_send.
  match goal with
  | |- sent (snd (?m ?v)) = _ =>
      assert (Hq : emits not_send m) by emits_all;
      apply (emits_keeps_sent m Hq v)
  end.
Qed.

(** A computation that ends in [ret b] after a quiet step. *)
Lemma then_ret_inv {A B} (m : M A) (b b' : B) (w w' : state) :
  keeps sent m ->
  bind m (fun _ => ret b) w = (Ret b', w') ->
  b = b' /\ sent w' = sent w.
Proof.
  intros Hm H. unfold bind in H. specialize (Hm w).
  destruct (m w) as [[a|e| |] w1]; try discriminate.
  injection H as <- <-. split; [reflexivity|exact Hm].
Qed.

Lemma move_to_coordinates_done (r : RobotArm) (x y z rx ry rz : pynum)
    (wait : bool) (w w' : state) :
  move_to_coordinates r x y z rx ry rz wait w = (Ret true, w') ->
  _check_workspace_limits r x y z = true /\
  sent w' = sent w ++ [G0 x y z rx ry rz (speed r)].
Proof.
  unfold move_to_coordinates.
  destruct (_check_workspace_limits r x y z); [|discriminate].
  cbn [negb]. cbv zeta. intros H. split; [reflexivity|].
  unfold bind at 1 in H.
  pose proof (send_command_sent r (G0 x y z rx ry rz (speed r)) w) as Hs.
  destruct (send_command r (G0 x y z rx ry rz (speed r)) w) as [[b|e| |] w1];
    try discriminate.
  cbn [snd] in Hs.
  apply then_ret_inv in H.
  - destruct H as [_ H]. now rewrite H.
  - apply emits_keeps_sent. emits_all.
Qed.

Lemma move_to_position_done (r : RobotArm) (p : Position) (wait : bool)
    (w w' : state) :
  move_to_position r p wait w = (Ret true, w') ->
  exists c, pose_command r p = Some c /\
            command_within r c = true /\
            sent w' = sent w ++ [c].
Proof.
  unfold move_to_position, pose_command.
  destruct (positions r !! Position_value p) as [pos|]; [|discriminate].
  cbn [mbind option_bind].
  destruct (bool_decide (pos = ∅)); [discriminate|].
  unfold getitem.
  destruct (pos !! "x") as [x|]; [|discriminate].
  destruct (pos !! "y") as [y|]; [|discriminate].
  destruct (pos !! "z") as [z|]; [|discriminate].
  cbn [mbind option_bind]. unfold bind, ret. intros H.
  apply move_to_coordinates_done in H. destruct H as [Hcheck Hsent].
  eexists. split; [reflexivity|]. split; [exact Hcheck|exact Hsent].
Qed.

Lemma gripper_done (r : RobotArm) (v d : pynum) (w w' : state) :
  (success <- send_command r (M3 v) ;;
   (if success : bool then sleep d else ret tt) ;;;
   ret success) w = (Ret true, w') ->
  sent w' = sent w ++ [M3 v].
Proof.
  intros H. unfold bind at 1 in H.
  pose proof (send_command_sent r (M3 v) w) as Hs.
  destruct (send_command r (M3 v) w) as [[b|e| |] w1]; try discriminate.
  cbn [snd] in Hs. apply then_ret_inv in H.
  - destruct H as [_ H]. now rewrite H.
  - apply emits_keeps_sent. emits_all.
Qed.

Lemma open_gripper_done (r : RobotArm) (w w' : state) :
  open_gripper r w = (Ret true, w') ->
  sent w' = sent w ++ [M3 (gripper_open_value r)].
Proof. apply gripper_done. Qed.

Lemma close_gripper_done (r : RobotArm) (w w' : state) :
  close_gripper r w = (Ret true, w') ->
  sent w' = sent w ++ [M3 (gripper_close_value r)].
Proof. apply gripper_done. Qed.

(** Runs the first step of the bind in [H], a step answering a boolean that
    must be [True] for the computation to go on. *)
Ltac must_succeed H E :=
  match type of H with
  | bind ?m ?k ?w = _ =>
      unfold bind at 1 in H;
      destruct (m w) as [[[]|?| |] ?] eqn:E; try discriminate H;
      cbn [negb] in H; try discriminate H
  end.

Ltac pause H K :=
  match type of H with
  | bind (sleep ?d) ?k ?w = _ =>
      pose proof (emits_keeps_sent (sleep d) (quiet_sleep d) w) as K;
      unfold bind at 1 in H;
      destruct (sleep d w) as [[[]|?| |] ?]; try discriminate H;
      cbn [snd] in K
  end.

Lemma pick_card_done (r : RobotArm) (w w' : state) :
  pick_card r w = (Ret true, w') ->
  exists pile, pose_command r CARD_PILE = Some pile /\
               command_within r pile = true /\
               sent w' = sent w ++ [pile; M3 (gripper_open_value r);
                                    M3 (gripper_close_value r)].
Proof.
  unfold pick_card. intros H.
  must_succeed H E1. apply move_to_position_done in E1.
  destruct E1 as (pile & Hpile & Hin & S1).
  must_succeed H E2. apply open_gripper_done in E2.
  pause H K1.
  must_succeed H E3. apply close_gripper_done in E3.
  pause H K2.
  injection H as <-.
  exists pile. split; [exact Hpile|]. split; [exact Hin|].
  rewrite K2, E3, K1, E2, S1. now rewrite <- !app_assoc.
Qed.

Lemma place_card_done (r : RobotArm) (ok : bool) (w w' : state) :
  place_card r ok w = (Ret true, w') ->
  exists bin, pose_command r (if ok then SUCCESS else FAILED) = Some bin /\
              command_within r bin = true /\
              sent w' = sent w ++ [bin; M3 (gripper_open_value r)].
Proof.
  unfold place_card. cbv zeta. intros H.
  must_succeed H E1. apply move_to_position_done in E1.
  destruct E1 as (bin & Hbin & Hin & S1).
  pause H K1.
  must_succeed H E2. apply open_gripper_done in E2.
  pause H K2.
  injection H as <-.
  exists bin. split; [exact Hbin|]. split; [exact Hin|].
  rewrite K2, E2, K1, S1. now rewrite <- !app_assoc.
Qed.

Lemma home_done (r : RobotArm) (w w' : state) :
  home r w = (Ret true, w') ->
  exists base, pose_command r HOME = Some base /\
               command_within r base = true /\
               sent w' = sent w ++ [base] /\
               current_position w' = Some HOME.
Proof.
  unfold home. intros H.
  unfold bind at 1 in H.
  destruct (move_to_position r HOME true w) as [[[]|?| |] w1] eqn:E1;
    try discriminate H.
  apply move_to_position_done in E1. destruct E1 as (base & Hbase & Hin & S1).
  injection H as <-.
  exists base. split; [exact Hbase|]. split; [exact Hin|].
  split; [exact S1|reflexivity].
Qed.

(** X5. When [place_card] answers [True], the arm was sent exactly two
    commands: the move to the configured pose of the success pile if the
    flag is [True], of the failed pile otherwise -- a pose within the
    workspace limits -- and then the command that opens the gripper. *)
Theorem place_card_routes_by_flag (r : RobotArm) (ok : bool) (w w' : state) :
  place_card r ok w = (Ret true, w') ->
  exists bin,
    pose_command r (if ok then SUCCESS else FAILED) = Some bin /\
    command_within r bin = true /\
    sent w' = sent w ++ [bin; M3 (gripper_open_value r)].
Proof. apply place_card_done. Qed.

Lemma place_card_routes_by_flag_witness :
  let w := ready quiet_env in
  let w' := snd (place_card sample_arm false w) in
  exists bin,
    pose_command sample_arm FAILED = Some bin /\
    command_within sample_arm bin = true /\
    sent w' = sent w ++ [bin; M3 (gripper_open_value sample_arm)].
Proof.
  intros w w'.
  apply (place_card_routes_by_flag sample_arm false w w').
  vm_compute. reflexivity.
Defined.

(** X6. When [execute_card_sorting_cycle] answers [True], the arm was sent
    exactly seven commands in this order: move to the card pile, open,
    close, move to the scanner, move to the bin chosen by the recognition
    flag, open, move home; every pose is configured and within the
    workspace limits, and the arm is recorded as being at home. *)
Theorem execute_card_sorting_cycle_commands (r : RobotArm) (ok : bool)
    (w w' : state) :
  execute_card_sorting_cycle r ok w = (Ret true, w') ->
  exists pile scan bin base,
    pose_command r CARD_PILE = Some pile /\
    pose_command r SCAN = Some scan /\
    pose_command r (if ok then SUCCESS else FAILED) = Some bin /\
    pose_command r HOME = Some base /\
    Forall (fun c => command_within r c = true) [pile; scan; bin; base] /\
    sent w' = sent w ++ [pile; M3 (gripper_open_value r);
                         M3 (gripper_close_value r); scan;
                         bin; M3 (gripper_open_value r); base] /\
    current_position w' = Some HOME.
Proof.
  unfold execute_card_sorting_cycle. intros H.
  must_succeed H E1. apply pick_card_done in E1.
  destruct E1 as (pile & Hpile & Ipile & S1).
  must_succeed H E2. apply move_to_position_done in E2.
  destruct E2 as (scan & Hscan & Iscan & S2).
  must_succeed H E3. apply place_card_done in E3.
  destruct E3 as (bin & Hbin & Ibin & S3).
  must_succeed H E4. apply home_done in E4.
  destruct E4 as (base & Hbase & Ibase & S4 & Hpos).
  injection H as <-.
  exists pile, scan, bin, base.
  repeat (split; [assumption|]).
  split; [repeat constructor; assumption|].
  split; [|exact Hpos].
  rewrite S4, S3, S2, S1. now rewrite <- !app_assoc.
Qed.

Lemma execute_card_sorting_cycle_commands_witness :
  let w := ready quiet_env in
  let w' := snd (execute_card_sorting_cycle sample_arm true w) in
  exists pile scan bin base,
    pose_command sample_arm CARD_PILE = Some pile /\
    pose_command sample_arm SCAN = Some scan /\
    pose_command sample_arm SUCCESS = Some bin /\
    pose_command sample_arm HOME = Some base /\
    Forall (fun c => command_within sample_arm c = true) [pile; scan; bin; base] /\
    sent w' = sent w ++ [pile; M3 (gripper_open_value sample_arm);
                         M3 (gripper_close_value sample_arm); scan;
                         bin; M3 (gripper_open_value sample_arm); base] /\
    current_position w' = Some HOME.
Proof.
  intros w w'.
  apply (execute_card_sorting_cycle_commands sample_arm true w w').
  vm_compute. reflexivity.
Defined.

Lemma quiet_lib_call : emits not_send lib_call.
Proof. unfold lib_call. emits_all. Qed.

Lemma quiet_recognize : emits not_send recognize.
Proof. unfold recognize. emits_all. Qed.

#[export] Hint Resolve quiet_lib_call quiet_recognize : emits.

Lemma quiet_recognize_attempts (o : OCRRecognizer) (attempts : Z) (range : list Z) :
  emits not_send (recognize_attempts o attempts range).
Proof.
  induction range as [|attempt rest IH]; cbn [recognize_attempts].
  - apply emits_ret.
  - apply emits_bind; [apply quiet_recognize|]. intros [text conf].
    emits_all; exact IH.
Qed.

Lemma quiet_recognize_card_number (o : OCRRecognizer) (retry : bool) :
  emits not_send (recognize_card_number o retry).
Proof. apply quiet_recognize_attempts. Qed.

Lemma quiet_capture_multiple_frames : emits not_send capture_multiple_frames.
Proof. unfold capture_multiple_frames. emits_all. Qed.

Lemma quiet_save_image (img : image) (prefix : string) :
  emits not_send (save_image img prefix).
Proof. unfold save_image. emits_all. Qed.

Lemma quiet_extract_roi (img : image) : emits not_send (extract_roi img).
Proof. unfold extract_roi. emits_all. Qed.

Lemma quiet_preprocess (img : image) : emits not_send (preprocess img).
Proof. unfold preprocess. emits_all. Qed.

Lemma quiet_insert_card (number : option string) (conf : pynum)
    (p q : option string) (st : string) :
  emits not_send (insert_card number conf p q st).
Proof. unfold insert_card. emits_all. Qed.

Lemma quiet_print_statistics : emits not_send print_statistics.
Proof. unfold print_statistics, get_statistics. emits_all. Qed.

#[export] Hint Resolve quiet_recognize_card_number quiet_capture_multiple_frames
  quiet_save_image quiet_extract_roi quiet_preprocess quiet_insert_card
  quiet_print_statistics : emits.

Lemma sent_set_db_rows (rows : list card_record) (w : state) :
  sent (set_db_rows rows w) = sent w.
Proof. reflexivity. Qed.

Lemma sent_set_counters (a b c : Z) (w : state) :
  sent (set_counters a b c w) = sent w.
Proof. reflexivity. Qed.

(** Runs the first step of the bind in [H]: a step that sends nothing and
    keeps the books. *)
Tactic Notation "quiet_step" hyp(H) "as" ident(a) :=
  match type of H with
  | bind ?m ?k ?w = _ =>
      let K := fresh "K" in
      let Q := fresh "Q" in
      assert (K : keeps books m) by keeps_all;
      assert (Q : keeps sent m) by (apply emits_keeps_sent; emits_all);
      specialize (K w); specialize (Q w);
      unfold bind at 1 in H;
      destruct (m w) as [[a|?| |] ?]; try discriminate H;
      cbn [snd] in K, Q; cbv beta iota in H
  end.

(** Runs the first step of the bind in [H]: a motion of the arm that must
    answer [True]; [E] keeps its equation. *)
Ltac arm_step H E :=
  match type of H with
  | bind ?m ?k ?w = _ =>
      let K := fresh "K" in
      assert (K : keeps books m) by keeps_all;
      specialize (K w);
      unfold bind at 1 in H;
      destruct (m w) as [[[]|?| |] ?] eqn:E; try discriminate H;
      cbn [snd] in K; cbn [negb] in H; try discriminate H
  end.

Lemma process_single_card_try_done (self : CardSortingRobot) (w w' : state) :
  process_single_card_try self w = (Ret CycleDone, w') ->
  exists (ok : bool) number conf path processed pile scan bin base,
    pose_command (robot self) CARD_PILE = Some pile /\
    pose_command (robot self) SCAN = Some scan /\
    pose_command (robot self) (if ok then SUCCESS else FAILED) = Some bin /\
    pose_command (robot self) HOME = Some base /\
    sent w' = sent w ++ [pile; M3 (gripper_open_value (robot self));
                         M3 (gripper_close_value (robot self)); scan;
                         bin; M3 (gripper_open_value (robot self)); base] /\
    db_rows w' = db_rows w ++
      [mkCard number conf path processed (if ok then "success" else "failed")] /\
    success_count w' = success_count w + (if ok then 1 else 0) /\
    failed_count w' = failed_count w + (if ok then 0 else 1) /\
    total_processed w' = total_processed w + 1.
Proof.
  intros H. unfold process_single_card_try in H.
  arm_step H E1. apply pick_card_done in E1.
  destruct E1 as (pile & Hpile & _ & S1).
  arm_step H E2. apply move_to_position_done in E2.
  destruct E2 as (scan & Hscan & _ & S2).
  quiet_step H as slept. quiet_step H as captured.
  destruct captured as [img|]; [|discriminate H].
  quiet_step H as original_path. quiet_step H as roi_image.
  quiet_step H as processed_image. quiet_step H as processed_path.
  quiet_step H as reading. destruct reading as [[number conf] ok].
  unfold bind at 1 in H. rewrite count_recognition in H.
  unfold bind at 1 in H.
  destruct number as [n|]; [|discriminate H].
  rewrite insert_card_some in H.
  match type of H with context [lib_call ?v] =>
    pose proof (keeps_lib_call books framed_books v) as Kl;
    pose proof (emits_keeps_sent lib_call quiet_lib_call v) as Ql;
    destruct (lib_call v) as [[[]|e| |] s8]; cbn [snd] in Kl, Ql;
    try discriminate H
  end.
  arm_step H E3. apply place_card_done in E3.
  destruct E3 as (bin & Hbin & _ & S3).
  arm_step H E4. apply home_done in E4.
  destruct E4 as (base & Hbase & _ & S4 & _).
  unfold bind at 1 in H. unfold modify at 1 in H.
  unfold bind at 1 in H. unfold get at 1 in H.
  quiet_step H as reported. injection H as <-.
  exists ok, n, conf, original_path, processed_path, pile, scan, bin, base.
  repeat (split; [assumption|]).
  split.
  { destruct ok;
      repeat first
        [ rewrite sent_set_db_rows | rewrite sent_set_counters
        | match goal with
          | Hs : sent _ = _ |- _ => rewrite Hs; clear Hs
          end ];
      now rewrite <- !app_assoc. }
  destruct ok; open_books; (split; [|lia]);
    repeat match goal with
           | Hr : db_rows _ = _ |- _ => rewrite Hr; clear Hr
           end;
    reflexivity.
Qed.

Lemma process_single_card_true (self : CardSortingRobot) (w w' : state) :
  process_single_card self w = (Ret true, w') ->
  process_single_card_try self w = (Ret CycleDone, w').
Proof.
  unfold process_single_card, process_single_card_exit, try_except_Exception, bind.
  destruct (process_single_card_try self w) as [[c|e| |] w1]; try discriminate.
  - destruct c; cbn [cycle_success ret]; intros H; try discriminate H.
    now injection H as <-.
  - destruct (is_Exception e); cbn [ret cycle_success]; discriminate.
Qed.

(** X7. When [process_single_card] answers [True], the arm was sent exactly
    the seven commands of a cycle, one row was appended to the table, and
    the two agree: the card went to the success pile exactly when the row
    says [success] and [success_count] went up, to the failed pile exactly
    when the row says [failed] and [failed_count] went up;
    [total_processed] went up by one. *)
Theorem successful_cycle_route_matches_record (self : CardSortingRobot)
    (w w' : state) :
  process_single_card self w = (Ret true, w') ->
  exists (ok : bool) number conf path processed pile scan bin base,
    pose_command (robot self) CARD_PILE = Some pile /\
    pose_command (robot self) SCAN = Some scan /\
    pose_command (robot self) (if ok then SUCCESS else FAILED) = Some bin /\
    pose_command (robot self) HOME = Some base /\
    sent w' = sent w ++ [pile; M3 (gripper_open_value (robot self));
                         M3 (gripper_close_value (robot self)); scan;
                         bin; M3 (gripper_open_value (robot self)); base] /\
    db_rows w' = db_rows w ++
      [mkCard number conf path processed (if ok then "success" else "failed")] /\
    success_count w' = success_count w + (if ok then 1 else 0) /\
    failed_count w' = failed_count w + (if ok then 0 else 1) /\
    total_processed w' = total_processed w + 1.
Proof.
  intros H. apply process_single_card_try_done.
  now apply process_single_card_true.
Qed.

Lemma successful_cycle_route_matches_record_witness :
  let w := ready (good_card_env []) in
  let w' := snd (process_single_card sample_robot w) in
  exists (ok : bool) number conf path processed pile scan bin base,
    pose_command sample_arm CARD_PILE = Some pile /\
    pose_command sample_arm SCAN = Some scan /\
    pose_command sample_arm (if ok then SUCCESS else FAILED) = Some bin /\
    pose_command sample_arm HOME = Some base /\
    sent w' = sent w ++ [pile; M3 (gripper_open_value sample_arm);
                         M3 (gripper_close_value sample_arm); scan;
                         bin; M3 (gripper_open_value sample_arm); base] /\
    db_rows w' = db_rows w ++
      [mkCard number conf path processed (if ok then "success" else "failed")] /\
    success_count w' = success_count w + (if ok then 1 else 0) /\
    failed_count w' = failed_count w + (if ok then 0 else 1) /\
    total_processed w' = total_processed w + 1.
Proof.
  intros w w'.
  apply (successful_cycle_route_matches_record sample_robot w w').
  vm_compute. reflexivity.
Defined.

(** ** The gate, for every reading *)

Lemma recognize_step (w : state) :
  exists r w1,
    recognize w = (Ret r, w1) /\
    trace w1 = EvRecognize :: trace w /\
    ocr_script (env w1) = drop 1 (ocr_script (env w)) /\
    (r = (None, zn 0) \/ In r (ocr_script (env w))).
Proof.
  open_state w. unfold recognize. run_prims.
  destruct os as [|r os]; eexists; eexists;
    (split; [reflexivity|]); (split; [reflexivity|]); (split; [reflexivity|]).
  - left. reflexivity.
  - right. left. reflexivity.
Qed.

Lemma attempt_passes_read (o : OCRRecognizer) (r : option string * pynum)
    (script : list (option string * pynum)) :
  attempt_passes o r ->
  r = (None, zn 0) \/ In r script ->
  In r script /\ exists s, fst r = Some s /\ s <> "".
Proof.
  intros [_ Hvalid] Hread. destruct r as [[s|] conf]; cbn [fst] in *.
  - destruct Hread as [Hnone|Hin]; [discriminate|]. split; [exact Hin|].
    exists s. split; [reflexivity|]. intros ->. discriminate Hvalid.
  - discriminate Hvalid.
Qed.

(** What [recognize_attempts] does over the attempts [i, i+1, ..., attempts-1]. *)
Lemma recognize_attempts_run (o : OCRRecognizer) (attempts : Z) (len : nat) :
  forall (i : Z) (w : state),
    i + Z.of_nat len = attempts ->
    exists text conf (ok : bool) w' (n : nat),
      recognize_attempts o attempts (seqZ i (Z.of_nat len)) w =
        (Ret (text, conf, ok), w') /\
      trace w' = repeat EvRecognize n ++ trace w /\
      ocr_script (env w') = drop n (ocr_script (env w)) /\
      (n <= len)%nat /\
      (ok = true ->
         attempt_passes o (text, conf) /\ In (text, conf) (ocr_script (env w)) /\
         exists s, text = Some s /\ s <> "") /\
      (ok = false -> attempt_fails o (text, conf) /\ n = len).
Proof.
  induction len as [|len IH]; intros i w Hlen.
  - exists None, (zn 0), false, w, 0%nat. cbn.
    split; [reflexivity|]. split; [reflexivity|]. split; [reflexivity|].
    split; [lia|]. split; [discriminate|]. intros _. split; [|reflexivity].
    right. reflexivity.
  - rewrite seqZ_cons by lia.
    replace (Z.pred (Z.of_nat (S len))) with (Z.of_nat len) by lia.
    cbn [recognize_attempts].
    destruct (recognize_step w) as ([text conf] & w1 & Hrec & Ht1 & Hs1 & Hread).
    unfold bind at 1. rewrite Hrec.
    destruct (IH (Z.succ i) w1) as (text2 & conf2 & ok2 & w2 & n2 & Hrun & Ht2 &
                                      Hs2 & Hn2 & Hok2 & Hko2); [lia|].
    assert (Hnext : forall script,
               ocr_script (env w1) = drop 1 script ->
               In (text2, conf2) (ocr_script (env w1)) -> In (text2, conf2) script).
    { intros script Heq Hin. rewrite Heq in Hin.
      apply list_elem_of_In in Hin. apply list_elem_of_In.
      exact (subseteq_drop 1 script _ Hin). }
    assert (Hgo : exists text' conf' (ok' : bool) w' (n : nat),
               recognize_attempts o attempts (seqZ (Z.succ i) (Z.of_nat len)) w1 =
                 (Ret (text', conf', ok'), w') /\
               trace w' = repeat EvRecognize n ++ trace w /\
               ocr_script (env w') = drop n (ocr_script (env w)) /\
               (n <= S len)%nat /\
               (ok' = true ->
                  attempt_passes o (text', conf') /\
                  In (text', conf') (ocr_script (env w)) /\
                  exists s, text' = Some s /\ s <> "") /\
               (ok' = false -> attempt_fails o (text', conf') /\ n = S len)).
    { exists text2, conf2, ok2, w2, (S n2).
      split; [exact Hrun|]. split.
      { rewrite Ht2, Ht1. cbn [repeat]. now rewrite repeat_shift. }
      split.
      { rewrite Hs2, Hs1. now rewrite drop_drop. }
      split; [lia|]. split.
      - intros Hok. destruct (Hok2 Hok) as (Hp & Hin & Hs).
        split; [exact Hp|]. split; [|exact Hs]. now apply Hnext.
      - intros Hko. destruct (Hko2 Hko) as (Hf & Hn). split; [exact Hf|lia]. }
    assert (Hstop : forall (ok' : bool),
               (ok' = true -> attempt_passes o (text, conf)) ->
               (ok' = false -> attempt_fails o (text, conf) /\ len = 0%nat) ->
               exists text' conf' (ok'' : bool) w' (n : nat),
                 ret (text, conf, ok') w1 = (Ret (text', conf', ok''), w') /\
                 trace w' = repeat EvRecognize n ++ trace w /\
                 ocr_script (env w') = drop n (ocr_script (env w)) /\
                 (n <= S len)%nat /\
                 (ok'' = true ->
                    attempt_passes o (text', conf') /\
                    In (text', conf') (ocr_script (env w)) /\
                    exists s, text' = Some s /\ s <> "") /\
                 (ok'' = false -> attempt_fails o (text', conf') /\ n = S len)).
    { intros ok' Hyes Hno. exists text, conf, ok', w1, 1%nat.
      split; [reflexivity|]. split; [exact Ht1|]. split; [exact Hs1|].
      split; [lia|]. split.
      - intros Hok. specialize (Hyes Hok). split; [exact Hyes|].
        apply (attempt_passes_read o (text, conf) _ Hyes Hread).
      - intros Hko. destruct (Hno Hko) as [Hf Hl]. split; [exact Hf|lia]. }
    destruct (num_ltb conf (confidence_threshold o)) eqn:Hlow.
    + destruct (i <? attempts - 1) eqn:Hmore; [exact Hgo|].
      apply Hstop; [discriminate|]. intros _. split; [now left|].
      apply Z.ltb_ge in Hmore. lia.
    + destruct (validate_card_number o text) eqn:Hvalid; cbn [negb].
      * apply Hstop; [|discriminate]. intros _. now split.
      * destruct (i <? attempts - 1) eqn:Hmore; [exact Hgo|].
        apply Hstop; [discriminate|]. intros _. split; [now right|].
        apply Z.ltb_ge in Hmore. lia.
Qed.

(** X8. Whatever the engine reads, the gate returns; a reading returned
    with [True] passes both checks, was really read from the engine, and
    carries a text that is neither [None] nor empty; a reading returned
    with [False] fails a check.  The engine is run at most [attempts]
    times (never for [attempts <= 0]), each run taking one reading, and a
    rejection is only given after all [attempts] runs. *)
Theorem gate_sound_and_bounded (o : OCRRecognizer) (retry : bool) (w : state) :
  let attempts := if retry then max_retry o else 1 in
  exists text conf (ok : bool) w' (n : nat),
    recognize_card_number o retry w = (Ret (text, conf, ok), w') /\
    trace w' = repeat EvRecognize n ++ trace w /\
    ocr_script (env w') = drop n (ocr_script (env w)) /\
    (n <= Z.to_nat attempts)%nat /\
    (ok = true ->
       attempt_passes o (text, conf) /\ In (text, conf) (ocr_script (env w)) /\
       exists s, text = Some s /\ s <> "") /\
    (ok = false -> attempt_fails o (text, conf) /\ n = Z.to_nat attempts).
Proof.
  intros attempts. unfold recognize_card_number. fold attempts.
  destruct (Z.le_gt_cases attempts 0) as [Hle|Hgt].
  - rewrite seqZ_nil by lia. cbn [recognize_attempts].
    exists None, (zn 0), false, w, 0%nat.
    split; [reflexivity|]. split; [reflexivity|]. split; [reflexivity|].
    split; [lia|]. split; [discriminate|]. intros _. split; [now right|lia].
  - assert (Hlen : 0 + Z.of_nat (Z.to_nat attempts) = attempts) by lia.
    pose proof (recognize_attempts_run o attempts (Z.to_nat attempts) 0 w Hlen)
      as Hrun.
    rewrite Z2Nat.id in Hrun by lia. exact Hrun.
Qed.

(** ** The card number pattern *)

Lemma card_char_not_newline (a : Ascii.ascii) :
  card_char a = true -> (Ascii.nat_of_ascii a =? 10)%nat = false.
Proof.
  unfold card_char. intros H. destruct (Ascii.nat_of_ascii a =? 10)%nat eqn:E;
    [|reflexivity].
  apply Nat.eqb_eq in E. rewrite E in H. discriminate H.
Qed.

Lemma is_newline (a : Ascii.ascii) :
  (Ascii.nat_of_ascii a =? 10)%nat = true -> a = newline.
Proof.
  intros H. apply Nat.eqb_eq in H. unfold newline. rewrite <- H.
  symmetry. apply Ascii.ascii_nat_embedding.
Qed.

Lemma card_chars_body (body : string) :
  Forall (fun a => card_char a = true) (String.list_ascii_of_string body) ->
  card_chars body = Some (String.length body) /\
  card_chars (body +:+ String newline "") = Some (String.length body).
Proof.
  induction body as [|a body IH]; intros Hall.
  - split; reflexivity.
  - cbn [String.list_ascii_of_string] in Hall.
    inversion Hall as [|? ? Ha Hrest]; subst.
    destruct (IH Hrest) as [IH1 IH2]. split.
    + destruct body as [|b body].
      * cbn. now rewrite Ha.
      * change (card_chars (String a (String b body)))
          with (if card_char a then S <$> card_chars (String b body) else None).
        rewrite Ha, IH1. reflexivity.
    + change (String a body +:+ String newline "")
        with (String a (body +:+ String newline "")).
      destruct (body +:+ String newline "") as [|b rest] eqn:Eb.
      * destruct body; discriminate Eb.
      * change (card_chars (String a (String b rest)))
          with (if card_char a then S <$> card_chars (String b rest) else None).
        rewrite Ha, IH2. reflexivity.
Qed.

Lemma card_chars_inv (s : string) :
  forall n, card_chars s = Some n ->
  exists body,
    Forall (fun a => card_char a = true) (String.list_ascii_of_string body) /\
    String.length body = n /\
    (s = body \/ s = body +:+ String newline "").
Proof.
  induction s as [|a s IH]; intros n H.
  - injection H as <-. exists "". split; [constructor|]. split; [reflexivity|].
    now left.
  - destruct s as [|b s].
    + cbn in H. destruct (card_char a) eqn:Ha.
      * injection H as <-. exists (String a "").
        split; [repeat constructor; exact Ha|]. split; [reflexivity|]. now left.
      * destruct (Ascii.nat_of_ascii a =? 10)%nat eqn:Hnl; [|discriminate H].
        injection H as <-. apply is_newline in Hnl. subst a.
        exists "". split; [constructor|]. split; [reflexivity|]. now right.
    + change (card_chars (String a (String b s)))
        with (if card_char a then S <$> card_chars (String b s) else None) in H.
      destruct (card_char a) eqn:Ha; [|discriminate H].
      destruct (card_chars (String b s)) as [m|] eqn:Hm; [|discriminate H].
      injection H as <-.
      destruct (IH m eq_refl) as (body & Hall & Hlen & Hs).
      exists (String a body). split; [constructor; assumption|].
      split; [cbn; now rewrite Hlen|].
      destruct Hs as [Hs|Hs]; rewrite Hs; [now left|now right].
Qed.

(** X9. With the default pattern, [validate_card_number] accepts exactly
    the card codes -- 5 to 15 characters, each an upper-case letter, a digit
    or a hyphen -- and such a code followed by one final newline (which [$]
    lets through); [None] and the empty text are always turned down. *)
Theorem default_pattern_accepts_card_codes (o : OCRRecognizer)
    (text : option string) :
  card_number_pattern o = default_card_number_pattern ->
  validate_card_number o text = true <->
  exists body,
    card_code body /\
    (text = Some body \/ text = Some (body +:+ String newline "")).
Proof.
  intros Hpat. unfold validate_card_number. rewrite Hpat.
  assert (Hspec : forall s,
             default_card_number_pattern s = true <->
             exists body, card_code body /\
                          (s = body \/ s = body +:+ String newline "")).
  { intros s. unfold default_card_number_pattern, card_code. split.
    - destruct (card_chars s) as [n|] eqn:Hn; [|discriminate].
      intros Hrange. apply andb_true_iff in Hrange. destruct Hrange as [H5 H15].
      apply Nat.leb_le in H5, H15.
      destruct (card_chars_inv s n Hn) as (body & Hall & Hlen & Hs).
      exists body. split; [split; [exact Hall|lia]|exact Hs].
    - intros (body & [Hall Hlen] & Hs).
      destruct (card_chars_body body Hall) as [H1 H2].
      destruct Hs as [-> | ->]; [rewrite H1|rewrite H2];
        apply andb_true_iff; split; apply Nat.leb_le; lia. }
  destruct text as [s|].
  - destruct s as [|a s].
    + split; [discriminate|].
      intros (body & [_ Hlen] & [Hs|Hs]); injection Hs as Hs;
        destruct body; cbn in Hlen; try lia; discriminate Hs.
    + rewrite Hspec. split.
      * intros (body & Hcode & [Hs|Hs]); exists body; (split; [exact Hcode|]);
          rewrite Hs; [now left|now right].
      * intros (body & Hcode & [Hs|Hs]); exists body; (split; [exact Hcode|]);
          injection Hs as Hs; [now left|now right].
  - split; [discriminate|]. intros (body & _ & [Hs|Hs]); discriminate Hs.
Qed.

Lemma default_pattern_accepts_card_codes_witness :
  validate_card_number sample_ocr (Some "ABC-123") = true <->
  exists body,
    card_code body /\
    (Some "ABC-123" = Some body \/
     Some "ABC-123" = Some (body +:+ String newline "")).
Proof.
  apply (default_pattern_accepts_card_codes sample_ocr (Some "ABC-123")).
  reflexivity.
Defined.

(** ** Cleaning a reading *)

Lemma to_upper_space (a : Ascii.ascii) : is_space (to_upper a) = is_space a.
Proof. destruct a as [[] [] [] [] [] [] [] []]; vm_compute; reflexivity. Qed.

Lemma to_upper_lower (a : Ascii.ascii) : is_lower (to_upper a) = false.
Proof. destruct a as [[] [] [] [] [] [] [] []]; vm_compute; reflexivity. Qed.

Lemma to_upper_twice (a : Ascii.ascii) : to_upper (to_upper a) = to_upper a.
Proof. destruct a as [[] [] [] [] [] [] [] []]; vm_compute; reflexivity. Qed.

Lemma newline_is_space (a : Ascii.ascii) :
  is_space a = false -> (Ascii.nat_of_ascii a =? 10)%nat = false.
Proof. destruct a as [[] [] [] [] [] [] [] []]; vm_compute; congruence. Qed.

Lemma remove_spaces_lstrip (l : list Ascii.ascii) :
  remove_spaces (lstrip l) = remove_spaces l.
Proof.
  induction l as [|a l IH]; [reflexivity|]. cbn [lstrip].
  destruct (is_space a) eqn:Ha; [|reflexivity].
  rewrite IH. unfold remove_spaces. cbn [List.filter]. now rewrite Ha.
Qed.

Lemma remove_spaces_rev (l : list Ascii.ascii) :
  remove_spaces (rev l) = rev (remove_spaces l).
Proof. apply List.filter_rev. Qed.

Lemma remove_spaces_strip (l : list Ascii.ascii) :
  remove_spaces (strip l) = remove_spaces l.
Proof.
  unfold strip, rstrip.
  rewrite remove_spaces_rev, remove_spaces_lstrip, remove_spaces_rev.
  rewrite rev_involutive. apply remove_spaces_lstrip.
Qed.

Lemma remove_spaces_none (l : list Ascii.ascii) :
  Forall (fun a => is_space a = false) (remove_spaces l).
Proof.
  induction l as [|a l IH]; [constructor|].
  unfold remove_spaces. cbn [List.filter].
  destruct (is_space a) eqn:Ha; cbn [negb]; [exact IH|].
  constructor; [exact Ha|exact IH].
Qed.

Lemma remove_spaces_clean (l : list Ascii.ascii) :
  Forall (fun a => is_space a = false) l -> remove_spaces l = l.
Proof.
  induction 1 as [|a l Ha Hl IH]; [reflexivity|].
  unfold remove_spaces. cbn [List.filter]. rewrite Ha. cbn [negb].
  f_equal. exact IH.
Qed.

Lemma clean_text_chars (text : string) :
  String.list_ascii_of_string (_clean_text text) =
  List.map to_upper (remove_spaces (String.list_ascii_of_string text)).
Proof.
  unfold _clean_text. cbv zeta.
  rewrite String.list_ascii_of_string_of_list_ascii.
  now rewrite remove_spaces_strip.
Qed.

Lemma upper_no_space (l : list Ascii.ascii) :
  Forall (fun a => is_space a = false) l ->
  Forall (fun a => is_space a = false /\ is_lower a = false) (List.map to_upper l).
Proof.
  induction 1 as [|a l Ha Hl IH]; [constructor|].
  cbn [List.map]. constructor; [|exact IH].
  split; [now rewrite to_upper_space|apply to_upper_lower].
Qed.

(** A text without white space holds no newline, so the pattern sees it as
    it is. *)
Lemma card_chars_no_space (s : string) :
  Forall (fun a => is_space a = false) (String.list_ascii_of_string s) ->
  card_chars s =
  if forallb card_char (String.list_ascii_of_string s)
  then Some (String.length s) else None.
Proof.
  induction s as [|a s IH]; intros Hall; [reflexivity|].
  cbn [String.list_ascii_of_string] in Hall.
  inversion Hall as [|? ? Ha Hrest]; subst.
  specialize (IH Hrest).
  destruct s as [|b s].
  - cbn. destruct (card_char a); [reflexivity|].
    now rewrite (newline_is_space a Ha).
  - change (card_chars (String a (String b s)))
      with (if card_char a then S <$> card_chars (String b s) else None).
    rewrite IH. cbn [String.list_ascii_of_string forallb String.length].
    destruct (card_char a); [|reflexivity]. cbn [andb].
    now destruct (card_char b && forallb card_char (String.list_ascii_of_string s)).
Qed.

Lemma forallb_upper (l : list Ascii.ascii) :
  forallb card_char (List.map to_upper l) =
  forallb (fun a => card_char (to_upper a)) l.
Proof.
  induction l as [|a l IH]; [reflexivity|]. cbn. now rewrite IH.
Qed.

(** X10. On a text of characters below 128, [_clean_text] deletes every
    white space character (the leading and trailing ones that [strip] takes
    are among them) and puts the rest in upper case: the result holds no
    white space and no lower-case letter, and cleaning it again changes
    nothing.  With the default pattern the cleaned text is accepted exactly
    when the text, white space apart, has 5 to 15 characters, each a letter
    of either case, a digit or a hyphen. *)
Theorem clean_text_properties (text : string) :
  ascii_text text ->
  let kept := remove_spaces (String.list_ascii_of_string text) in
  String.list_ascii_of_string (_clean_text text) = List.map to_upper kept /\
  Forall (fun a => is_space a = false /\ is_lower a = false)
    (String.list_ascii_of_string (_clean_text text)) /\
  _clean_text (_clean_text text) = _clean_text text /\
  (default_card_number_pattern (_clean_text text) = true <->
   (5 <= length kept <= 15)%nat /\
   Forall (fun a => card_char (to_upper a) = true) kept).
Proof.
  intros _ kept.
  pose proof (clean_text_chars text) as Hchars. fold kept in Hchars.
  pose proof (remove_spaces_none (String.list_ascii_of_string text)) as Hkept.
  fold kept in Hkept.
  pose proof (upper_no_space kept Hkept) as Hupper.
  assert (Hnospace : Forall (fun a => is_space a = false)
                       (String.list_ascii_of_string (_clean_text text))).
  { rewrite Hchars. eapply Forall_impl; [exact Hupper|]. now intros a [Ha _]. }
  split; [exact Hchars|]. split; [now rewrite Hchars|]. split.
  - rewrite <- (String.string_of_list_ascii_of_string (_clean_text text)) at 2.
    rewrite <- (String.string_of_list_ascii_of_string (_clean_text (_clean_text text))).
    f_equal. rewrite (clean_text_chars (_clean_text text)).
    rewrite (remove_spaces_clean _ Hnospace). rewrite Hchars.
    rewrite List.map_map. apply List.map_ext. apply to_upper_twice.
  - unfold default_card_number_pattern.
    rewrite (card_chars_no_space _ Hnospace).
    assert (Hlen : String.length (_clean_text text) = length kept).
    { rewrite <- (String.string_of_list_ascii_of_string (_clean_text text)).
      rewrite Hchars. generalize kept. clear.
      induction kept as [|a l IH]; [reflexivity|]. cbn. now rewrite IH. }
    rewrite Hchars, Hlen. rewrite forallb_upper. split.
    + destruct (forallb (fun a => card_char (to_upper a)) kept) eqn:Hall;
        [|discriminate].
      intros Hrange. apply andb_true_iff in Hrange. destruct Hrange as [H5 H15].
      apply Nat.leb_le in H5, H15. split; [lia|].
      apply Forall_forall. intros a Ha.
      rewrite forallb_forall in Hall. apply Hall. now apply list_elem_of_In.
    + intros [Hrange Hall].
      assert (Hb : forallb (fun a => card_char (to_upper a)) kept = true).
      { apply forallb_forall. intros a Ha. rewrite Forall_forall in Hall.
        apply Hall. now apply list_elem_of_In. }
      rewrite Hb. apply andb_true_iff. split; apply Nat.leb_le; lia.
Qed.

Lemma clean_text_properties_witness :
  ascii_text " abc -123 " /\
  _clean_text (_clean_text " abc -123 ") = _clean_text " abc -123 " /\
  default_card_number_pattern (_clean_text " abc -123 ") = true.
Proof.
  assert (Hascii : ascii_text " abc -123 ").
  { unfold ascii_text. cbn [String.list_ascii_of_string].
    repeat (constructor; [vm_compute; lia|]). constructor. }
  split; [exact Hascii|].
  destruct (clean_text_properties " abc -123 " Hascii) as (_ & _ & Hidem & Hok).
  split; [exact Hidem|].
  apply Hok. split; [vm_compute; lia|].
  cbn. repeat (constructor; [reflexivity|]). constructor.
Defined.

(** ** The books, however a cycle ends *)

Ltac ledger_done :=
  unfold ledger; open_books; eexists;
  (split;
   [ repeat match goal with
            | Hr : db_rows _ = _ |- _ => rewrite Hr; clear Hr
            end;
     first [reflexivity | symmetry; apply app_nil_r]
   | cbn [length]; lia ]).

Tactic Notation "ledger_step" hyp(H) "as" ident(a) :=
  match type of H with
  | bind ?m ?k ?w = _ =>
      let K := fresh "K" in
      assert (K : keeps books m) by keeps_all;
      specialize (K w);
      unfold bind at 1 in H;
      destruct (m w) as [[a|?| |] ?];
      cbn [snd] in K; cbv beta iota in H;
      [|injection H as <- <-; ledger_done ..]
  end.

Lemma try_ledger (self : CardSortingRobot) (w w' : state) (r : res cycle_exit) :
  process_single_card_try self w = (r, w') -> ledger w w'.
Proof.
  intros H. unfold process_single_card_try in H.
  ledger_step H as picked. destruct picked; cbn [negb] in H;
    [|injection H as <- <-; ledger_done].
  ledger_step H as at_scan. destruct at_scan; cbn [negb] in H;
    [|injection H as <- <-; ledger_done].
  ledger_step H as slept. ledger_step H as captured.
  destruct captured as [img|]; [|injection H as <- <-; ledger_done].
  ledger_step H as original_path. ledger_step H as roi_image.
  ledger_step H as processed_image. ledger_step H as processed_path.
  ledger_step H as reading. destruct reading as [[number conf] ok].
  unfold bind at 1 in H. rewrite count_recognition in H.
  unfold bind at 1 in H.
  destruct ok.
  - destruct number as [n|]; [|injection H as <- <-; ledger_done].
    rewrite insert_card_some in H.
    match type of H with context [lib_call ?v] =>
      pose proof (keeps_lib_call books framed_books v) as Kl;
      destruct (lib_call v) as [[[]|e| |] s8]; cbn [snd] in Kl;
      [|injection H as <- <-; ledger_done ..]
    end.
    ledger_step H as placed. destruct placed; cbn [negb] in H;
      [|injection H as <- <-; ledger_done].
    ledger_step H as homed. destruct homed; cbn [negb] in H;
      [|injection H as <- <-; ledger_done].
    unfold bind at 1 in H. unfold modify at 1 in H.
    unfold bind at 1 in H. unfold get at 1 in H.
    ledger_step H as reported. injection H as <- <-. ledger_done.
  - destruct number as [n|]; [|injection H as <- <-; ledger_done].
    rewrite insert_card_some in H.
    match type of H with context [lib_call ?v] =>
      pose proof (keeps_lib_call books framed_books v) as Kl;
      destruct (lib_call v) as [[[]|e| |] s8]; cbn [snd] in Kl;
      [|injection H as <- <-; ledger_done ..]
    end.
    ledger_step H as placed. destruct placed; cbn [negb] in H;
      [|injection H as <- <-; ledger_done].
    ledger_step H as homed. destruct homed; cbn [negb] in H;
      [|injection H as <- <-; ledger_done].
    unfold bind at 1 in H. unfold modify at 1 in H.
    unfold bind at 1 in H. unfold get at 1 in H.
    ledger_step H as reported. injection H as <- <-. ledger_done.
Qed.

Lemma process_single_card_state (self : CardSortingRobot) (w : state) :
  snd (process_single_card self w) = snd (process_single_card_try self w).
Proof.
  unfold process_single_card, process_single_card_exit, try_except_Exception, bind.
  destruct (process_single_card_try self w) as [[c|e| |] w1]; try reflexivity.
  destruct (is_Exception e); reflexivity.
Qed.

Lemma process_single_card_ledger (self : CardSortingRobot) (w : state) :
  ledger w (snd (process_single_card self w)).
Proof.
  rewrite process_single_card_state.
  destruct (process_single_card_try self w) as [r w1] eqn:E.
  exact (try_ledger self w w1 r E).
Qed.

(** X11. However a cycle ends -- success, a failed step, an exception
    caught on the way -- [process_single_card] returns a boolean and has
    kept the books in order: rows are only appended to the table, at most
    one; neither recognition counter goes down and between them they rise
    by at most one, by one whenever a row is appended; [total_processed]
    rises by at most one, and only together with an appended row. *)
Theorem every_cycle_keeps_the_ledger (self : CardSortingRobot) (w : state) :
  exists b w',
    process_single_card self w = (Ret b, w') /\
    exists new,
      db_rows w' = db_rows w ++ new /\
      success_count w <= success_count w' /\
      failed_count w <= failed_count w' /\
      Z.of_nat (length new) <=
        (success_count w' - success_count w) + (failed_count w' - failed_count w) /\
      (success_count w' - success_count w) + (failed_count w' - failed_count w) <= 1 /\
      total_processed w <= total_processed w' /\
      total_processed w' <= total_processed w + Z.of_nat (length new).
Proof.
  pose proof (process_single_card_ledger self w) as Hledger.
  destruct (returns_process_single_card_exit self w) as [c Hc].
  destruct (process_single_card_exit self w) as [rc w'] eqn:E.
  cbn [fst] in Hc. subst rc.
  apply process_single_card_of_exit in E. rewrite E in Hledger.
  exists (cycle_success c), w'. split; [exact E|exact Hledger].
Qed.

(** ** The card limit *)

Lemma keeps_books_cleanup (self : CardSortingRobot) : keeps books (cleanup self).
Proof.
  unfold cleanup. apply keeps_bind; [intros w; reflexivity|]. keeps_all.
Qed.

Lemma run_iteration_total (self : CardSortingRobot) (w : state) :
  0 < max_cards self ->
  total_processed w <= max_cards self ->
  total_processed w <= total_processed (snd (run_iteration self w)) /\
  total_processed (snd (run_iteration self w)) <= max_cards self.
Proof.
  intros Hmax Hle. unfold run_iteration.
  set (policy := if stop_on_error self then ret LoopBreak
                 else if auto_resume self then sleep (zn 2) ;;; ret LoopContinue
                 else input ;;; ret LoopContinue).
  assert (Hpolicy : keeps books policy) by (subst policy; keeps_all).
  unfold bind, get.
  destruct ((0 <? max_cards self) && (max_cards self <=? total_processed w))
    eqn:Hlimit.
  - cbn [snd ret]. lia.
  - assert (Hlt : total_processed w < max_cards self).
    { apply andb_false_iff in Hlimit. destruct Hlimit as [H|H].
      - apply Z.ltb_ge in H. lia.
      - apply Z.leb_gt in H. lia. }
    pose proof (process_single_card_ledger self w) as Hledger.
    destruct (process_single_card self w) as [[b|e| |] w1]; cbn [snd] in *;
      destruct Hledger as (new & _ & _ & _ & Hn & H1 & Hlo & Hhi);
      try lia.
    destruct b; cbn [negb snd ret]; [lia|].
    specialize (Hpolicy w1). unfold books in Hpolicy.
    injection Hpolicy as Ht _ _ _. rewrite Ht. lia.
Qed.

Lemma run_loop_total (self : CardSortingRobot) (fuel : nat) :
  forall w,
    0 < max_cards self ->
    total_processed w <= max_cards self ->
    total_processed w <= total_processed (snd (run_loop self fuel w)) /\
    total_processed (snd (run_loop self fuel w)) <= max_cards self.
Proof.
  induction fuel as [|n IH]; intros w Hmax Hle; cbn [run_loop].
  - cbn [snd]. lia.
  - unfold bind.
    destruct (run_iteration_total self w Hmax Hle) as [Hlo Hhi].
    destruct (run_iteration self w) as [[[]|e| |] w1]; cbn [snd ret] in *;
      try lia.
    destruct (IH w1 Hmax Hhi) as [Hlo2 Hhi2]. lia.
Qed.

(** X12. With a card limit set ([max_cards > 0]) and not yet passed, a run
    never counts more cards than the limit, however long it goes on and
    however it ends, and it never counts backwards; once the limit is
    reached the loop ends at its next pass without starting a cycle. *)
Theorem run_respects_the_card_limit (self : CardSortingRobot) (fuel : nat)
    (w : state) :
  0 < max_cards self ->
  total_processed w <= max_cards self ->
  (total_processed w <= total_processed (snd (run self fuel w)) /\
   total_processed (snd (run self fuel w)) <= max_cards self) /\
  (total_processed w <= total_processed (snd (run_loop self fuel w)) /\
   total_processed (snd (run_loop self fuel w)) <= max_cards self) /\
  (total_processed w = max_cards self ->
   run_loop self (S fuel) w = (Ret tt, w)).
Proof.
  intros Hmax Hle. split; [|split].
  - unfold run, bind.
    pose proof (keeps_initialize_hardware books framed_books self w) as K0.
    destruct (initialize_hardware self w) as [[ok|e| |] w0]; cbn [snd] in *;
      unfold books in K0; injection K0 as Ht0 _ _ _; try lia.
    destruct ok; cbn [negb snd ret]; [|lia].
    unfold try_finally.
    assert (Hloop : total_processed w0 <=
                    total_processed
                      (snd (try_except_KeyboardInterrupt (run_loop self fuel)
                              (ret tt) w0)) /\
                    total_processed
                      (snd (try_except_KeyboardInterrupt (run_loop self fuel)
                              (ret tt) w0)) <= max_cards self).
    { unfold try_except_KeyboardInterrupt.
      assert (Hle0 : total_processed w0 <= max_cards self) by lia.
      pose proof (run_loop_total self fuel w0 Hmax Hle0) as Hrl.
      destruct (run_loop self fuel w0) as [[[]|e| |] w1]; cbn [snd] in *;
        try exact Hrl.
      destruct e; exact Hrl. }
    destruct (try_except_KeyboardInterrupt (run_loop self fuel) (ret tt) w0)
      as [r1 w1].
    cbn [snd] in Hloop.
    pose proof (keeps_books_cleanup self w1) as K2.
    unfold books in K2. 
    destruct r1 as [[]|e| |]; cbn [snd]; try lia;
      destruct (cleanup self w1) as [[[]|e2| |] w2]; cbn [snd] in *;
      injection K2 as Ht2 _ _ _; lia.
  - now apply run_loop_total.
  - intros Heq. cbn [run_loop]. unfold run_iteration, bind, get.
    assert (Hlimit : (0 <? max_cards self) && (max_cards self <=? total_processed w)
                     = true).
    { apply andb_true_iff. split; [apply Z.ltb_lt|apply Z.leb_le]; lia. }
    now rewrite Hlimit.
Qed.

Lemma run_respects_the_card_limit_witness :
  let w := fresh (good_card_env []) in
  total_processed (snd (run one_card_robot 5 w)) <= 1 /\
  total_processed (snd (run one_card_robot 5 w)) = 1.
Proof.
  intros w. split.
  - apply (run_respects_the_card_limit one_card_robot 5 w); vm_compute;
      first [reflexivity | discriminate].
  - vm_compute. reflexivity.
Defined.

(** ** Bringing the hardware up and down *)

Lemma keeps_links_sleep (d : pynum) : keeps links (sleep d).
Proof.
  intros w. unfold sleep. destruct d; try reflexivity.
  destruct (num_ltb _ _); reflexivity.
Qed.

Lemma keeps_links_getitem (d : gmap string pynum) (k : string) :
  keeps links (getitem d k).
Proof. intros w. unfold getitem. destruct (d !! k); reflexivity. Qed.

Lemma keeps_links_send_command (r : RobotArm) (c : command) :
  keeps links (send_command r c).
Proof.
  intros w. open_state w. unfold send_command.
  destruct (simulation_mode r); [reflexivity|]. run_prims.
  destruct conn; [|reflexivity]. destruct port; [|reflexivity].
  destruct ss as [|[] [|[] rest]]; reflexivity.
Qed.

Lemma keeps_links_pop_lib : keeps links pop_lib.
Proof. intros w. unfold pop_lib. destruct (lib_script (env w)); reflexivity. Qed.

#[export] Hint Resolve keeps_links_sleep keeps_links_getitem
  keeps_links_send_command keeps_links_pop_lib : keeps.

Lemma keeps_links_move_to_position (r : RobotArm) (p : Position) (wait : bool) :
  keeps links (move_to_position r p wait).
Proof. unfold move_to_position, move_to_coordinates. keeps_all. Qed.

Lemma keeps_links_home (r : RobotArm) : keeps links (home r).
Proof.
  unfold home. apply keeps_bind; [apply keeps_links_move_to_position|].
  intros success. keeps_all. intros w. reflexivity.
Qed.

Lemma camera_open_done (w w' : state) :
  camera_open w = (Ret true, w') ->
  camera_opened w' = true /\ sent w' = sent w.
Proof.
  open_state w. unfold camera_open. run_prims.
  destruct camera_opened0.
  - intros H. injection H as <-. split; reflexivity.
  - destruct ls as [|[] ls]; intros H; try discriminate H;
      injection H as <-; split; reflexivity.
Qed.

Lemma connect_done (r : RobotArm) (w w' : state) :
  connect r w = (Ret true, w') ->
  is_connected w' = true /\ camera_opened w' = camera_opened w /\
  sent w' = sent w.
Proof.
  open_state w. unfold connect.
  destruct (simulation_mode r); run_prims.
  - intros H. injection H as <-. repeat split.
  - destruct ls as [|[] ls]; intros H; try discriminate H;
      injection H as <-; repeat split.
Qed.

(** X13. When [initialize_hardware] answers [True] the camera is open, the
    arm is connected and recorded at home, and the one command sent on the
    way is the move to the configured home pose, a pose within the
    workspace limits.  When the camera cannot be opened the arm is left
    alone: no connection is attempted and nothing is sent. *)
Theorem initialize_hardware_postconditions (self : CardSortingRobot)
    (w w' : state) :
  (initialize_hardware self w = (Ret true, w') ->
   camera_opened w' = true /\
   is_connected w' = true /\
   current_position w' = Some HOME /\
   exists base,
     pose_command (robot self) HOME = Some base /\
     command_within (robot self) base = true /\
     sent w' = sent w ++ [base]) /\
  (camera_open w = (Ret false, w') ->
   initialize_hardware self w = (Ret false, w') /\
   is_connected w' = is_connected w /\ serial_open w' = serial_open w /\
   sent w' = sent w).
Proof.
  split.
  - unfold initialize_hardware. intros H.
    must_succeed H E1. apply camera_open_done in E1. destruct E1 as [Hcam S1].
    must_succeed H E2. apply connect_done in E2.
    destruct E2 as (Hconn & Hcam2 & S2).
    unfold bind at 1 in H.
    pose proof (keeps_links_home (robot self) s0) as Klinks.
    destruct (home (robot self) s0) as [[[]|?| |] s1] eqn:E3;
      try discriminate H.
    apply home_done in E3. destruct E3 as (base & Hbase & Hin & S3 & Hpos).
    cbn [negb ret] in H. injection H as <-.
    cbn [snd] in Klinks. unfold links in Klinks.
    injection Klinks as Kconn _ _ Kcam.
    split; [congruence|]. split; [congruence|]. split; [exact Hpos|].
    exists base. split; [exact Hbase|]. split; [exact Hin|].
    rewrite S3, S2, S1. reflexivity.
  - intros Hcam. unfold initialize_hardware, bind. rewrite Hcam.
    split; [reflexivity|].
    revert Hcam. open_state w. unfold camera_open. run_prims.
    destruct camera_opened0; [discriminate|].
    destruct ls as [|[] ls]; intros H; try discriminate H;
      injection H as <-; repeat split.
Qed.

Lemma initialize_hardware_postconditions_witness :
  let w := fresh quiet_env in
  let w' := snd (initialize_hardware sample_robot w) in
  camera_opened w' = true /\
  is_connected w' = true /\
  current_position w' = Some HOME /\
  exists base,
    pose_command sample_arm HOME = Some base /\
    command_within sample_arm base = true /\
    sent w' = sent w ++ [base].
Proof.
  intros w w'.
  apply (initialize_hardware_postconditions sample_robot w w').
  vm_compute. reflexivity.
Defined.

Lemma cleanup_sends_nothing (self : CardSortingRobot) :
  emits (fun e => negb (is_transport e)) (cleanup self).
Proof.
  unfold cleanup, print_statistics, get_statistics, camera_close, disconnect,
    database_close, lib_call.
  emits_all.
Qed.

Lemma cleanup_releases (self : CardSortingRobot) (w w' : state) :
  cleanup self w = (Ret tt, w') ->
  camera_cap w = true ->
  simulation_mode (robot self) = true \/ serial_open w = true ->
  camera_opened w' = false /\ is_connected w' = false /\
  (simulation_mode (robot self) = false -> serial_open w' = false).
Proof.
  open_state w. cbn [camera_cap serial_open].
  unfold cleanup, print_statistics, get_statistics, camera_close, disconnect,
    database_close.
  intros H -> Hport.
  destruct (simulation_mode (robot self)) eqn:Hsim.
  - revert H. run_prims.
    destruct (0 <? total_processed0); [destruct (total_processed0 =? 0)|];
      try discriminate;
      destruct ls as [|[] [|[] [|[] ls]]]; intros H; try discriminate H;
      injection H as <-; repeat split; discriminate.
  - destruct Hport as [Hport|Hport]; [discriminate|]. subst port.
    revert H. run_prims.
    destruct (0 <? total_processed0); [destruct (total_processed0 =? 0)|];
      try discriminate;
      destruct ls as [|[] [|[] [|[] [|[] ls]]]]; intros H; try discriminate H;
      injection H as <-; repeat split.
Qed.

(** X14. [cleanup] sends no command to the arm and writes nothing on the
    serial line (the arm is not sent home at shutdown), and it leaves the
    counters and the table as they are.  When it returns normally, with a
    camera that had been created and a port that was open (or in simulation
    mode), the camera is closed and the arm is disconnected. *)
Theorem cleanup_releases_the_devices (self : CardSortingRobot) (w : state) :
  (exists evs,
     trace (snd (cleanup self w)) = evs ++ trace w /\
     Forall (fun e => is_transport e = false) evs) /\
  books (snd (cleanup self w)) = books w /\
  (forall w',
     cleanup self w = (Ret tt, w') ->
     camera_cap w = true ->
     simulation_mode (robot self) = true \/ serial_open w = true ->
     camera_opened w' = false /\ is_connected w' = false /\
     (simulation_mode (robot self) = false -> serial_open w' = false)).
Proof.
  split; [|split].
  - destruct (cleanup_sends_nothing self w) as (evs & Ht & Hall).
    exists evs. split; [exact Ht|].
    eapply Forall_impl; [exact Hall|]. intros e He.
    now apply negb_true_iff in He.
  - apply keeps_books_cleanup.
  - intros w'. apply cleanup_releases.
Qed.

Lemma cleanup_releases_the_devices_witness :
  let w := snd (initialize_hardware sample_robot (fresh quiet_env)) in
  let w' := snd (cleanup sample_robot w) in
  camera_opened w = true /\ is_connected w = true /\
  camera_opened w' = false /\ is_connected w' = false /\
  (simulation_mode (robot sample_robot) = false -> serial_open w' = false).
Proof.
  intros w w'.
  split; [vm_compute; reflexivity|]. split; [vm_compute; reflexivity|].
  destruct (cleanup_releases_the_devices sample_robot w) as (_ & _ & Hrelease).
  apply (Hrelease w').
  - vm_compute. reflexivity.
  - vm_compute. reflexivity.
  - right. vm_compute. reflexivity.
Defined.

(** ** A pose without a coordinate *)

Lemma move_to_position_missing_coordinate (r : RobotArm) (p : Position)
    (pos : gmap string pynum) (wait : bool) (w : state) (k : string) :
  positions r !! Position_value p = Some pos ->
  pos <> ∅ ->
  (k = "x" /\ pos !! "x" = None \/
   k = "y" /\ is_Some (pos !! "x") /\ pos !! "y" = None \/
   k = "z" /\ is_Some (pos !! "x") /\ is_Some (pos !! "y") /\ pos !! "z" = None) ->
  move_to_position r p wait w = (Raise (KeyError k), w).
Proof.
  intros Hpos Hne Hk. unfold move_to_position. rewrite Hpos.
  rewrite bool_decide_eq_false_2 by exact Hne.
  unfold getitem, bind.
  destruct Hk as [[-> Hx] | [[-> [[x Hx] Hy]] | [-> [[x Hx] [[y Hy] Hz]]]]].
  - now rewrite Hx.
  - now rewrite Hx, Hy.
  - now rewrite Hx, Hy, Hz.
Qed.

(** X15. A pose that is configured but lacks x, y or z makes
    [move_to_position] raise [KeyError] for the first missing coordinate,
    nothing being sent.  Inside a cycle the exception is caught: a card
    pile without a coordinate makes [process_single_card] answer [False]
    with the machine untouched.  During initialisation nothing catches
    it: whatever [initialize_hardware] raises leaves [run] at once, before
    the loop and without any cleanup. *)
Theorem incomplete_pose_raises_key_error :
  (forall r p pos wait w k,
     positions r !! Position_value p = Some pos ->
     pos <> ∅ ->
     (k = "x" /\ pos !! "x" = None \/
      k = "y" /\ is_Some (pos !! "x") /\ pos !! "y" = None \/
      k = "z" /\ is_Some (pos !! "x") /\ is_Some (pos !! "y") /\
        pos !! "z" = None) ->
     move_to_position r p wait w = (Raise (KeyError k), w)) /\
  (forall self pos w,
     positions (robot self) !! "card_pile" = Some pos ->
     pos <> ∅ -> pos !! "x" = None ->
     process_single_card self w = (Ret false, w)) /\
  (forall self fuel w e w1,
     initialize_hardware self w = (Raise e, w1) ->
     run self fuel w = (Raise e, w1) /\ cleanups w1 = cleanups w).
Proof.
  split; [|split].
  - intros r p pos wait w k Hpos Hne Hk.
    now apply (move_to_position_missing_coordinate r p pos).
  - intros self pos w Hpos Hne Hx.
    assert (Hmove : move_to_position (robot self) CARD_PILE true w =
                    (Raise (KeyError "x"), w)).
    { apply (move_to_position_missing_coordinate _ _ pos); [exact Hpos|exact Hne|].
      left. now split. }
    unfold process_single_card, process_single_card_exit, try_except_Exception,
      process_single_card_try, pick_card.
    unfold bind. rewrite Hmove. reflexivity.
  - intros self fuel w e w1 Hinit. split.
    + unfold run, bind. now rewrite Hinit.
    + pose proof (keeps_initialize_hardware cleanups framed_cleanups self w) as K.
      now rewrite Hinit in K.
Qed.

Lemma incomplete_pose_raises_key_error_witness :
  let w := fresh quiet_env in
  exists w1,
    initialize_hardware no_x_robot w = (Raise (KeyError "x"), w1) /\
    run no_x_robot 3 w = (Raise (KeyError "x"), w1) /\
    cleanups w1 = cleanups w.
Proof.
  intros w. exists (snd (initialize_hardware no_x_robot w)).
  assert (Hinit : initialize_hardware no_x_robot w =
                  (Raise (KeyError "x"), snd (initialize_hardware no_x_robot w)))
    by (vm_compute; reflexivity).
  split; [exact Hinit|].
  destruct incomplete_pose_raises_key_error as (_ & _ & Hrun).
  apply (Hrun no_x_robot 3%nat w _ _ Hinit).
Defined.

(** ** The operator at the prompt *)

(** X16. After a failed cycle in the manual mode (neither [stop_on_error]
    nor [auto_resume]) the operator is asked.  On Ctrl-C the interrupt is
    caught: the loop is over, [cleanup] runs, and [run] ends the way
    [cleanup] ends.  When the console is closed the [EOFError] is not
    caught: [cleanup] still runs, and [run] raises [EOFError] unless
    [cleanup] itself raises. *)
Theorem operator_at_the_prompt (self : CardSortingRobot) (w0 w w1 : state)
    (n : nat) (rest : list operator_action) (action : operator_action) :
  initialize_hardware self w0 = (Ret true, w) ->
  below_max_cards self w ->
  process_single_card self w = (Ret false, w1) ->
  stop_on_error self = false -> auto_resume self = false ->
  operator_script (env w1) = action :: rest ->
  exists w2,
    trace w2 = EvInput :: trace w1 /\
    operator_script (env w2) = rest /\
    books w2 = books w1 /\
    (action = PressCtrlC -> run self (S n) w0 = cleanup self w2) /\
    (action = CloseStdin ->
       run self (S n) w0 =
       match cleanup self w2 with
       | (Ret _, w3) => (Raise EOFError, w3)
       | other => other
       end).
Proof.
  intros Hinit Hbelow Hfail Hstop Hauto Hscript.
  assert (Hrun : run self (S n) w0 =
                 try_finally
                   (try_except_KeyboardInterrupt (run_loop self (S n)) (ret tt))
                   (cleanup self) w).
  { unfold run, bind. now rewrite Hinit. }
  rewrite Hrun. unfold try_finally, try_except_KeyboardInterrupt.
  rewrite (run_loop_failed self w w1 n Hbelow Hfail). rewrite Hstop, Hauto.
  open_state w1. cbn [env operator_script] in Hscript. subst ps.
  exists (mkState (EvInput :: t) (mkEnv ss ls cs os rest) conn port
            current_position0 camera_cap0 camera_opened0 db_rows0
            total_processed0 success_count0 failed_count0).
  split; [reflexivity|]. split; [reflexivity|]. split; [reflexivity|].
  split; intros ->; run_prims.
  - match goal with
    | |- context [cleanup self ?v] => destruct (cleanup self v) as [[[]|e| |] w3]
    end; reflexivity.
  - match goal with
    | |- context [cleanup self ?v] => destruct (cleanup self v) as [[[]|e| |] w3]
    end; reflexivity.
Qed.

Lemma operator_at_the_prompt_witness :
  let w0 := fresh (no_frame_env [PressCtrlC]) in
  let w := snd (initialize_hardware manual_robot w0) in
  let w1 := snd (process_single_card manual_robot w) in
  fst (run manual_robot 1 w0) = Ret tt /\
  exists w2,
    trace w2 = EvInput :: trace w1 /\
    run manual_robot 1 w0 = cleanup manual_robot w2.
Proof.
  intros w0 w w1.
  assert (Hinit : initialize_hardware manual_robot w0 = (Ret true, w))
    by (vm_compute; reflexivity).
  assert (Hbelow : below_max_cards manual_robot w) by reflexivity.
  assert (Hfail : process_single_card manual_robot w = (Ret false, w1))
    by (vm_compute; reflexivity).
  assert (Hscript : operator_script (env w1) = PressCtrlC :: [])
    by (vm_compute; reflexivity).
  split; [vm_compute; reflexivity|].
  destruct (operator_at_the_prompt manual_robot w0 w w1 0 [] PressCtrlC
              Hinit Hbelow Hfail eq_refl eq_refl Hscript)
    as (w2 & Htrace & _ & _ & Hctrl & _).
  exists w2. split; [exact Htrace|exact (Hctrl eq_refl)].
Defined.

(** ** Connecting and disconnecting *)

(** X17. When [connect] answers [False] the port could not be opened: the
    connection is left as it was and the two-second wait is not taken;
    when it answers [True] the arm is marked as connected (and, outside
    simulation mode, the port is open and the wait was taken).  A
    [disconnect] that returns after a successful [connect] leaves the arm
    disconnected and, outside simulation mode, the port closed; a
    [disconnect] that raises (the port would not close) leaves the arm
    marked as connected; and outside simulation mode a [disconnect] without
    an open port changes nothing. *)
Theorem connect_then_disconnect (r : RobotArm) (w : state) :
  (forall b w',
     connect r w = (Ret b, w') ->
     (b = true ->
        is_connected w' = true /\
        (simulation_mode r = false ->
           serial_open w' = true /\ trace w' = EvSleep (zn 2) :: trace w)) /\
     (b = false ->
        simulation_mode r = false /\ links w' = links w /\ trace w' = trace w)) /\
  (forall w1 w2,
     connect r w = (Ret true, w1) ->
     disconnect r w1 = (Ret tt, w2) ->
     is_connected w2 = false /\
     (simulation_mode r = false -> serial_open w2 = false)) /\
  (forall e w2, disconnect r w = (Raise e, w2) -> links w2 = links w) /\
  (simulation_mode r = false -> serial_open w = false ->
   disconnect r w = (Ret tt, with_trace (cons EvRobotDisconnect) w)).
Proof.
  split; [|split; [|split]].
  - intros b w'. open_state w. unfold connect.
    destruct (simulation_mode r); run_prims.
    + intros H. injection H as <- <-.
      split; [intros _; split; [reflexivity|discriminate]|discriminate].
    + destruct ls as [|[] ls]; intros H; injection H as <- <-;
        (split; [intros Hb|intros Hb]); try discriminate Hb;
        repeat split.
  - intros w1 w2. open_state w. unfold connect, disconnect.
    destruct (simulation_mode r) eqn:Hsim; run_prims.
    + intros H1. injection H1 as <-. run_prims.
      intros H2. injection H2 as <-. split; [reflexivity|discriminate].
    + destruct ls as [|[] ls]; intros H1; try discriminate H1;
        injection H1 as <-; run_prims;
        try (destruct ls as [|[] ls]); intros H2; try discriminate H2;
        injection H2 as <-; split; reflexivity.
  - intros e w2. open_state w. unfold disconnect.
    destruct (simulation_mode r); run_prims; [discriminate|].
    destruct port; [|discriminate].
    destruct ls as [|[] ls]; intros H; try discriminate H.
    injection H as _ <-. reflexivity.
  - intros Hsim Hport. open_state w. unfold disconnect. rewrite Hsim.
    cbn [serial_open] in Hport. subst port. reflexivity.
Qed.

Lemma connect_then_disconnect_witness :
  let w := fresh quiet_env in
  let w1 := snd (connect sample_arm w) in
  let w2 := snd (disconnect sample_arm w1) in
  is_connected w1 = true /\ is_connected w2 = false /\ serial_open w2 = false.
Proof.
  intros w w1 w2.
  destruct (connect_then_disconnect sample_arm w) as (_ & Hround & _).
  assert (H1 : connect sample_arm w = (Ret true, w1)) by (vm_compute; reflexivity).
  assert (H2 : disconnect sample_arm w1 = (Ret tt, w2)) by (vm_compute; reflexivity).
  destruct (Hround w1 w2 H1 H2) as [Hconn Hport].
  split; [vm_compute; reflexivity|]. split; [exact Hconn|].
  apply Hport. reflexivity.
Defined.

(** ** The configuration *)

Lemma split_dot_plain (key : string) : plain_key key -> split_dot key = [key].
Proof.
  unfold plain_key. induction key as [|a key IH]; intros Hplain; [reflexivity|].
  cbn [String.list_ascii_of_string] in Hplain.
  inversion Hplain as [|? ? Ha Hrest]; subst.
  cbn [split_dot]. rewrite (proj2 (Ascii.eqb_neq a dot) Ha).
  now rewrite (IH Hrest).
Qed.

Lemma split_dot_cons (key : string) : exists piece pieces, split_dot key = piece :: pieces.
Proof.
  induction key as [|a key IH]; [now exists "", []|].
  cbn [split_dot]. destruct (Ascii.eqb a dot); [eauto|].
  destruct IH as (piece & pieces & ->). eauto.
Qed.

Lemma split_dot_join (a b : string) :
  split_dot (a +:+ String dot b) = split_dot a ++ split_dot b.
Proof.
  induction a as [|c a IH]; [reflexivity|].
  change (String c a +:+ String dot b) with (String c (a +:+ String dot b)).
  cbn [split_dot]. rewrite IH.
  destruct (Ascii.eqb c dot); [reflexivity|].
  destruct (split_dot_cons a) as (piece & pieces & ->). reflexivity.
Qed.

Lemma config_walk_app (keys1 keys2 : list string) :
  forall value fallback,
    keys1 <> [] ->
    config_walk value (keys1 ++ keys2) fallback =
    match config_walk value keys1 YNone with
    | YNone => fallback
    | sub => config_walk sub keys2 fallback
    end.
Proof.
  induction keys1 as [|k keys1 IH]; intros value fallback Hne; [contradiction|].
  cbn [app config_walk].
  destruct value as [| | | | |d]; try reflexivity.
  destruct (d !! k) as [v|]; [|reflexivity].
  destruct keys1 as [|k1 keys1].
  - destruct v; reflexivity.
  - destruct v; try reflexivity; now apply IH.
Qed.

Lemma config_walk_found (keys : list string) :
  forall value fallback,
    keys <> [] -> config_walk value keys fallback = YNone -> fallback = YNone.
Proof.
  induction keys as [|k keys IH]; intros value fallback Hne H; [contradiction|].
  cbn [config_walk] in H.
  destruct value as [| | | | |d]; try exact H.
  destruct (d !! k) as [v|]; [|exact H].
  destruct keys as [|k1 keys].
  - destruct v; cbn in H; first [exact H | discriminate H].
  - destruct v; try exact H; (eapply IH; [discriminate | exact H]).
Qed.

(** X18. [ConfigLoader.get]: a key without dots is looked up in the top
    dictionary, and the default is given exactly when the configuration is
    no dictionary, the key is missing or its value is null -- [false], [0]
    and empty values are returned as they are.  A dotted key [a.b] is the
    lookup of [b] in what [a] gives, the default being given as soon as a
    step fails.  The answer is never null unless the default is. *)
Theorem config_get_properties (config : yaml) (fallback : yaml) :
  (forall key,
     plain_key key ->
     config_get config key fallback =
     match config with
     | YDict d =>
         match d !! key with
         | None => fallback
         | Some YNone => fallback
         | Some v => v
         end
     | _ => fallback
     end) /\
  (forall a b,
     config_get config (a +:+ String dot b) fallback =
     match config_get config a YNone with
     | YNone => fallback
     | sub => config_get sub b fallback
     end) /\
  (forall key, config_get config key fallback = YNone -> fallback = YNone) /\
  (forall key, config_contains config key = true <->
               config_get config key YNone <> YNone).
Proof.
  split; [|split; [|split]].
  - intros key Hplain. unfold config_get. rewrite (split_dot_plain key Hplain).
    cbn [config_walk]. destruct config as [| | | | |d]; reflexivity.
  - intros a b. unfold config_get. rewrite split_dot_join.
    apply config_walk_app.
    destruct (split_dot_cons a) as (piece & pieces & ->). discriminate.
  - intros key. unfold config_get. apply config_walk_found.
    destruct (split_dot_cons key) as (piece & pieces & ->). discriminate.
  - intros key. unfold config_contains.
    destruct (config_get config key YNone); split; congruence.
Qed.

Lemma config_get_properties_witness :
  let config :=
    YDict (<["main_process" :=
               YDict (<["auto_resume" := YBool false]>
                      (<["max_cards" := YNone]> ∅))]> ∅) in
  config_get config "main_process.auto_resume" (YBool true) = YBool false /\
  config_get config "main_process.max_cards" (YNum (zn 0)) = YNum (zn 0) /\
  config_get config "main_process" YNone <> YNone.
Proof.
  intros config.
  split; [vm_compute; reflexivity|]. split; [vm_compute; reflexivity|].
  intros Hnone.
  destruct (config_get_properties config (YBool true)) as (_ & _ & Hfound & _).
  specialize (Hfound "main_process").
  assert (Hsame : config_get config "main_process" (YBool true) = YNone).
  { vm_compute in Hnone. discriminate Hnone. }
  discriminate (Hfound Hsame).
Defined.

(** ** The region of interest *)

Lemma py_slice_inside {A : Type} (l : list A) (a b : Z) :
  0 <= a -> a <= b -> b <= Z.of_nat (length l) ->
  py_slice l a b = take (Z.to_nat (b - a)) (drop (Z.to_nat a) l) /\
  Z.of_nat (length (py_slice l a b)) = b - a /\
  (forall i, 0 <= i < b - a ->
     py_slice l a b !! Z.to_nat i = l !! Z.to_nat (a + i)).
Proof.
  intros Ha Hab Hb.
  assert (Heq : py_slice l a b = take (Z.to_nat (b - a)) (drop (Z.to_nat a) l)).
  { unfold py_slice, slice_index.
    destruct (a <? 0) eqn:Ea; [lia|]. destruct (b <? 0) eqn:Eb; [lia|].
    now rewrite !Z.min_l by lia. }
  split; [exact Heq|]. rewrite Heq. split.
  - rewrite length_take, length_drop. lia.
  - intros i Hi. rewrite lookup_take_lt by lia. rewrite lookup_drop.
    f_equal. lia.
Qed.

(** X19. [extract_roi] of a rectangular image, for a requested size that is
    not negative: the corner is moved into the image, the size is cut to
    what is left of the image from that corner, and the result is exactly
    that window of the image -- rectangular, of that width and height, its
    pixel [(i, j)] being the image's pixel [(y + i, x + j)].  When the image
    and the requested size are not empty, neither is the result. *)
Theorem extract_roi_window {A : Type} (img : ImageProcessor.ndarray A) (x0 y0 rw0 rh0 : Z) :
  ImageProcessor.rectangular img -> 0 <= rw0 -> 0 <= rh0 ->
  let w := ImageProcessor.img_width img in
  let h := ImageProcessor.img_height img in
  let x := Z.max 0 (Z.min x0 (w - 1)) in
  let y := Z.max 0 (Z.min y0 (h - 1)) in
  let roi := ImageProcessor.extract_roi img x0 y0 rw0 rh0 in
  ImageProcessor.rectangular roi /\
  ImageProcessor.img_width roi = Z.min rw0 (w - x) /\
  ImageProcessor.img_height roi = Z.min rh0 (h - y) /\
  0 <= x /\ x + ImageProcessor.img_width roi <= w /\
  0 <= y /\ y + ImageProcessor.img_height roi <= h /\
  (forall i j, 0 <= i < ImageProcessor.img_height roi -> 0 <= j < ImageProcessor.img_width roi ->
     ImageProcessor.pixel roi i j = ImageProcessor.pixel img (y + i) (x + j)) /\
  (1 <= w -> 1 <= h -> 1 <= rw0 -> 1 <= rh0 ->
     1 <= ImageProcessor.img_width roi /\ 1 <= ImageProcessor.img_height roi).
Proof.
  intros [Hw Hrows] Hrw Hrh w h x y roi.
  assert (Hh : 0 <= h) by (unfold h, ImageProcessor.img_height; lia).
  set (roi_w := Z.min rw0 (w - x)). set (roi_h := Z.min rh0 (h - y)).
  assert (Hx : 0 <= x /\ x <= w) by (unfold x; lia).
  assert (Hy : 0 <= y /\ y <= h) by (unfold y; lia).
  assert (Hroi_w : 0 <= roi_w /\ x + roi_w <= w) by (unfold roi_w; lia).
  assert (Hroi_h : 0 <= roi_h /\ y + roi_h <= h) by (unfold roi_h; lia).
  destruct (py_slice_inside (ImageProcessor.img_rows img) y (y + roi_h))
    as (Hrows_eq & Hrows_len & Hrows_at); [lia | lia | fold (ImageProcessor.img_height img); fold h; lia |].
  assert (Hwidth : ImageProcessor.img_width roi = roi_w).
  { unfold roi, ImageProcessor.extract_roi. cbn [ImageProcessor.img_width]. fold w. fold h. fold x. fold roi_w.
    unfold slice_index.
    destruct (x + roi_w <? 0) eqn:E1; [lia|]. destruct (x <? 0) eqn:E2; lia. }
  assert (Hheight : ImageProcessor.img_height roi = roi_h).
  { unfold roi, ImageProcessor.extract_roi, ImageProcessor.img_height. cbn [ImageProcessor.img_rows]. rewrite length_map.
    fold (ImageProcessor.img_height img). fold w. fold h. fold x. fold y. fold roi_w. fold roi_h.
    rewrite Hrows_len. lia. }
  assert (Hsub : Forall (fun row => Z.of_nat (length row) = w)
                   (py_slice (ImageProcessor.img_rows img) y (y + roi_h))).
  { rewrite Hrows_eq. apply Forall_take, Forall_drop. exact Hrows. }
  split; [|split; [exact Hwidth|split; [exact Hheight|]]].
  - split; [rewrite Hwidth; lia|]. rewrite Hwidth.
    unfold roi, ImageProcessor.extract_roi. cbn [ImageProcessor.img_rows].
    fold (ImageProcessor.img_height img). fold w. fold h. fold x. fold y. fold roi_w. fold roi_h.
    apply Forall_map. eapply Forall_impl; [exact Hsub|].
    intros row Hrow. cbn beta in Hrow |- *.
    destruct (py_slice_inside row x (x + roi_w)) as (_ & Hlen & _); lia.
  - rewrite Hwidth, Hheight.
    split; [lia|]. split; [lia|]. split; [lia|]. split; [lia|]. split.
    + intros i j Hi Hj. unfold ImageProcessor.pixel, roi, ImageProcessor.extract_roi. cbn [ImageProcessor.img_rows].
      fold (ImageProcessor.img_height img). fold w. fold h. fold x. fold y. fold roi_w. fold roi_h.
      match goal with
      | |- context [map ?f ?l] => change (map f l) with (f <$> l)
      end.
      rewrite list_lookup_fmap.
      rewrite (Hrows_at i) by lia.
      destruct (ImageProcessor.img_rows img !! Z.to_nat (y + i)) as [row|] eqn:Erow; [|reflexivity].
      cbn.
      assert (Hrow : Z.of_nat (length row) = w).
      { exact (Forall_lookup_1 _ _ _ _ Hrows Erow). }
      destruct (py_slice_inside row x (x + roi_w)) as (_ & _ & Hat); [lia | lia | lia |].
      apply Hat. lia.
    + intros Hw1 Hh1 Hrw1 Hrh1. unfold roi_w, roi_h, x, y. lia.
Qed.

Lemma extract_roi_window_witness :
  let img := ImageProcessor.mkImage 3 [[1; 2; 3]; [4; 5; 6]] in
  let roi := ImageProcessor.extract_roi img 7 (-1) 2 5 in
  ImageProcessor.img_width roi = 1 /\ ImageProcessor.img_height roi = 2 /\
  ImageProcessor.pixel roi 1 0 = ImageProcessor.pixel img 1 2.
Proof.
  intros img roi.
  assert (Hrect : ImageProcessor.rectangular img).
  { split; [cbn; lia|]. repeat constructor. }
  destruct (extract_roi_window img 7 (-1) 2 5 Hrect ltac:(lia) ltac:(lia))
    as (_ & Hwidth & Hheight & _ & _ & _ & _ & Hpixel & _).
  split; [exact Hwidth|]. split; [exact Hheight|].
  apply (Hpixel 1 0); [rewrite Hheight; vm_compute; split; congruence
                      |rewrite Hwidth; vm_compute; split; congruence].
Defined.

(** ** The sharpest frame *)

Lemma collect_zip {A : Type} (shots : list (option (A * Q))) :
  forall i,
    (zip (Camera.collect shots).1 (Camera.collect shots).2) !! i =
    (omap id shots) !! i /\
    length (Camera.collect shots).1 = length (Camera.collect shots).2.
Proof.
  induction shots as [|[[frame score]|] shots IH]; intros i; cbn [Camera.collect omap].
  - split; reflexivity.
  - destruct (Camera.collect shots) as [frames scores] eqn:E. cbn in *.
    destruct i as [|i]; [split; [reflexivity | f_equal; exact (proj2 (IH O))]|].
    split; [exact (proj1 (IH i)) | f_equal; exact (proj2 (IH O))].
  - apply IH.
Qed.

Lemma py_max_spec (scores : list Q) :
  forall best,
    let m := Camera.py_max best scores in
    (m = best \/ m ∈ scores) /\ (best <= m)%Q /\ Forall (fun s => (s <= m)%Q) scores.
Proof.
  induction scores as [|s scores IH]; intros best; cbn [Camera.py_max].
  - split; [now left|]. split; [apply Qle_refl | constructor].
  - destruct (Qle_bool s best) eqn:E.
    + destruct (IH best) as (Hin & Hle & Hall).
      split; [destruct Hin as [->|Hin]; [now left | right; now apply list_elem_of_further]|].
      split; [exact Hle|]. constructor; [|exact Hall].
      apply Qle_bool_iff in E. eapply Qle_trans; eassumption.
    + destruct (IH s) as (Hin & Hle & Hall).
      split; [right; destruct Hin as [->|Hin];
              [apply list_elem_of_here | now apply list_elem_of_further]|].
      split; [|constructor; assumption].
      assert (Hlt : (best < s)%Q).
      { apply Qnot_le_lt. intros Hc. apply Qle_bool_iff in Hc. congruence. }
      apply Qlt_le_weak. eapply Qlt_le_trans; eassumption.
Qed.

Lemma py_index_spec (m : Q) (scores : list Q) :
  m ∈ scores ->
  exists i s,
    Camera.py_index m scores = Some i /\ scores !! i = Some s /\ (s == m)%Q /\
    forall j s', (j < i)%nat -> scores !! j = Some s' -> ~ (s' == m)%Q.
Proof.
  induction scores as [|s scores IH]; intros Hin; [now apply elem_of_nil in Hin|].
  cbn [Camera.py_index]. destruct (Qeq_bool s m) eqn:E.
  - exists O, s. split; [reflexivity|]. split; [reflexivity|].
    split; [now apply Qeq_bool_iff|]. intros j s' Hj. lia.
  - assert (Hneq : ~ (s == m)%Q).
    { intros Hc. apply Qeq_bool_iff in Hc. congruence. }
    apply elem_of_cons in Hin as [->|Hin]; [exfalso; apply Hneq; reflexivity|].
    destruct (IH Hin) as (i & s0 & -> & Hat & Heq & Hfirst).
    exists (S i), s0. split; [reflexivity|]. split; [exact Hat|]. split; [exact Heq|].
    intros [|j] s' Hj Hs'; cbn in Hs'; [congruence|].
    apply (Hfirst j s'); [lia | exact Hs'].
Qed.

(** X20. [capture_multiple_frames] never raises.  It returns [None] exactly
    when no round of the loop read a frame; otherwise it returns one of the
    frames read, whose score no other frame exceeds, and among the frames
    of that score the one read first. *)
Theorem capture_multiple_frames_sharpest {A : Type} (shots : list (option (A * Q))) :
  let taken := omap id shots in
  match Camera.capture_multiple_frames shots with
  | Camera.Returned None => taken = []
  | Camera.Returned (Some frame) =>
      exists i score,
        taken !! i = Some (frame, score) /\
        (forall j f s, taken !! j = Some (f, s) -> (s <= score)%Q) /\
        (forall j f s, (j < i)%nat -> taken !! j = Some (f, s) -> (s < score)%Q)
  | _ => False
  end.
Proof.
  intros taken. unfold Camera.capture_multiple_frames.
  pose proof (collect_zip shots) as Hzip.
  destruct (Camera.collect shots) as [frames scores]. cbn [fst snd] in Hzip.
  fold taken in Hzip.
  assert (Hlen : length frames = length scores) by exact (proj2 (Hzip O)).
  assert (Hat : forall i, zip frames scores !! i = taken !! i)
    by (intros i; exact (proj1 (Hzip i))).
  clear Hzip.
  destruct frames as [|frame0 frames].
  - destruct scores; [|discriminate Hlen].
    destruct taken as [|t taken']; [reflexivity|]. specialize (Hat O). discriminate Hat.
  - destruct scores as [|s0 scores]; [discriminate Hlen|].
    destruct (py_max_spec scores s0) as (Hin & Hle & Hall).
    set (m := Camera.py_max s0 scores) in *.
    assert (Hmem : m ∈ s0 :: scores).
    { destruct Hin as [->|Hin]; [apply list_elem_of_here | now apply list_elem_of_further]. }
    destruct (py_index_spec m (s0 :: scores) Hmem) as (i & s & -> & Hs & Heq & Hfirst).
    assert (Hbound : (i < length (frame0 :: frames))%nat).
    { rewrite Hlen. eapply lookup_lt_Some, Hs. }
    destruct (lookup_lt_is_Some_2 _ _ Hbound) as [frame Hframe]. rewrite Hframe.
    assert (Hgreatest : Forall (fun s' => (s' <= m)%Q) (s0 :: scores))
      by (constructor; assumption).
    assert (Hscore : forall j f s', taken !! j = Some (f, s') -> (s0 :: scores) !! j = Some s').
    { intros j f s' Hj. rewrite <- Hat in Hj.
      apply lookup_zip_with_Some in Hj as (f' & s'' & Hpair & _ & Hs'').
      inversion Hpair; subst. exact Hs''. }
    exists i, s. split; [|split].
    + rewrite <- Hat. apply lookup_zip_with_Some. exists frame, s. auto.
    + intros j f s' Hj. rewrite Heq.
      exact (Forall_lookup_1 _ _ _ _ Hgreatest (Hscore j f s' Hj)).
    + intros j f s' Hji Hj. rewrite Heq.
      pose proof (Hscore j f s' Hj) as Hs'.
      pose proof (Forall_lookup_1 _ _ _ _ Hgreatest Hs') as Hle'. cbn beta in Hle'.
      apply Qle_lt_or_eq in Hle' as [Hlt|Hsame]; [exact Hlt|].
      exfalso. exact (Hfirst j s' Hji Hs' Hsame).
Qed.

(** ** The command line *)

(** X21. The exit status of [main].  The status is 1 exactly when the
    constructor or the run raised an exception that [except Exception]
    catches, and 0 exactly when the run returned.  That includes the run
    whose hardware initialisation answers [False]: [run] returns at once,
    without entering the loop or [cleanup], and the status is 0. *)
Theorem main_exit_status (args : Args) (fuel : nat) (w : state) :
  (forall e, is_Exception e = true -> fst (main args (inl e) fuel w) = Ret 1) /\
  (forall self,
     let self' := apply_args args self in
     (fst (main args (inr self) fuel w) = Ret 1 <->
      exists e, is_Exception e = true /\ fst (run self' fuel w) = Raise e) /\
     (fst (main args (inr self) fuel w) = Ret 0 <->
      fst (run self' fuel w) = Ret tt) /\
     (forall w', initialize_hardware self' w = (Ret false, w') ->
                 run self' fuel w = (Ret tt, w') /\
                 cleanups w' = cleanups w /\
                 fst (main args (inr self) fuel w) = Ret 0)).
Proof.
  split.
  - intros e He. unfold main, try_except_Exception, raise. now rewrite He.
  - intros self self'.
    assert (Hone : fst (main args (inr self) fuel w) = Ret 1 <->
                   exists e, is_Exception e = true /\
                             fst (run self' fuel w) = Raise e).
    { unfold main, try_except_Exception, bind. fold self'.
      destruct (run self' fuel w) as [[[]|e| |] w1]; cbn [fst ret].
      - split; [discriminate|]. intros (e & _ & H). discriminate H.
      - destruct (is_Exception e) eqn:He; cbn [fst].
        + split; [eauto|reflexivity].
        + split; [discriminate|]. intros (e' & He' & H).
          injection H as <-. congruence.
      - split; [discriminate|]. intros (e & _ & H). discriminate H.
      - split; [discriminate|]. intros (e & _ & H). discriminate H. }
    assert (Hzero : fst (main args (inr self) fuel w) = Ret 0 <->
                    fst (run self' fuel w) = Ret tt).
    { unfold main, try_except_Exception, bind. fold self'.
      destruct (run self' fuel w) as [[[]|e| |] w1]; cbn [fst ret].
      - split; reflexivity.
      - destruct (is_Exception e); cbn [fst]; split; discriminate.
      - split; discriminate.
      - split; discriminate. }
    split; [exact Hone|]. split; [exact Hzero|].
    intros w' H.
    assert (Hrun : run self' fuel w = (Ret tt, w')).
    { unfold run, bind. rewrite H. reflexivity. }
    split; [exact Hrun|]. split.
    + pose proof (keeps_initialize_hardware cleanups framed_cleanups self' w) as K.
      rewrite H in K. exact K.
    + apply Hzero. now rewrite Hrun.
Qed.

Lemma main_exit_status_witness :
  let w := fresh no_port_env in
  fst (initialize_hardware sample_robot w) = Ret false /\
  fst (main (mkArgs None false) (inr sample_robot) 5 w) = Ret 0 /\
  cleanups (snd (run sample_robot 5 w)) = 0%nat.
Proof.
  intros w.
  destruct (main_exit_status (mkArgs None false) 5 w) as [_ H].
  destruct (H sample_robot) as (_ & _ & Hfalse).
  destruct (Hfalse (snd (initialize_hardware sample_robot w)))
    as (Hrun & Hcount & Hstatus); [vm_compute; reflexivity|].
  split; [vm_compute; reflexivity|]. split; [exact Hstatus|].
  change (apply_args (mkArgs None false) sample_robot) with sample_robot in Hrun.
  rewrite Hrun. cbn [snd]. rewrite Hcount. reflexivity.
Defined.

Lemma safe_main (args : Args) (built : exn + CardSortingRobot) (fuel : nat) :
  forall r,
    match built with
    | inl _ => True
    | inr self => r = robot (apply_args args self)
    end ->
    emits (safe_event r) (main args built fuel).
Proof.
  intros r Hr. unfold main. destruct built as [e|self].
  - emits_all.
  - subst r. pose proof (safe_run (apply_args args self) fuel). emits_all.
Qed.

(** X22. With [-s] on the command line nothing is ever written to the
    serial line, whatever the cameras, the recogniser and the operator do
    and however long the run lasts; and the card limit of the run is the
    one given with [-n], when one is given. *)
Theorem simulation_never_writes (args : Args) (self : CardSortingRobot)
    (fuel : nat) (w : state) :
  (simulation args = true ->
   exists evs,
     trace (snd (main args (inr self) fuel w)) = evs ++ trace w /\
     Forall (fun e => is_write e = false) evs) /\
  (forall n, num_cards args = Some n -> max_cards (apply_args args self) = n) /\
  (num_cards args = None -> max_cards (apply_args args self) = max_cards self).
Proof.
  split; [|split].
  - intros Hsim.
    destruct (safe_main args (inr self) fuel _ eq_refl w) as (evs & Ht & Hall).
    exists evs. split; [exact Ht|].
    eapply Forall_impl; [exact Hall|].
    intros e He. cbv beta in He. destruct e; try reflexivity.
    unfold safe_event, apply_args in He. rewrite Hsim in He.
    cbn in He. discriminate He.
  - intros n Hn. unfold apply_args. rewrite Hn. destruct (simulation args); reflexivity.
  - intros Hn. unfold apply_args. rewrite Hn. destruct (simulation args); reflexivity.
Qed.

Lemma simulation_never_writes_witness :
  exists evs,
    trace (snd (main (mkArgs (Some 1) true) (inr sample_robot) 3
                  (fresh (good_card_env [])))) =
    evs ++ trace (fresh (good_card_env [])) /\
    Forall (fun e => is_write e = false) evs.
Proof.
  apply (simulation_never_writes (mkArgs (Some 1) true) sample_robot 3
           (fresh (good_card_env []))).
  reflexivity.
Defined.

(** ** Instances *)

Lemma send_command_outcomes_witness :
  let r := mkRobotArm sample_positions ∅ (Some sample_limits) true in
  let w := fresh quiet_env in
  simulation_mode r = true /\
  send_command r M112 w = (Ret true, with_trace (cons (EvSendCommand M112)) w).
Proof.
  intros r w. split; [reflexivity|].
  exact (proj1 (proj2 (send_command_outcomes r M112 w)) eq_refl).
Defined.

Lemma emergency_stop_outcomes_witness :
  let w := fresh quiet_env in
  simulation_mode sample_arm = false /\ is_connected w = false /\
  emergency_stop sample_arm w =
  (Ret tt, with_trace (cons (EvSendCommand M112)) w).
Proof.
  intros w. split; [reflexivity|]. split; [reflexivity|].
  exact (proj2 (proj2 (proj2 (emergency_stop_outcomes sample_arm w)))
           eq_refl eq_refl).
Defined.
